(** * par_cc_usage: configuration resolution

    A shallow embedding of [src/par_cc_usage/config.py] (with the enums of
    [src/par_cc_usage/enums.py]) and the properties of its configuration
    resolution: layered precedence, soft-fail file loading, schema
    validation, the [CLAUDE_CONFIG_DIR] override, project directory
    resolution and persistence.

    Python objects are modelled as follows.
    - [str] is [string], the UTF-8 encoding of the text.  Splitting at a
      comma, looking for a [$] or a [/] and comparing with an ASCII
      literal give the same answer on the encoding as on the text, since
      no byte of a longer UTF-8 sequence is an ASCII byte;
    - what depends on the classification of every Unicode character is
      not defined here but taken as a parameter, the class [Python]: the
      builtin [int(str)], [str.strip()], and the conversion of a text to
      an integer field by pydantic.  The properties are proved for every
      such runtime; the worked examples use [ascii_python], which is the
      runtime on ASCII texts;
    - [int] is [Z]; [pathlib.Path] is [path], a wrapper around the text it
      was built from (pathlib's textual normalisation, such as collapsing
      a doubled slash, is not represented);
    - untyped YAML / dictionary values are the inductive [obj], with
      dictionaries as [gmap string obj];
    - exceptions are the inductive [exn], and fallible code returns
      [result];
    - the process environment, the home directory and the file system are
      the record [World], threaded explicitly through the code that reads
      or writes them. *)

From Stdlib Require Import ZArith Ascii String List Bool Lia.
From stdpp Require Import base option list gmap strings fin_maps.

Local Open Scope Z_scope.

(* ===================================================================== *)
(** * Characters and strings *)
(* ===================================================================== *)

Module Str.

Definition code (c : ascii) : nat := nat_of_ascii c.

(** [str.isspace] on the ASCII range: TAB..CR, FS..US and the space.
    (Beyond ASCII, [str.strip] also removes the other Unicode white
    space; see [py_strip].) *)
Definition is_space (c : ascii) : bool :=
  let n := code c in
  ((9 <=? n)%nat && (n <=? 13)%nat) || ((28 <=? n)%nat && (n <=? 32)%nat).

Definition is_digit (c : ascii) : bool :=
  let n := code c in (48 <=? n)%nat && (n <=? 57)%nat.

Definition is_upper (c : ascii) : bool :=
  let n := code c in (65 <=? n)%nat && (n <=? 90)%nat.

Definition is_alpha (c : ascii) : bool :=
  let n := code c in
  is_upper c || ((97 <=? n)%nat && (n <=? 122)%nat).

Definition digit_value (c : ascii) : Z := Z.of_nat (code c) - 48.

Definition lower_char (c : ascii) : ascii :=
  if is_upper c then ascii_of_nat (code c + 32) else c.

(** [str.lower] *)
Fixpoint lower (s : string) : string :=
  match s with
  | EmptyString => EmptyString
  | String c s' => String (lower_char c) (lower s')
  end.

Fixpoint lstrip (l : list ascii) : list ascii :=
  match l with
  | c :: l' => if is_space c then lstrip l' else l
  | [] => []
  end.

Definition strip_chars (l : list ascii) : list ascii :=
  rev (lstrip (rev (lstrip l))).

(** [str.strip] with no argument, on an ASCII text *)
Definition strip (s : string) : string :=
  string_of_list_ascii (strip_chars (list_ascii_of_string s)).

(** [str.split(sep)] for a one-character separator: always at least one
    segment, empty segments kept. *)
Fixpoint split_chars (sep : ascii) (l : list ascii) : list (list ascii) :=
  match l with
  | [] => [[]]
  | c :: l' =>
      if Ascii.eqb c sep then [] :: split_chars sep l'
      else match split_chars sep l' with
           | seg :: segs => (c :: seg) :: segs
           | [] => [[c]]
           end
  end.

Definition split (sep : ascii) (s : string) : list string :=
  map string_of_list_ascii (split_chars sep (list_ascii_of_string s)).

(** Truth value of a string: non-empty. *)
Definition nonempty (s : string) : bool :=
  match s with EmptyString => false | _ => true end.

(** [needle in haystack] for strings. *)
Definition contains (needle haystack : string) : bool :=
  match String.index 0 needle haystack with Some _ => true | None => false end.

(** Case-insensitive comparison, character by character. *)
Fixpoint eq_ignore_case (s t : string) : bool :=
  match s, t with
  | EmptyString, EmptyString => true
  | String a s', String b t' =>
      Ascii.eqb (lower_char a) (lower_char b) && eq_ignore_case s' t'
  | _, _ => false
  end.

End Str.

(* ===================================================================== *)
(** * Integer literals: the builtin [int(str)] on ASCII texts *)
(* ===================================================================== *)

Module PyInt.

(** The white space [int] skips at both ends of an ASCII text: TAB..CR
    and the space (not FS..US, which [str.strip] removes). *)
Definition is_space (c : ascii) : bool :=
  let n := Str.code c in
  ((9 <=? n)%nat && (n <=? 13)%nat) || (n =? 32)%nat.

Fixpoint lskip (l : list ascii) : list ascii :=
  match l with
  | c :: l' => if is_space c then lskip l' else l
  | [] => []
  end.

Definition trim (l : list ascii) : list ascii :=
  rev (lskip (rev (lskip l))).

(** Digits with single underscores between them, accumulated left to
    right; [prev] records that the previous character was a digit. *)
Fixpoint digits (acc : Z) (prev : bool) (l : list ascii) : option Z :=
  match l with
  | [] => if prev then Some acc else None
  | c :: l' =>
      if Str.is_digit c then digits (10 * acc + Str.digit_value c) true l'
      else if Ascii.eqb c "_"%char then
             if prev then digits acc false l' else None
      else None
  end.

Definition signed (l : list ascii) : option Z :=
  match l with
  | c :: l' =>
      if Ascii.eqb c "-"%char then Z.opp <$> digits 0 false l'
      else if Ascii.eqb c "+"%char then digits 0 false l'
      else digits 0 false l
  | [] => None
  end.

(** [int(s)] for an ASCII text [s] within the length limit of the
    conversion: [None] stands for [ValueError]. *)
Definition int (s : string) : option Z :=
  signed (trim (list_ascii_of_string s)).

(** The literal grammar, stated on its own: after trimming white space
    and one optional sign, the text cut at underscores consists of
    non-empty runs of decimal digits. *)
Definition digit_run (g : list ascii) : bool :=
  match g with [] => false | _ => forallb Str.is_digit g end.

Definition unsigned_literal (l : list ascii) : bool :=
  forallb digit_run (Str.split_chars "_"%char l).

Definition numeric (s : string) : bool :=
  match trim (list_ascii_of_string s) with
  | [] => false
  | c :: l' =>
      if Ascii.eqb c "-"%char || Ascii.eqb c "+"%char
      then unsigned_literal l'
      else unsigned_literal (c :: l')
  end.

End PyInt.

(* ===================================================================== *)
(** * The runtime *)
(* ===================================================================== *)

(** The three conversions of texts whose result depends on the Unicode
    database (decimal digits and white space of every script), on the
    interpreter's limit on the length of integer literals, or on the
    version of pydantic.  The program is embedded over any of them. *)
Class Python := {
  (** [int(s)] in base ten; [None] stands for [ValueError] *)
  py_int : string → option Z;
  (** [s.strip()] *)
  py_strip : string → string;
  (** pydantic's conversion of a [str] to an [int] field in its default
      (lax) mode; [None] stands for a validation error *)
  pydantic_int : string → option Z;
}.

(** What the properties of comma-separated lists assume of [str.strip]:
    stripping a stripped text changes nothing, and the result is cut out
    of the text, so it holds no character the text does not hold. *)
Class StripLaws `{Python} : Prop := {
  py_strip_idempotent (s : string) : py_strip (py_strip s) = py_strip s;
  py_strip_within (s : string) (c : ascii) :
    In c (list_ascii_of_string (py_strip s)) → In c (list_ascii_of_string s);
}.

(** The runtime the worked examples run on.  On ASCII texts within the
    length limit of [int] it is the interpreter for [int] and [strip];
    for pydantic it takes the literals of [int], which every version
    accepts or rejects alike on the texts of the examples. *)
#[global] Instance ascii_python : Python :=
  {| py_int := PyInt.int; py_strip := Str.strip; pydantic_int := PyInt.int |}.

(* ===================================================================== *)
(** * Enumerations ([enums.py]) *)
(* ===================================================================== *)

Inductive TimeFormat := TWELVE_HOUR | TWENTY_FOUR_HOUR.
Inductive DisplayMode := NORMAL | COMPACT.
Inductive ThemeType := DEFAULT | DARK | LIGHT | ACCESSIBILITY | MINIMAL.

(** The [.value] of each member. *)
Definition TimeFormat_value (t : TimeFormat) : string :=
  match t with TWELVE_HOUR => "12h" | TWENTY_FOUR_HOUR => "24h" end.

Definition DisplayMode_value (m : DisplayMode) : string :=
  match m with NORMAL => "normal" | COMPACT => "compact" end.

Definition ThemeType_value (t : ThemeType) : string :=
  match t with
  | DEFAULT => "default" | DARK => "dark" | LIGHT => "light"
  | ACCESSIBILITY => "accessibility" | MINIMAL => "minimal"
  end.

(** Lookup of a member by value, as [TimeFormat(s)] does; [None] stands
    for the [ValueError] of an unknown value. *)
Definition by_value {E : Type} (members : list E) (val : E → string)
    (s : string) : option E :=
  List.find (λ m, String.eqb (val m) s) members.

Definition TimeFormat_of (s : string) : option TimeFormat :=
  by_value [TWELVE_HOUR; TWENTY_FOUR_HOUR] TimeFormat_value s.

Definition DisplayMode_of (s : string) : option DisplayMode :=
  by_value [NORMAL; COMPACT] DisplayMode_value s.

Definition ThemeType_of (s : string) : option ThemeType :=
  by_value [DEFAULT; DARK; LIGHT; ACCESSIBILITY; MINIMAL] ThemeType_value s.

(* ===================================================================== *)
(** * Values, exceptions, results *)
(* ===================================================================== *)

(** [pathlib.Path]: [Path s] is [Path(s)], [str_of] is [str(p)]. *)
Inductive path := Path (s : string).

Definition str_of (p : path) : string := match p with Path s => s end.

(** [p / name] *)
Definition joinpath (p : path) (name : string) : path :=
  Path (str_of p +:+ "/" +:+ name).

(** The values a configuration dictionary holds: the null, booleans,
    integers, texts, sequences and mappings of a YAML document ([VNone],
    [VBool], [VInt], [VStr], [VList], [VDict]) and what the override
    parsers add ([VPath], [VTimeFormat], [VDisplayMode]).  The other
    values a YAML document can hold (floats, dates, binary data) are not
    represented. *)
#[warnings="-register-all"] Inductive obj :=
| VNone
| VBool (b : bool)
| VInt (n : Z)
| VStr (s : string)
| VPath (p : path)
| VTimeFormat (t : TimeFormat)
| VDisplayMode (m : DisplayMode)
| VList (l : list obj)
| VDict (d : gmap string obj).

(** Truth value of an object, as [if x:] and [x or y] test it. *)
Definition truthy (v : obj) : bool :=
  match v with
  | VNone => false
  | VBool b => b
  | VInt n => negb (n =? 0)
  | VStr s => Str.nonempty s
  | VPath _ => true
  | VTimeFormat _ | VDisplayMode _ => true
  | VList l => match l with [] => false | _ => true end
  | VDict d => negb (bool_decide (d = ∅))
  end.

(** A location inside the configuration, as a validation error gives it:
    keys, and indices into lists.  [[Key "display"; Key "theme"]] is the
    field [theme] of the section [display], and
    [[Key "projects_dirs"; Index 1]] the second item of [projects_dirs]. *)
Inductive loc_item :=
| Key (s : string)
| Index (i : nat).

Definition loc := list loc_item.

Inductive exn :=
| PermissionError
| FileNotFoundError
| FileExistsError
| IsADirectoryError
| UnicodeDecodeError
| YAMLError
| ValueError
| TypeError
| AttributeError
| ValidationError (errors : list loc).

(** [isinstance(e, OSError)] *)
Definition is_OSError (e : exn) : bool :=
  match e with
  | PermissionError | FileNotFoundError | FileExistsError | IsADirectoryError => true
  | _ => false
  end.

Inductive result (A : Type) :=
| Ok (a : A)
| Raise (e : exn).
Arguments Ok {A} a.
Arguments Raise {A} e.

#[global] Instance result_ret : MRet result := λ A a, Ok a.
#[global] Instance result_bind : MBind result := λ A B f m,
  match m with Ok a => f a | Raise e => Raise e end.

(** [try: m  except <handled>: h] *)
Definition try_except {A} (m : result A) (handled : exn → bool)
    (h : result A) : result A :=
  match m with
  | Ok a => Ok a
  | Raise e => if handled e then h else Raise e
  end.

(* ===================================================================== *)
(** * The world: environment variables and the file system *)
(* ===================================================================== *)

(** What opening and parsing a regular file gives. *)
Inductive content :=
| Unreadable               (* [open] raises [PermissionError] *)
| Undecodable              (* the bytes are not UTF-8: [UnicodeDecodeError] *)
| Malformed                (* not YAML: [yaml.YAMLError] *)
| Unconstructible          (* YAML with a scalar the loader fails to build,
                              as the date [2001-13-45]: [ValueError] *)
| Document (v : obj).    (* [yaml.safe_load] returns [v] *)

(** What is found at a path; a path with no entry does not exist. *)
Inductive entry :=
| Denied                   (* [stat] raises [PermissionError] *)
| Directory
| RegularFile (c : content).

Record World := {
  environ : gmap string string;        (* [os.environ] *)
  home : path;                         (* [Path.home()] *)
  fs : gmap string entry;              (* the file system, by path text *)
  realpath : string → string;          (* text of [Path(s).resolve()] *)
  (* [xdg_dirs], whose source is not part of the repository snapshot *)
  config_file_path : path;             (* [get_config_file_path()] *)
  default_cache_dir : path;            (* [get_cache_dir()] *)
  legacy_config_paths : list path;     (* [get_legacy_config_paths()] *)
}.

Definition set_fs (w : World) (f : gmap string entry) : World :=
  {| environ := environ w; home := home w; fs := f; realpath := realpath w;
     config_file_path := config_file_path w;
     default_cache_dir := default_cache_dir w;
     legacy_config_paths := legacy_config_paths w |}.

(** [os.getenv(name)] *)
Definition getenv (w : World) (name : string) : option string :=
  environ w !! name.

(** [if value := os.getenv(name)]: the variable is set and not empty. *)
Definition getenv_nonempty (w : World) (name : string) : option string :=
  match getenv w name with
  | Some s => if Str.nonempty s then Some s else None
  | None => None
  end.

(** [p.exists()] *)
Definition path_exists (w : World) (p : path) : result bool :=
  match fs w !! str_of p with
  | None => Ok false
  | Some Denied => Raise PermissionError
  | Some _ => Ok true
  end.

(** [p.is_dir()] *)
Definition path_is_dir (w : World) (p : path) : result bool :=
  match fs w !! str_of p with
  | Some Directory => Ok true
  | Some Denied => Raise PermissionError
  | _ => Ok false
  end.

(** [p.resolve()] *)
Definition resolve (w : World) (p : path) : path :=
  Path (realpath w (str_of p)).

(** [with open(p, encoding="utf-8") as f: yaml.safe_load(f)] *)
Definition read_yaml (w : World) (p : path) : result obj :=
  match fs w !! str_of p with
  | None => Raise FileNotFoundError
  | Some Denied => Raise PermissionError
  | Some Directory => Raise IsADirectoryError
  | Some (RegularFile Unreadable) => Raise PermissionError
  | Some (RegularFile Undecodable) => Raise UnicodeDecodeError
  | Some (RegularFile Malformed) => Raise YAMLError
  | Some (RegularFile Unconstructible) => Raise ValueError
  | Some (RegularFile (Document v)) => Ok v
  end.

(** [p.mkdir(parents=True, exist_ok=True)].  Only the entry of [p] itself
    is looked at and created: the directories above it are taken to be
    there or to be creatable. *)
Definition mkdir (w : World) (p : path) : result World :=
  match fs w !! str_of p with
  | None => Ok (set_fs w (<[str_of p := Directory]> (fs w)))
  | Some Directory => Ok w
  | Some Denied => Raise PermissionError
  | Some (RegularFile _) => Raise FileExistsError
  end.

(** [with open(p, "w") as f: yaml.dump(d, f)]: the file then parses back
    to the dictionary that was dumped. *)
Definition write_yaml (w : World) (p : path) (d : obj) : result World :=
  match fs w !! str_of p with
  | Some Denied => Raise PermissionError
  | Some Directory => Raise IsADirectoryError
  | Some (RegularFile Unreadable) => Raise PermissionError
  | _ => Ok (set_fs w (<[str_of p := RegularFile (Document d)]> (fs w)))
  end.

(* ===================================================================== *)
(** * Path expansion ([utils.expand_path]) *)
(* ===================================================================== *)

Module Expand.

(** A character of a variable name. *)
Definition is_word (c : ascii) : bool :=
  Str.is_alpha c || Str.is_digit c || Ascii.eqb c "_"%char.

(** The home-directory alias: a leading [~], alone or before [/]. *)
Definition expanduser (home_dir : string) (s : string) : string :=
  match s with
  | String "~" EmptyString => home_dir
  | String "~" (String "/" rest) => home_dir +:+ String "/" rest
  | _ => s
  end.

(** A reference [$NAME] whose name has been read (in reverse) into
    [name]: replaced by the variable's value when it is defined, left as
    written otherwise. *)
Definition flush (env : gmap string string) (name : list ascii) : list ascii :=
  match env !! string_of_list_ascii (rev name) with
  | Some v => list_ascii_of_string v
  | None => "$"%char :: rev name
  end.

(** [pending] is [Some name] while a reference is being read. *)
Fixpoint scan (env : gmap string string) (pending : option (list ascii))
    (l : list ascii) : list ascii :=
  match l with
  | [] => match pending with Some name => flush env name | None => [] end
  | c :: l' =>
      match pending with
      | Some name =>
          if is_word c then scan env (Some (c :: name)) l'
          else flush env name ++
               (if Ascii.eqb c "$"%char then scan env (Some []) l'
                else c :: scan env None l')
      | None =>
          if Ascii.eqb c "$"%char then scan env (Some []) l'
          else c :: scan env None l'
      end
  end.

Definition expandvars (env : gmap string string) (s : string) : string :=
  string_of_list_ascii (scan env None (list_ascii_of_string s)).

(** A text with neither the home alias in front nor a [$]. *)
Definition plain (s : string) : bool :=
  negb (String.prefix "~" s)
  && forallb (λ c, negb (Ascii.eqb c "$"%char)) (list_ascii_of_string s).

End Expand.

(** Modelled from the spec: [utils.expand_path], imported by [config.py]
    but absent from the sources.  It "expands a leading home-directory
    alias and any embedded environment-variable references (by name, e.g.
    [$VAR]) into their resolved values, then returns the result as a path
    value without requiring the path to exist"; a text without alias or
    variable syntax passes through unchanged, relative or not (the test
    [test_expand_relative_path] expects [Path("./data/file.txt")] back).
    A reference to a variable that is not set is left as written. *)
Definition expand_path (w : World) (s : string) : path :=
  Path (Expand.expandvars (environ w) (Expand.expanduser (str_of (home w)) s)).

(* ===================================================================== *)
(** * Parsing environment values *)
(* ===================================================================== *)

(** [key in [ ... ]] for string lists. *)
Definition mem (key : string) (l : list string) : bool :=
  existsb (String.eqb key) l.

Definition _parse_bool_value (value : string) : bool :=
  mem (Str.lower value) ["true"; "1"; "yes"; "on"].

Definition _parse_time_format_value (value : string) : option TimeFormat :=
  TimeFormat_of value.

Definition _parse_display_mode_value (value : string) : option DisplayMode :=
  DisplayMode_of value.

Definition int_keys : list string :=
  ["polling_interval"; "token_limit"; "refresh_interval"; "cooldown_minutes";
   "recent_activity_window_hours"].

Definition path_keys : list string := ["projects_dir"; "cache_dir"].

Definition bool_keys : list string :=
  ["disable_cache"; "notify_on_block_completion"; "show_progress_bars";
   "show_active_sessions"; "update_in_place"; "aggregate_by_project";
   "show_tool_usage"; "show_pricing"].

(* ===================================================================== *)
(** * Environment overrides *)
(* ===================================================================== *)

(** [obj[key] = v]: only a dictionary supports it. *)
Definition setitem (o : obj) (key : string) (v : obj) : result obj :=
  match o with
  | VDict d => Ok (VDict (<[key := v]> d))
  | _ => Raise TypeError
  end.

(** [obj.get(key, {})]: only a dictionary has [get]. *)
Definition get_or_empty (o : obj) (key : string) : result obj :=
  match o with
  | VDict d => Ok (default (VDict ∅) (d !! key))
  | _ => Raise AttributeError
  end.

Definition _get_top_level_env_mapping : list (string * string) :=
  [("PAR_CC_USAGE_PROJECTS_DIR", "projects_dir");
   ("PAR_CC_USAGE_POLLING_INTERVAL", "polling_interval");
   ("PAR_CC_USAGE_TIMEZONE", "timezone");
   ("PAR_CC_USAGE_TOKEN_LIMIT", "token_limit");
   ("PAR_CC_USAGE_CACHE_DIR", "cache_dir");
   ("PAR_CC_USAGE_DISABLE_CACHE", "disable_cache");
   ("PAR_CC_USAGE_RECENT_ACTIVITY_WINDOW_HOURS", "recent_activity_window_hours")].

Definition _get_display_env_mapping : list (string * string) :=
  [("PAR_CC_USAGE_SHOW_PROGRESS_BARS", "show_progress_bars");
   ("PAR_CC_USAGE_SHOW_ACTIVE_SESSIONS", "show_active_sessions");
   ("PAR_CC_USAGE_UPDATE_IN_PLACE", "update_in_place");
   ("PAR_CC_USAGE_REFRESH_INTERVAL", "refresh_interval");
   ("PAR_CC_USAGE_TIME_FORMAT", "time_format");
   ("PAR_CC_USAGE_PROJECT_NAME_PREFIXES", "project_name_prefixes");
   ("PAR_CC_USAGE_SHOW_TOOL_USAGE", "show_tool_usage");
   ("PAR_CC_USAGE_DISPLAY_MODE", "display_mode");
   ("PAR_CC_USAGE_SHOW_PRICING", "show_pricing");
   ("PAR_CC_USAGE_THEME", "theme")].

Definition _get_notification_env_mapping : list (string * string) :=
  [("PAR_CC_USAGE_DISCORD_WEBHOOK_URL", "discord_webhook_url");
   ("PAR_CC_USAGE_SLACK_WEBHOOK_URL", "slack_webhook_url");
   ("PAR_CC_USAGE_NOTIFY_ON_BLOCK_COMPLETION", "notify_on_block_completion");
   ("PAR_CC_USAGE_COOLDOWN_MINUTES", "cooldown_minutes")].

(* ===================================================================== *)
(** * Loading the configuration file *)
(* ===================================================================== *)

(** One pass of the loop of [_expand_paths_in_config] for [field].  The
    test [field in config_dict] is a key test on a dictionary, a membership
    test on a list, a substring test on a string, and a [TypeError] on an
    object that is not a container; the subscript that follows the test is
    a [TypeError] on a list and on a string. *)
Definition expand_field (w : World) (field : string) (config_dict : obj)
    : result obj :=
  match config_dict with
  | VDict d =>
      match d !! field with
      | Some (VStr s) => Ok (VDict (<[field := VPath (expand_path w s)]> d))
      | _ => Ok config_dict
      end
  | VList l =>
      if existsb (λ x, match x with VStr s => String.eqb s field | _ => false end) l
      then Raise TypeError else Ok config_dict
  | VStr s => if Str.contains field s then Raise TypeError else Ok config_dict
  | _ => Raise TypeError
  end.

Definition _expand_paths_in_config (w : World) (config_dict : obj) : result obj :=
  config_dict ← expand_field w "projects_dir" config_dict;
  expand_field w "cache_dir" config_dict.

(** Modelled from the spec: [xdg_dirs.migrate_legacy_config], absent from
    the sources.  "The first legacy file found is copied verbatim to the
    canonical location", and migration happens "only when the canonical
    file does not yet exist; legacy file content is preserved". *)
Definition migrate_legacy_config (w : World) (legacy_path : path) : bool * World :=
  match fs w !! str_of legacy_path, fs w !! str_of (config_file_path w) with
  | Some (RegularFile c), None =>
      (true, set_fs w (<[str_of (config_file_path w) := RegularFile c]> (fs w)))
  | _, _ => (false, w)
  end.

(** The migration loop: stops at the first legacy path that migrates and
    switches to the canonical location. *)
Fixpoint migrate_first (w : World) (config_file : path) (legacy : list path)
    : path * World :=
  match legacy with
  | [] => (config_file, w)
  | legacy_path :: rest =>
      match migrate_legacy_config w legacy_path with
      | (true, w') => (config_file_path w', w')
      | (false, w') => migrate_first w' config_file rest
      end
  end.

Definition handles_read (e : exn) : bool :=
  match e with
  | UnicodeDecodeError | YAMLError => true
  | _ => is_OSError e
  end.

(** First half of [_load_config_file]: the file that will be read, after
    the migration of a legacy file when the configured one does not
    exist. *)
Definition locate_config_file (w : World) (config_file : option path)
    : result (path * World) :=
  let config_file := default (config_file_path w) config_file in
  config_exists ← try_except (path_exists w config_file) is_OSError (Ok true);
  Ok (if negb config_exists
      then migrate_first w config_file (legacy_config_paths w)
      else (config_file, w)).

(** Second half: the nested [try] blocks around the read. *)
Definition read_config_file (w : World) (config_file : path) : result obj :=
  try_except
    (present ← path_exists w config_file;
     if (present : bool)
     then try_except
            (loaded ← read_yaml w config_file;
             _expand_paths_in_config w
               (if truthy loaded then loaded else VDict ∅))
            handles_read (Ok (VDict ∅))
     else Ok (VDict ∅))
    is_OSError (Ok (VDict ∅)).

Definition _load_config_file (w : World) (config_file : option path)
    : result (obj * World) :=
  '(config_file, w) ← locate_config_file w config_file;
  config_dict ← read_config_file w config_file;
  Ok (config_dict, w).

(* ===================================================================== *)
(** * The schema and its validation (pydantic models) *)
(* ===================================================================== *)

Record DisplayConfig := {
  show_progress_bars : bool;
  show_active_sessions : bool;
  update_in_place : bool;
  refresh_interval : Z;
  time_format : TimeFormat;
  project_name_prefixes : list string;
  aggregate_by_project : bool;
  show_tool_usage : bool;
  display_mode : DisplayMode;
  show_pricing : bool;
  theme : ThemeType;
}.

Record NotificationConfig := {
  discord_webhook_url : option string;
  slack_webhook_url : option string;
  notify_on_block_completion : bool;
  cooldown_minutes : Z;
}.

Record Config := {
  projects_dir : path;
  projects_dirs : option (list path);
  polling_interval : Z;
  timezone : string;
  token_limit : option Z;
  cache_dir : path;
  disable_cache : bool;
  display : DisplayConfig;
  notifications : NotificationConfig;
  recent_activity_window_hours : Z;
}.

(** Validation either succeeds or reports every offending location. *)
Inductive validation (A : Type) :=
| Valid (a : A)
| Invalid (errors : list loc).
Arguments Valid {A} a.
Arguments Invalid {A} errors.

Definition vmap {A B} (f : A → B) (x : validation A) : validation B :=
  match x with Valid a => Valid (f a) | Invalid e => Invalid e end.

Definition vap {A B} (f : validation (A → B)) (x : validation A) : validation B :=
  match f, x with
  | Valid g, Valid a => Valid (g a)
  | Valid _, Invalid e => Invalid e
  | Invalid e, Valid _ => Invalid e
  | Invalid e1, Invalid e2 => Invalid (e1 ++ e2)
  end.

Notation "f <*> x" := (vap f x) (at level 61, left associativity).

Definition errors_of {A} (x : validation A) : list loc :=
  match x with Valid _ => [] | Invalid e => e end.

(** Errors of a nested model are located under the section's key. *)
Definition under {A} (key : string) (x : validation A) : validation A :=
  match x with Valid a => Valid a | Invalid e => Invalid (cons (Key key) <$> e) end.

(** The conversions of pydantic's default (lax) mode, on the objects a
    configuration dictionary can hold. *)
Definition val_bool (v : obj) : option bool :=
  match v with
  | VBool b => Some b
  | VInt n => if n =? 0 then Some false else if n =? 1 then Some true else None
  | VStr s =>
      if mem (Str.lower s) ["1"; "on"; "t"; "true"; "y"; "yes"] then Some true
      else if mem (Str.lower s) ["0"; "off"; "f"; "false"; "n"; "no"] then Some false
      else None
  | _ => None
  end.

Definition val_str (v : obj) : option string :=
  match v with VStr s => Some s | _ => None end.

Definition val_path (v : obj) : option path :=
  match v with VStr s => Some (Path s) | VPath p => Some p | _ => None end.

Definition val_time_format (v : obj) : option TimeFormat :=
  match v with VTimeFormat t => Some t | VStr s => TimeFormat_of s | _ => None end.

Definition val_display_mode (v : obj) : option DisplayMode :=
  match v with VDisplayMode m => Some m | VStr s => DisplayMode_of s | _ => None end.

Definition val_theme (v : obj) : option ThemeType :=
  match v with VStr s => ThemeType_of s | _ => None end.

(** [T | None] *)
Definition val_optional {A} (val : obj → option A) (v : obj) : option (option A) :=
  match v with VNone => Some None | _ => Some <$> val v end.

(** [list[T]] *)
Definition val_list {A} (val : obj → option A) (v : obj) : option (list A) :=
  match v with VList l => mapM val l | _ => None end.

(** A field: the default when the key is missing, the converted value when
    it converts, an error at the key otherwise. *)
Definition fld {A} (val : obj → option A) (dflt : A) (d : gmap string obj)
    (key : string) : validation A :=
  match d !! key with
  | None => Valid dflt
  | Some v => match val v with Some a => Valid a | None => Invalid [[Key key]] end
  end.

(** The positions of the items of a list that a conversion rejects. *)
Fixpoint rejected_from {A} (val : obj → option A) (i : nat) (l : list obj)
    : list nat :=
  match l with
  | [] => []
  | v :: l' =>
      match val v with
      | Some _ => rejected_from val (S i) l'
      | None => i :: rejected_from val (S i) l'
      end
  end.

Definition rejected {A} (val : obj → option A) (l : list obj) : list nat :=
  rejected_from val 0 l.

(** Where an object that is no list of [val] is at fault, relative to the
    field: at the index of every item that does not convert, or at the
    field itself when the object is not a list. *)
Definition item_errors {A} (val : obj → option A) (v : obj) : list loc :=
  match v with
  | VList l => (λ i, [Index i]) <$> rejected val l
  | _ => [[]]
  end.

(** A field annotated with a list of [val], converted by [conv]: as [fld],
    with the errors at the items. *)
Definition fld_list {A B} (val : obj → option A) (conv : obj → option B)
    (dflt : B) (d : gmap string obj) (key : string) : validation B :=
  match d !! key with
  | None => Valid dflt
  | Some v =>
      match conv v with
      | Some b => Valid b
      | None => Invalid (cons (Key key) <$> item_errors val v)
      end
  end.

(** A field holding a nested model, built by [default_factory] with no
    argument when the key is missing. *)
Definition model_fld {A} (validate : gmap string obj → validation A)
    (d : gmap string obj) (key : string) : validation A :=
  match d !! key with
  | None => validate ∅
  | Some (VDict sd) => under key (validate sd)
  | Some _ => Invalid [[Key key]]
  end.

(** [Path.home() / ".claude" / "projects"] *)
Definition default_projects_dir (w : World) : path :=
  joinpath (joinpath (home w) ".claude") "projects".

(** [model_post_init]: the cache directory is created. *)
Definition model_post_init (w : World) (self : Config) : result World :=
  mkdir w (cache_dir self).

(* ===================================================================== *)
(** * Project directories: [Config.get_claude_paths] *)
(* ===================================================================== *)

Definition default_paths (w : World) : list path :=
  [joinpath (joinpath (joinpath (home w) ".config") "claude") "projects";
   joinpath (joinpath (home w) ".claude") "projects"].

(** [path.exists() and path.is_dir()] *)
Definition exists_and_is_dir (w : World) (p : path) : result bool :=
  present ← path_exists w p;
  if (present : bool) then path_is_dir w p else Ok false.

(** The loop over [default_paths]. *)
Fixpoint existing_defaults (w : World) (candidates paths : list path)
    : result (list path) :=
  match candidates with
  | [] => Ok paths
  | p :: rest =>
      keep ← exists_and_is_dir w p;
      existing_defaults w rest (if (keep : bool) then paths ++ [p] else paths)
  end.

(** The candidate directories, before validation.  The test
    [self.projects_dir] of the fallback is on a [Path], which is always
    true. *)
Definition candidate_paths (w : World) (self : Config) : result (list path) :=
  match projects_dirs self with
  | Some (p :: l) => Ok (p :: l)
  | _ =>
      paths ← existing_defaults w (default_paths w) [];
      Ok (match paths with [] => [projects_dir self] | _ => paths end)
  end.

(** The loop "deduplicate and validate paths". *)
Fixpoint valid_paths_loop (w : World) (paths valid_paths : list path)
    (seen : gset string) : result (list path) :=
  match paths with
  | [] => Ok valid_paths
  | p :: rest =>
      let path_str := str_of (resolve w p) in
      if bool_decide (path_str ∈ seen) then valid_paths_loop w rest valid_paths seen
      else
        keep ← exists_and_is_dir w p;
        if (keep : bool)
        then valid_paths_loop w rest (valid_paths ++ [p]) ({[path_str]} ∪ seen)
        else valid_paths_loop w rest valid_paths seen
  end.

Definition get_claude_paths (w : World) (self : Config) : result (list path) :=
  paths ← candidate_paths w self;
  valid_paths_loop w paths [] ∅.

(* ===================================================================== *)
(** * Persistence: [save_config] *)
(* ===================================================================== *)

Definition opt_obj {A} (inj : A → obj) (o : option A) : obj :=
  match o with Some a => inj a | None => VNone end.

(** The two nested sections of the dictionary [save_config] dumps. *)
Definition save_display_dict (config : Config) : gmap string obj :=
  <["show_progress_bars" := VBool (show_progress_bars (display config))]>
  (<["show_active_sessions" := VBool (show_active_sessions (display config))]>
  (<["update_in_place" := VBool (update_in_place (display config))]>
  (<["refresh_interval" := VInt (refresh_interval (display config))]>
  (<["time_format" := VStr (TimeFormat_value (time_format (display config)))]>
  (<["project_name_prefixes" :=
       VList (VStr <$> project_name_prefixes (display config))]>
  (<["display_mode" := VStr (DisplayMode_value (display_mode (display config)))]>
  (<["show_pricing" := VBool (show_pricing (display config))]> ∅))))))).

Definition save_notifications_dict (config : Config) : gmap string obj :=
  <["discord_webhook_url" :=
      opt_obj VStr (discord_webhook_url (notifications config))]>
  (<["slack_webhook_url" :=
      opt_obj VStr (slack_webhook_url (notifications config))]>
  (<["notify_on_block_completion" :=
      VBool (notify_on_block_completion (notifications config))]>
  (<["cooldown_minutes" := VInt (cooldown_minutes (notifications config))]> ∅))).

(** The dictionary [save_config] dumps: [projects_dirs] is added when the
    list is set and not empty. *)
Definition save_config_dict (config : Config) : gmap string obj :=
  let config_dict : gmap string obj :=
    <["projects_dir" := VStr (str_of (projects_dir config))]>
    (<["polling_interval" := VInt (polling_interval config)]>
    (<["timezone" := VStr (timezone config)]>
    (<["token_limit" := opt_obj VInt (token_limit config)]>
    (<["cache_dir" := VStr (str_of (cache_dir config))]>
    (<["display" := VDict (save_display_dict config)]>
    (<["notifications" := VDict (save_notifications_dict config)]> ∅)))))) in
  match projects_dirs config with
  | Some (p :: l) =>
      <["projects_dirs" := VList ((λ q, VStr (str_of q)) <$> (p :: l))]> config_dict
  | _ => config_dict
  end.

(** [p.parent], on the text of the path. *)
Definition parent (p : path) : path :=
  let fix after_slash (l : list ascii) : option (list ascii) :=
    match l with
    | [] => None
    | c :: l' => if Ascii.eqb c "/"%char then Some l' else after_slash l'
    end in
  match after_slash (rev (list_ascii_of_string (str_of p))) with
  | None => Path "."
  | Some [] => Path "/"
  | Some l => Path (string_of_list_ascii (rev l))
  end.

(** Modelled from the spec: [xdg_dirs.ensure_xdg_directories], absent from
    the sources; the spec lists "canonical configuration directory
    creation on save" among the file-system effects. *)
Definition ensure_xdg_directories (w : World) : result World :=
  mkdir w (parent (config_file_path w)).

Definition save_config (w : World) (config : Config) (config_file : path)
    : result World :=
  w ← ensure_xdg_directories w;
  w ← mkdir w (parent config_file);
  write_yaml w config_file (VDict (save_config_dict config)).

(* ===================================================================== *)
(** * The fields of the schema, one by one *)
(* ===================================================================== *)

(** To speak of "every configuration field" the fields are enumerated,
    each with its section, its key, its type and its default; the tables
    below are read off the three model classes. *)
Module Field.

Inductive t :=
| projects_dir | projects_dirs | polling_interval | timezone | token_limit
| cache_dir | disable_cache | recent_activity_window_hours
| show_progress_bars | show_active_sessions | update_in_place
| refresh_interval | time_format | project_name_prefixes
| aggregate_by_project | show_tool_usage | display_mode | show_pricing
| theme
| discord_webhook_url | slack_webhook_url | notify_on_block_completion
| cooldown_minutes.

(** The nested section a field lives in; [None] at top level. *)
Definition section (f : t) : option string :=
  match f with
  | projects_dir | projects_dirs | polling_interval | timezone | token_limit
  | cache_dir | disable_cache | recent_activity_window_hours => None
  | show_progress_bars | show_active_sessions | update_in_place
  | refresh_interval | time_format | project_name_prefixes
  | aggregate_by_project | show_tool_usage | display_mode | show_pricing
  | theme => Some "display"%string
  | discord_webhook_url | slack_webhook_url | notify_on_block_completion
  | cooldown_minutes => Some "notifications"%string
  end.

Definition key (f : t) : string :=
  match f with
  | projects_dir => "projects_dir" | projects_dirs => "projects_dirs"
  | polling_interval => "polling_interval" | timezone => "timezone"
  | token_limit => "token_limit" | cache_dir => "cache_dir"
  | disable_cache => "disable_cache"
  | recent_activity_window_hours => "recent_activity_window_hours"
  | show_progress_bars => "show_progress_bars"
  | show_active_sessions => "show_active_sessions"
  | update_in_place => "update_in_place"
  | refresh_interval => "refresh_interval" | time_format => "time_format"
  | project_name_prefixes => "project_name_prefixes"
  | aggregate_by_project => "aggregate_by_project"
  | show_tool_usage => "show_tool_usage" | display_mode => "display_mode"
  | show_pricing => "show_pricing" | theme => "theme"
  | discord_webhook_url => "discord_webhook_url"
  | slack_webhook_url => "slack_webhook_url"
  | notify_on_block_completion => "notify_on_block_completion"
  | cooldown_minutes => "cooldown_minutes"
  end.

Definition location (f : t) : loc :=
  match section f with
  | Some s => [Key s; Key (key f)]
  | None => [Key (key f)]
  end.

(** The annotated type of a field. *)
Inductive type :=
| Int | OptInt | Bool | Str | OptStr | PathT | OptPaths | Strs
| TimeFormatT | DisplayModeT | ThemeT.

Definition type_of (f : t) : type :=
  match f with
  | projects_dir | cache_dir => PathT
  | projects_dirs => OptPaths
  | polling_interval | recent_activity_window_hours | refresh_interval
  | cooldown_minutes => Int
  | token_limit => OptInt
  | timezone => Str
  | disable_cache | show_progress_bars | show_active_sessions
  | update_in_place | aggregate_by_project | show_tool_usage | show_pricing
  | notify_on_block_completion => Bool
  | time_format => TimeFormatT
  | project_name_prefixes => Strs
  | display_mode => DisplayModeT
  | theme => ThemeT
  | discord_webhook_url | slack_webhook_url => OptStr
  end.

(** The type of the items of a field annotated with a list. *)
Definition item_type (t : type) : option type :=
  match t with OptPaths => Some PathT | Strs => Some Str | _ => None end.

End Field.

(** A validated field value, tagged with its type. *)
Inductive typed :=
| TInt (n : Z)
| TOptInt (n : option Z)
| TBool (b : bool)
| TStr (s : string)
| TOptStr (s : option string)
| TPath (p : path)
| TOptPaths (l : option (list path))
| TStrs (l : list string)
| TTimeFormat (t : TimeFormat)
| TDisplayMode (m : DisplayMode)
| TTheme (t : ThemeType).

(** The value of a field in a configuration object. *)
Definition field_value (c : Config) (f : Field.t) : typed :=
  match f with
  | Field.projects_dir => TPath (projects_dir c)
  | Field.projects_dirs => TOptPaths (projects_dirs c)
  | Field.polling_interval => TInt (polling_interval c)
  | Field.timezone => TStr (timezone c)
  | Field.token_limit => TOptInt (token_limit c)
  | Field.cache_dir => TPath (cache_dir c)
  | Field.disable_cache => TBool (disable_cache c)
  | Field.recent_activity_window_hours => TInt (recent_activity_window_hours c)
  | Field.show_progress_bars => TBool (show_progress_bars (display c))
  | Field.show_active_sessions => TBool (show_active_sessions (display c))
  | Field.update_in_place => TBool (update_in_place (display c))
  | Field.refresh_interval => TInt (refresh_interval (display c))
  | Field.time_format => TTimeFormat (time_format (display c))
  | Field.project_name_prefixes => TStrs (project_name_prefixes (display c))
  | Field.aggregate_by_project => TBool (aggregate_by_project (display c))
  | Field.show_tool_usage => TBool (show_tool_usage (display c))
  | Field.display_mode => TDisplayMode (display_mode (display c))
  | Field.show_pricing => TBool (show_pricing (display c))
  | Field.theme => TTheme (theme (display c))
  | Field.discord_webhook_url => TOptStr (discord_webhook_url (notifications c))
  | Field.slack_webhook_url => TOptStr (slack_webhook_url (notifications c))
  | Field.notify_on_block_completion =>
      TBool (notify_on_block_completion (notifications c))
  | Field.cooldown_minutes => TInt (cooldown_minutes (notifications c))
  end.

(** What [save_config] writes for a field value: numbers, booleans and
    texts as they are, paths as their text, enumeration members as their
    value, [None] as the null. *)
Definition dumped (x : typed) : obj :=
  match x with
  | TInt n => VInt n
  | TOptInt n => opt_obj VInt n
  | TBool b => VBool b
  | TStr s => VStr s
  | TOptStr s => opt_obj VStr s
  | TPath p => VStr (str_of p)
  | TOptPaths l => opt_obj (λ l, VList ((λ q, VStr (str_of q)) <$> l)) l
  | TStrs l => VList (VStr <$> l)
  | TTimeFormat t => VStr (TimeFormat_value t)
  | TDisplayMode m => VStr (DisplayMode_value m)
  | TTheme t => VStr (ThemeType_value t)
  end.

(** [DisplayConfig()], [NotificationConfig()] and [Config()]: every field
    at its declared default. *)
Definition DisplayConfig_default : DisplayConfig :=
  {| show_progress_bars := true; show_active_sessions := false;
     update_in_place := true; refresh_interval := 1;
     time_format := TWENTY_FOUR_HOUR;
     project_name_prefixes := ["-Users-"; "-home-"]%string;
     aggregate_by_project := true; show_tool_usage := false;
     display_mode := NORMAL; show_pricing := false; theme := DEFAULT |}.

Definition NotificationConfig_default : NotificationConfig :=
  {| discord_webhook_url := None; slack_webhook_url := None;
     notify_on_block_completion := true; cooldown_minutes := 5 |}.

Definition Config_default (w : World) : Config :=
  {| projects_dir := default_projects_dir w; projects_dirs := None;
     polling_interval := 5; timezone := "America/Los_Angeles";
     token_limit := None; cache_dir := default_cache_dir w;
     disable_cache := false; display := DisplayConfig_default;
     notifications := NotificationConfig_default;
     recent_activity_window_hours := 5 |}.

(** The schema default of a field. *)
Definition schema_default (w : World) (f : Field.t) : typed :=
  field_value (Config_default w) f.

(** What a dictionary binds a field to: at top level, or inside the
    field's section when that is a dictionary. *)
Definition lookup_field (d : gmap string obj) (f : Field.t) : option obj :=
  match Field.section f with
  | None => d !! Field.key f
  | Some sec =>
      match d !! sec with
      | Some (VDict sd) => sd !! Field.key f
      | _ => None
      end
  end.

(** The same for a loaded document, which is a dictionary or binds
    nothing. *)
Definition file_value (file : obj) (f : Field.t) : option obj :=
  match file with VDict d => lookup_field d f | _ => None end.

(** The environment variable mapped to a field: the one the three tables
    list for its key, and [CLAUDE_CONFIG_DIR] for the directory list. *)
Definition env_table (section : option string) : list (string * string) :=
  match section with
  | None => _get_top_level_env_mapping
  | Some sec =>
      if String.eqb sec "display" then _get_display_env_mapping
      else _get_notification_env_mapping
  end.

Definition env_var_of (f : Field.t) : option string :=
  match f with
  | Field.projects_dirs => Some "CLAUDE_CONFIG_DIR"%string
  | _ =>
      fst <$> List.find (λ e, String.eqb (snd e) (Field.key f))
                (env_table (Field.section f))
  end.

(* ===================================================================== *)
(** * Auxiliary definitions *)
(* ===================================================================== *)

#[global] Instance field_eq_dec : EqDecision Field.t.
Proof. solve_decision. Defined.

Definition is_dict (o : obj) : bool :=
  match o with VDict _ => true | _ => false end.

(** The section dictionary read by nested fields. *)
Definition section_dict (d : gmap string obj) (sec : string) : option (gmap string obj) :=
  match d !! sec with
  | None => Some ∅
  | Some (VDict sd) => Some sd
  | Some _ => None
  end.

(** The ways reading or parsing the configuration file can fail: everything
    found at the path except a regular file holding a YAML document. *)
Inductive read_failure (w : World) (p : path) : Prop :=
| file_absent : fs w !! str_of p = None → read_failure w p
| stat_denied : fs w !! str_of p = Some Denied → read_failure w p
| not_a_regular_file : fs w !! str_of p = Some Directory → read_failure w p
| open_denied : fs w !! str_of p = Some (RegularFile Unreadable) → read_failure w p
| undecodable_bytes : fs w !! str_of p = Some (RegularFile Undecodable) → read_failure w p
| malformed_yaml : fs w !! str_of p = Some (RegularFile Malformed) → read_failure w p.

(** The override variables: [CLAUDE_CONFIG_DIR] and those of the tables. *)
Definition override_vars : list string :=
  "CLAUDE_CONFIG_DIR"%string ::
  (fst <$> _get_top_level_env_mapping ++ _get_display_env_mapping
           ++ _get_notification_env_mapping).

(** No override variable is set to a non-empty text. *)
Definition no_overrides (w : World) : Prop :=
  ∀ var, var ∈ override_vars → getenv_nonempty w var = None.

(** The keys the three models read; any other key is unknown to them. *)
Definition Config_keys : list string :=
  ["projects_dir"; "projects_dirs"; "polling_interval"; "timezone";
   "token_limit"; "cache_dir"; "disable_cache"; "display"; "notifications";
   "recent_activity_window_hours"].

Definition DisplayConfig_keys : list string :=
  ["show_progress_bars"; "show_active_sessions"; "update_in_place";
   "refresh_interval"; "time_format"; "project_name_prefixes";
   "aggregate_by_project"; "show_tool_usage"; "display_mode"; "show_pricing";
   "theme"].

Definition NotificationConfig_keys : list string :=
  ["discord_webhook_url"; "slack_webhook_url"; "notify_on_block_completion";
   "cooldown_minutes"].

(** An absolute path, free of the home alias and of variable syntax. *)
Definition is_absolute (p : path) : bool := String.prefix "/" (str_of p).

Definition well_formed_path (p : path) : bool :=
  is_absolute p && Expand.plain (str_of p).

(** Every path-valued field is absolute and expanded. *)
Definition all_paths_well_formed (c : Config) : Prop :=
  well_formed_path (projects_dir c) = true ∧
  well_formed_path (cache_dir c) = true ∧
  ∀ l p, projects_dirs c = Some l → p ∈ l → well_formed_path p = true.

(** The text a variable mapped to a field supplies, if any. *)
Definition env_text (w : World) (f : Field.t) : option string :=
  var ← env_var_of f; getenv_nonempty w var.

(** What saving a configuration and loading the file again gives: the
    saved fields come back (paths through [expand_path]), the others are
    at their defaults. *)
Definition reloaded_display (c : Config) : DisplayConfig :=
  {| show_progress_bars := show_progress_bars (display c);
     show_active_sessions := show_active_sessions (display c);
     update_in_place := update_in_place (display c);
     refresh_interval := refresh_interval (display c);
     time_format := time_format (display c);
     project_name_prefixes := project_name_prefixes (display c);
     aggregate_by_project := true;
     show_tool_usage := false;
     display_mode := display_mode (display c);
     show_pricing := show_pricing (display c);
     theme := DEFAULT |}.

Definition reloaded (w : World) (c : Config) : Config :=
  {| projects_dir := expand_path w (str_of (projects_dir c));
     projects_dirs :=
       match projects_dirs c with Some (p :: l) => Some (p :: l) | _ => None end;
     polling_interval := polling_interval c;
     timezone := timezone c;
     token_limit := token_limit c;
     cache_dir := expand_path w (str_of (cache_dir c));
     disable_cache := false;
     display := reloaded_display c;
     notifications := notifications c;
     recent_activity_window_hours := 5 |}.

(** A path that exists and is a directory. *)
Definition is_existing_dir (w : World) (p : path) : bool :=
  match fs w !! str_of p with Some Directory => true | _ => false end.


(** The candidate directories, in the words of the resolution algorithm:
    the configured list when it is not empty; otherwise the default
    directories that exist; otherwise the single configured directory. *)
Definition candidates (w : World) (self : Config) : list path :=
  match projects_dirs self with
  | Some (p :: l) => p :: l
  | _ =>
      match List.filter (is_existing_dir w) (default_paths w) with
      | [] => [projects_dir self]
      | found => found
      end
  end.

(** The canonical text of a path, by which candidates are compared. *)
Definition canonical (w : World) (p : path) : string := str_of (resolve w p).

(** The first occurrence of every key, in order. *)
Fixpoint first_occurrences (key : path → string) (l : list path) : list path :=
  match l with
  | [] => []
  | p :: l' =>
      p :: List.filter (λ q, negb (String.eqb (key q) (key p)))
             (first_occurrences key l')
  end.

(** The monitored directories: the candidates that exist as directories,
    one per canonical path, first occurrence first. *)
Definition monitored (w : World) (self : Config) : list path :=
  first_occurrences (canonical w) (List.filter (is_existing_dir w) (candidates w self)).

(** A validation is proper when failure comes with at least one error. *)
Definition proper {A} (x : validation A) : Prop :=
  match x with Valid _ => True | Invalid e => e ≠ [] end.

(** A candidate whose canonical text has not been kept yet. *)
Definition unseen (w : World) (seen : gset string) (q : path) : bool :=
  negb (bool_decide (canonical w q ∈ seen)).

(** What the loop returns: what it had, then the first occurrences among
    the remaining existing directories whose canonical text is new. *)
Definition loop_result (w : World) (paths acc : list path) (seen : gset string)
    : list path :=
  acc ++ first_occurrences (canonical w)
           (List.filter (unseen w seen) (List.filter (is_existing_dir w) paths)).

(** Expansion of the path fields of a loaded mapping. *)
Definition expanded_field (w : World) (key : string) (d : gmap string obj)
    : gmap string obj :=
  match d !! key with
  | Some (VStr s) => <[key := VPath (expand_path w s)]> d
  | _ => d
  end.

(** The dictionary a saved file loads as. *)
Definition loaded_dict (w : World) (config : Config) : gmap string obj :=
  expanded_field w "cache_dir"
    (expanded_field w "projects_dir" (save_config_dict config)).

(** Two worlds of one process: loading changes the file system and nothing else. *)
Definition same_process (w w' : World) : Prop := ∃ f, w' = set_fs w f.

(* ===================================================================== *)
(** * A sample installation, for the examples *)
(* ===================================================================== *)

Module Sample.

Definition config_file : path := Path "/home/u/.config/par_cc_usage/config.yaml".

Definition world (env : gmap string string) (files : gmap string entry) : World :=
  {| environ := env;
     home := Path "/home/u";
     fs := files;
     realpath := λ s, s;
     config_file_path := config_file;
     default_cache_dir := Path "/home/u/.cache/par_cc_usage";
     legacy_config_paths := [Path "/home/u/.par_cc_usage/config.yaml"] |}.

(** A file system whose only entry is the configuration file. *)
Definition only (c : content) : gmap string entry :=
  {[ str_of config_file := RegularFile c ]}.

Definition yaml (d : gmap string obj) : gmap string entry :=
  only (Document (VDict d)).

(** The default configuration with another directory list. *)
Definition config_with_dirs (w : World) (dirs : option (list path)) : Config :=
  {| projects_dir := projects_dir (Config_default w);
     projects_dirs := dirs;
     polling_interval := polling_interval (Config_default w);
     timezone := timezone (Config_default w);
     token_limit := token_limit (Config_default w);
     cache_dir := cache_dir (Config_default w);
     disable_cache := disable_cache (Config_default w);
     display := display (Config_default w);
     notifications := notifications (Config_default w);
     recent_activity_window_hours :=
       recent_activity_window_hours (Config_default w) |}.

(** The worlds and configurations of the worked examples. *)
Definition malformed_world : World := world ∅ (only Malformed).

Definition polling_world : World :=
  world {[ "PAR_CC_USAGE_POLLING_INTERVAL" := "20" ]}
    (yaml {[ "polling_interval" := VInt 10 ]}).

Definition non_numeric_world : World :=
  world {[ "PAR_CC_USAGE_POLLING_INTERVAL" := "fast";
           "PAR_CC_USAGE_TIMEZONE" := "UTC" ]}
    (yaml {[ "polling_interval" := VInt 10 ]}).

Definition claude_dirs_world : World :=
  world {[ "CLAUDE_CONFIG_DIR" := "/data/a, /data/b,,";
           "PAR_CC_USAGE_PROJECTS_DIR" := "/elsewhere" ]}
    (yaml {[ "projects_dirs" := VList [VStr "/from/file"] ]}).

Definition invalid_world : World :=
  world {[ "PAR_CC_USAGE_THEME" := "neon" ]}
    (yaml {[ "extra" := VInt 1; "polling_interval" := VStr "often" ]}).

Definition expansion_world : World :=
  world {[ "PAR_CC_USAGE_CACHE_DIR" := "~/$SUB/cache"; "SUB" := "var" ]}
    (yaml {[ "projects_dir" := VStr "~/claude/projects" ]}).

Definition unexpanded_world : World :=
  world {[ "CLAUDE_CONFIG_DIR" := "~/.claude, work/claude" ]} ∅.

Definition one_dir_world : World := world ∅ {[ "/data/a" := Directory ]}.

Definition repeated_dirs_config : Config :=
  config_with_dirs one_dir_world
    (Some [Path "/data/a"; Path "/data/missing"; Path "/data/a"]).

Definition empty_world : World := world ∅ ∅.


Definition custom_config : Config :=
  {| projects_dir := Path "/home/u/.claude/projects"; projects_dirs := None;
     polling_interval := 7; timezone := "UTC"; token_limit := Some 1000;
     cache_dir := Path "/home/u/.cache/par_cc_usage"; disable_cache := true;
     display :=
       {| show_progress_bars := false; show_active_sessions := true;
          update_in_place := false; refresh_interval := 2;
          time_format := TWELVE_HOUR; project_name_prefixes := [];
          aggregate_by_project := false; show_tool_usage := true;
          display_mode := COMPACT; show_pricing := true; theme := DARK |};
     notifications := NotificationConfig_default;
     recent_activity_window_hours := 12 |}.

End Sample.

(** The configuration a resolution produced, if any. *)
Definition config_of (r : result (Config * World)) : option Config :=
  match r with Ok (c, _) => Some c | Raise _ => None end.

(* ===================================================================== *)
(** * The rest of [config.py]: the defaults file and the token limit *)
(* ===================================================================== *)

(** [config.token_limit = token_limit]: the models do not validate
    assignments, the field is replaced. *)
Definition set_token_limit (config : Config) (limit : Z) : Config :=
  {| projects_dir := projects_dir config;
     projects_dirs := projects_dirs config;
     polling_interval := polling_interval config;
     timezone := timezone config;
     token_limit := Some limit;
     cache_dir := cache_dir config;
     disable_cache := disable_cache config;
     display := display config;
     notifications := notifications config;
     recent_activity_window_hours := recent_activity_window_hours config |}.

Definition get_default_token_limit : Z := 500000.

(* ===================================================================== *)
(** * The other enumerations of [enums.py] *)
(* ===================================================================== *)

Inductive ModelType :=
| OPUS | SONNET | HAIKU | CLAUDE_3_5_SONNET | CLAUDE_3_OPUS | CLAUDE_3_HAIKU
| CLAUDE_3_5_HAIKU | CLAUDE_SONNET_4 | UNKNOWN.

Inductive WebhookType := DISCORD | SLACK.

Inductive ServiceTier := STANDARD | PREMIUM.

Inductive OutputFormat := TABLE | JSON | CSV.

Inductive SortBy := TOKENS | TIMESTAMP | TIME | PROJECT | SESSION | MODEL.

Definition ModelType_value (m : ModelType) : string :=
  match m with
  | OPUS => "opus" | SONNET => "sonnet" | HAIKU => "haiku"
  | CLAUDE_3_5_SONNET => "claude-3-5-sonnet" | CLAUDE_3_OPUS => "claude-3-opus"
  | CLAUDE_3_HAIKU => "claude-3-haiku" | CLAUDE_3_5_HAIKU => "claude-3-5-haiku"
  | CLAUDE_SONNET_4 => "sonnet-4" | UNKNOWN => "unknown"
  end.

Definition WebhookType_value (t : WebhookType) : string :=
  match t with DISCORD => "discord" | SLACK => "slack" end.

Definition ServiceTier_value (t : ServiceTier) : string :=
  match t with STANDARD => "standard" | PREMIUM => "premium" end.

Definition OutputFormat_value (f : OutputFormat) : string :=
  match f with TABLE => "table" | JSON => "json" | CSV => "csv" end.

Definition SortBy_value (s : SortBy) : string :=
  match s with
  | TOKENS => "tokens" | TIMESTAMP => "timestamp" | TIME => "time"
  | PROJECT => "project" | SESSION => "session" | MODEL => "model"
  end.

(** An enumeration class: its members in source order and the [.value]
    of each.  A call of the class on a text looks the member up by value;
    of two members with one value the second would be an alias of the
    first. *)
Class Enum (E : Type) := { enum_members : list E; enum_value : E → string }.

Definition of_value {E} `{Enum E} (s : string) : option E :=
  by_value enum_members enum_value s.

#[global] Instance TimeFormat_enum : Enum TimeFormat :=
  {| enum_members := [TWELVE_HOUR; TWENTY_FOUR_HOUR];
     enum_value := TimeFormat_value |}.

#[global] Instance ModelType_enum : Enum ModelType :=
  {| enum_members := [OPUS; SONNET; HAIKU; CLAUDE_3_5_SONNET; CLAUDE_3_OPUS;
                      CLAUDE_3_HAIKU; CLAUDE_3_5_HAIKU; CLAUDE_SONNET_4; UNKNOWN];
     enum_value := ModelType_value |}.

#[global] Instance WebhookType_enum : Enum WebhookType :=
  {| enum_members := [DISCORD; SLACK]; enum_value := WebhookType_value |}.

#[global] Instance ServiceTier_enum : Enum ServiceTier :=
  {| enum_members := [STANDARD; PREMIUM]; enum_value := ServiceTier_value |}.

#[global] Instance OutputFormat_enum : Enum OutputFormat :=
  {| enum_members := [TABLE; JSON; CSV]; enum_value := OutputFormat_value |}.

#[global] Instance SortBy_enum : Enum SortBy :=
  {| enum_members := [TOKENS; TIMESTAMP; TIME; PROJECT; SESSION; MODEL];
     enum_value := SortBy_value |}.

#[global] Instance DisplayMode_enum : Enum DisplayMode :=
  {| enum_members := [NORMAL; COMPACT]; enum_value := DisplayMode_value |}.

#[global] Instance ThemeType_enum : Enum ThemeType :=
  {| enum_members := [DEFAULT; DARK; LIGHT; ACCESSIBILITY; MINIMAL];
     enum_value := ThemeType_value |}.

(** Lookup by value and [.value] are inverse to each other: every member
    is found under its own value, and a text finds only the member whose
    value it is. *)
Definition value_lookup_inverse (E : Type) `{Enum E} : Prop :=
  (∀ m : E, of_value (enum_value m) = Some m) ∧
  (∀ (s : string) (m : E), of_value s = Some m → enum_value m = s).

(* ===================================================================== *)
(** * Further auxiliary definitions *)
(* ===================================================================== *)

(** A configuration with another single directory, or another list. *)
Definition with_projects_dir (c : Config) (p : path) : Config :=
  {| projects_dir := p;
     projects_dirs := projects_dirs c;
     polling_interval := polling_interval c;
     timezone := timezone c;
     token_limit := token_limit c;
     cache_dir := cache_dir c;
     disable_cache := disable_cache c;
     display := display c;
     notifications := notifications c;
     recent_activity_window_hours := recent_activity_window_hours c |}.

Definition with_projects_dirs (c : Config) (dirs : option (list path)) : Config :=
  {| projects_dir := projects_dir c;
     projects_dirs := dirs;
     polling_interval := polling_interval c;
     timezone := timezone c;
     token_limit := token_limit c;
     cache_dir := cache_dir c;
     disable_cache := disable_cache c;
     display := display c;
     notifications := notifications c;
     recent_activity_window_hours := recent_activity_window_hours c |}.

Definition has_comma (s : string) : bool :=
  existsb (λ c, Ascii.eqb c ","%char) (list_ascii_of_string s).

(** [",".join(items)] *)
Definition join_commas (items : list string) : string :=
  String.concat "," items.

(** A list of characters with no white space in front. *)
Definition unspaced (l : list ascii) : Prop :=
  match l with [] => True | c :: _ => Str.is_space c = false end.

(** The characters of a text, none of which is the separator. *)
Definition free_of (sep : ascii) (l : list ascii) : Prop :=
  ∀ c, In c l → Ascii.eqb c sep = false.

(** Every path of a list is a directory on disk. *)
Definition all_existing_dirs (w : World) (paths : list path) : Prop :=
  Forall (λ p, is_existing_dir w p = true) paths.

(** The fields [save_config] writes no key for. *)
Definition unsaved : list Field.t :=
  [Field.disable_cache; Field.recent_activity_window_hours;
   Field.aggregate_by_project; Field.show_tool_usage; Field.theme].

(** The exceptions of opening, decoding and parsing a file that the
    loader handles besides [PermissionError]. *)
Definition is_read_error (e : exn) : bool :=
  match e with
  | FileNotFoundError | IsADirectoryError | UnicodeDecodeError | YAMLError => true
  | _ => false
  end.

(* ===================================================================== *)
(** * Further samples, for the examples *)
(* ===================================================================== *)

Module Scenario.

Definition cache : string := "/home/u/.cache/par_cc_usage".


(** The default configuration of the sample installation with another
    polling interval. *)
Definition polling (n : Z) : Config :=
  {| projects_dir := Path "/home/u/.claude/projects"; projects_dirs := None;
     polling_interval := n; timezone := "America/Los_Angeles";
     token_limit := None; cache_dir := Path cache;
     disable_cache := false; display := DisplayConfig_default;
     notifications := NotificationConfig_default;
     recent_activity_window_hours := 5 |}.

(** The sample installation after [config] has been saved to the sample
    location. *)
Definition saved (env : gmap string string) (config : Config) : World :=
  Sample.world env
    {[ cache := Directory;
       "/home/u/.config/par_cc_usage" := Directory;
       str_of Sample.config_file :=
         RegularFile (Document (VDict (save_config_dict config))) ]}.

(** The sample installation with a configuration file holding [d],
    before and after a load has created the cache directory. *)
Definition installed (env : gmap string string) (d : obj) : World :=
  Sample.world env (Sample.only (Document d)).

Definition loaded (env : gmap string string) (d : obj) : World :=
  Sample.world env
    {[ cache := Directory;
       str_of Sample.config_file := RegularFile (Document d) ]}.

End Scenario.

(* ===================================================================== *)
(** * The program over a runtime *)
(* ===================================================================== *)

(** What follows calls [int], [str.strip] or pydantic's integer
    conversion, directly or through what it calls. *)

Section program.

Context {runtime : Python}.

(** [try: return int(value)  except ValueError: return None] *)
Definition _parse_int_value (value : string) : option Z :=
  py_int value.

(** [[x.strip() for x in value.split(",") if x.strip()]] *)
Definition comma_list (value : string) : list string :=
  List.filter Str.nonempty (map py_strip (Str.split ","%char value)).

Definition _parse_prefix_list_value (value : string) : list string :=
  comma_list value.

(** The parsed value, or [None] where the Python returns [None]. *)
Definition _parse_env_value (w : World) (value : string) (config_key : string)
    : option obj :=
  if mem config_key int_keys then VInt <$> _parse_int_value value
  else if mem config_key path_keys then Some (VPath (expand_path w value))
  else if mem config_key bool_keys then Some (VBool (_parse_bool_value value))
  else if String.eqb config_key "time_format"
       then VTimeFormat <$> _parse_time_format_value value
  else if String.eqb config_key "display_mode"
       then VDisplayMode <$> _parse_display_mode_value value
  else if String.eqb config_key "project_name_prefixes"
       then Some (VList (VStr <$> _parse_prefix_list_value value))
  else Some (VStr value).

(** The loop shared by [_apply_env_overrides] and
    [_apply_nested_env_overrides]; a mapping is listed in source order. *)
Fixpoint _apply_env_overrides (w : World) (config_dict : obj)
    (env_mapping : list (string * string)) : result obj :=
  match env_mapping with
  | [] => Ok config_dict
  | (env_var, config_key) :: rest =>
      match getenv_nonempty w env_var with
      | Some value =>
          match _parse_env_value w value config_key with
          | Some parsed_value =>
              config_dict' ← setitem config_dict config_key parsed_value;
              _apply_env_overrides w config_dict' rest
          | None => _apply_env_overrides w config_dict rest
          end
      | None => _apply_env_overrides w config_dict rest
      end
  end.

Definition _apply_nested_env_overrides (w : World) (config_dict : obj)
    (section_name : string) (env_mapping : list (string * string))
    : result obj :=
  section_dict ← get_or_empty config_dict section_name;
  section_dict' ← _apply_env_overrides w section_dict env_mapping;
  if truthy section_dict'
  then setitem config_dict section_name section_dict'
  else Ok config_dict.

(** The list [CLAUDE_CONFIG_DIR] stands for. *)
Definition claude_dirs_paths (claude_dirs : string) : list path :=
  Path <$> comma_list claude_dirs.

Definition _apply_claude_config_dir_override (w : World) (config_dict : obj)
    : result obj :=
  match getenv_nonempty w "CLAUDE_CONFIG_DIR" with
  | Some claude_dirs =>
      setitem config_dict "projects_dirs"
        (VList (VPath <$> claude_dirs_paths claude_dirs))
  | None => Ok config_dict
  end.

(** An [int] field in pydantic's default (lax) mode: an integer, a
    boolean or a text that converts. *)
Definition val_int (v : obj) : option Z :=
  match v with
  | VInt n => Some n
  | VBool b => Some (if b then 1 else 0)
  | VStr s => pydantic_int s
  | _ => None
  end.

Definition DisplayConfig_validate (d : gmap string obj) : validation DisplayConfig :=
  vmap Build_DisplayConfig
       (fld val_bool true d "show_progress_bars")
   <*> fld val_bool false d "show_active_sessions"
   <*> fld val_bool true d "update_in_place"
   <*> fld val_int 1 d "refresh_interval"
   <*> fld val_time_format TWENTY_FOUR_HOUR d "time_format"
   <*> fld_list val_str (val_list val_str) ["-Users-"; "-home-"]%string d
         "project_name_prefixes"
   <*> fld val_bool true d "aggregate_by_project"
   <*> fld val_bool false d "show_tool_usage"
   <*> fld val_display_mode NORMAL d "display_mode"
   <*> fld val_bool false d "show_pricing"
   <*> fld val_theme DEFAULT d "theme".

Definition NotificationConfig_validate (d : gmap string obj)
    : validation NotificationConfig :=
  vmap Build_NotificationConfig
       (fld (val_optional val_str) None d "discord_webhook_url")
   <*> fld (val_optional val_str) None d "slack_webhook_url"
   <*> fld val_bool true d "notify_on_block_completion"
   <*> fld val_int 5 d "cooldown_minutes".

(** Validation of the keyword arguments of [Config(...)]: keys that name
    no field are never looked at (pydantic's default [extra="ignore"]). *)
Definition Config_validate (w : World) (d : gmap string obj) : validation Config :=
  vmap Build_Config
       (fld val_path (default_projects_dir w) d "projects_dir")
   <*> fld_list val_path (val_optional (val_list val_path)) None d "projects_dirs"
   <*> fld val_int 5 d "polling_interval"
   <*> fld val_str "America/Los_Angeles"%string d "timezone"
   <*> fld (val_optional val_int) None d "token_limit"
   <*> fld val_path (default_cache_dir w) d "cache_dir"
   <*> fld val_bool false d "disable_cache"
   <*> model_fld DisplayConfig_validate d "display"
   <*> model_fld NotificationConfig_validate d "notifications"
   <*> fld val_int 5 d "recent_activity_window_hours".

(** [Config] called with the entries of [config_dict] as keyword
    arguments: validation, then [model_post_init]. *)
Definition Config_new (w : World) (config_dict : obj) : result (Config * World) :=
  match config_dict with
  | VDict d =>
      match Config_validate w d with
      | Valid self => w' ← model_post_init w self; Ok (self, w')
      | Invalid errors => Raise (ValidationError errors)
      end
  | _ => Raise TypeError
  end.

(** The dictionary handed to [Config]: the file, then the overrides. *)
Definition merged_config (w : World) (config_file : option path)
    : result (obj * World) :=
  '(config_dict, w1) ← try_except (_load_config_file w config_file)
                          is_OSError (Ok (VDict ∅, w));
  config_dict ← _apply_claude_config_dir_override w1 config_dict;
  config_dict ← _apply_env_overrides w1 config_dict _get_top_level_env_mapping;
  config_dict ← _apply_nested_env_overrides w1 config_dict "display"
                  _get_display_env_mapping;
  config_dict ← _apply_nested_env_overrides w1 config_dict "notifications"
                  _get_notification_env_mapping;
  Ok (config_dict, w1).

Definition load_config (w : World) (config_file : option path)
    : result (Config * World) :=
  '(config_dict, w1) ← merged_config w config_file;
  Config_new w1 config_dict.

(** Conversion of an object to a field type: the validators above. *)
Definition validate_as (t : Field.type) (v : obj) : option typed :=
  match t with
  | Field.Int => TInt <$> val_int v
  | Field.OptInt => TOptInt <$> val_optional val_int v
  | Field.Bool => TBool <$> val_bool v
  | Field.Str => TStr <$> val_str v
  | Field.OptStr => TOptStr <$> val_optional val_str v
  | Field.PathT => TPath <$> val_path v
  | Field.OptPaths => TOptPaths <$> val_optional (val_list val_path) v
  | Field.Strs => TStrs <$> val_list val_str v
  | Field.TimeFormatT => TTimeFormat <$> val_time_format v
  | Field.DisplayModeT => TDisplayMode <$> val_display_mode v
  | Field.ThemeT => TTheme <$> val_theme v
  end.

(** The coercion of an override text for a field. *)
Definition coerce (w : World) (f : Field.t) (text : string) : option obj :=
  match f with
  | Field.projects_dirs => Some (VList (VPath <$> claude_dirs_paths text))
  | _ => _parse_env_value w text (Field.key f)
  end.

(** The environment layer of a field: its mapped variable is set to a
    non-empty text that coerces. *)
Definition env_override (w : World) (f : Field.t) : option obj :=
  var ← env_var_of f;
  text ← getenv_nonempty w var;
  coerce w f text.

(** What a table overrides a key with: the last applicable entry. *)
Fixpoint overrides (w : World) (env_mapping : list (string * string))
    (key : string) : option obj :=
  match env_mapping with
  | [] => None
  | (env_var, config_key) :: rest =>
      match overrides w rest key with
      | Some v => Some v
      | None =>
          if String.eqb config_key key
          then text ← getenv_nonempty w env_var; _parse_env_value w text config_key
          else None
      end
  end.

(** Where the fault lies below a field of type [t] bound to an object [v]
    outside that type: at the field itself, or, when [t] is a list type
    and [v] a list, at the index of every item outside the type of the
    items. *)
Definition fault (t : Field.type) (v : obj) (sub : loc) : Prop :=
  match Field.item_type t, v with
  | Some item_t, VList items =>
      ∃ i item, items !! i = Some item ∧ validate_as item_t item = None ∧
                sub = [Index i]
  | _, _ => sub = []
  end.

(** A merged mapping violates the schema at a location when it binds a
    field to an object outside the field's type and the location is that
    of the field followed by where the fault lies, or when it binds a
    section to something that is not a mapping and the location is the
    section's. *)
Definition violates (d : gmap string obj) (l : loc) : Prop :=
  (∃ f v sub, lookup_field d f = Some v ∧
              validate_as (Field.type_of f) v = None ∧
              fault (Field.type_of f) v sub ∧ l = Field.location f ++ sub)
  ∨ (∃ sec v, l = [Key sec] ∧ (sec = "display" ∨ sec = "notifications")%string ∧
              d !! sec = Some v ∧ is_dict v = false).

(** [save_default_config]: [Config()] is built, which creates the cache
    directory, and saved. *)
Definition save_default_config (w : World) (config_file : path) : result World :=
  '(default_config, w) ← Config_new w (VDict ∅);
  save_config w default_config config_file.

Definition update_config_token_limit (w : World) (config_file : path)
    (limit : Z) : result World :=
  present ← path_exists w config_file;
  if (present : bool)
  then '(config, w) ← load_config w (Some config_file);
       save_config w (set_token_limit config limit) config_file
  else Ok w.

(** An item of a comma-separated list as the parser returns it: not
    empty, unchanged by [strip], no comma inside. *)
Definition clean (s : string) : bool :=
  Str.nonempty s && String.eqb (py_strip s) s && negb (has_comma s).

End program.

(* ===================================================================== *)
(** * Validation, field by field *)
(* ===================================================================== *)

Section validation.

Context {runtime : Python}.

Section validation_facts.

Context {A B : Type}.

Lemma vmap_valid (g : A → B) (x : validation A) (b : B) :
  vmap g x = Valid b → ∃ a, x = Valid a ∧ b = g a.
Proof. destruct x; simpl; intros H; inversion H; eauto. Qed.

Lemma vap_valid (g : validation (A → B)) (x : validation A) (b : B) :
  g <*> x = Valid b → ∃ h a, g = Valid h ∧ x = Valid a ∧ b = h a.
Proof. destruct g, x; simpl; intros H; inversion H; eauto. Qed.

Lemma errors_vmap (g : A → B) (x : validation A) :
  errors_of (vmap g x) = errors_of x.
Proof. by destruct x. Qed.

Lemma errors_vap (g : validation (A → B)) (x : validation A) :
  errors_of (g <*> x) = errors_of g ++ errors_of x.
Proof. destruct g, x; simpl; by rewrite ?app_nil_r. Qed.

End validation_facts.

Lemma proper_vmap {A B} (g : A → B) x : proper x → proper (vmap g x).
Proof. by destruct x. Qed.

Lemma proper_vap {A B} (g : validation (A → B)) x :
  proper g → proper x → proper (g <*> x).
Proof.
  destruct g as [?|e1], x as [?|e2]; simpl; try done.
  intros H1 _ H. apply app_eq_nil in H as [? ?]. done.
Qed.

Lemma proper_under {A} key (x : validation A) : proper x → proper (under key x).
Proof. destruct x as [?|e]; simpl; [done|]. by destruct e. Qed.

Lemma proper_fld {A} (val : obj → option A) dflt d key :
  proper (fld val dflt d key).
Proof. unfold fld. destruct (d !! key) as [v|]; [|done]. by destruct (val v). Qed.

Lemma proper_valid {A} (x : validation A) :
  proper x → errors_of x = [] → ∃ a, x = Valid a.
Proof. destruct x; simpl; [eauto|congruence]. Qed.

Lemma fld_valid {A} (val : obj → option A) dflt d key a :
  fld val dflt d key = Valid a →
  match d !! key with Some v => val v = Some a | None => a = dflt end.
Proof.
  unfold fld. destruct (d !! key) as [v|].
  - destruct (val v); intros H; inversion H; done.
  - intros H; inversion H; done.
Qed.

Lemma errors_fld {A} (val : obj → option A) dflt d key :
  errors_of (fld val dflt d key) =
  match d !! key with
  | Some v => match val v with Some _ => [] | None => [[Key key]] end
  | None => []
  end.
Proof. unfold fld. destruct (d !! key) as [v|]; [|done]. by destruct (val v). Qed.

(** The rejected positions are those of the items that do not convert. *)
Lemma rejected_from_spec {A} (val : obj → option A) l : ∀ i j,
  j ∈ rejected_from val i l ↔
  ∃ k v, j = (i + k)%nat ∧ l !! k = Some v ∧ val v = None.
Proof.
  induction l as [|x l IH]; intros i j; simpl.
  - split; [by intros ?%elem_of_nil|]. by intros (k & v & _ & ? & _).
  - assert (Htail : j ∈ rejected_from val (S i) l ↔
                    ∃ k v, j = (i + S k)%nat ∧ l !! k = Some v ∧ val v = None).
    { rewrite IH. split; intros (k & v & -> & ? & ?); exists k, v;
        (split; [lia|done]). }
    destruct (val x) eqn:Hx.
    + rewrite Htail. split.
      * intros (k & v & -> & ? & ?). by exists (S k), v.
      * intros ([|k] & v & -> & Hk & Hv); simpl in Hk.
        -- congruence.
        -- by exists k, v.
    + rewrite elem_of_cons, Htail. split.
      * intros [->|(k & v & -> & ? & ?)].
        -- exists 0%nat, x. split; [lia|done].
        -- by exists (S k), v.
      * intros ([|k] & v & -> & Hk & Hv); simpl in Hk.
        -- left. lia.
        -- right. by exists k, v.
Qed.

Lemma rejected_spec {A} (val : obj → option A) l j :
  j ∈ rejected val l ↔ ∃ v, l !! j = Some v ∧ val v = None.
Proof.
  unfold rejected. rewrite rejected_from_spec. split.
  - intros (k & v & -> & ? & ?). by exists v.
  - intros (v & ? & ?). by exists j, v.
Qed.

Lemma mapM_None_rejected {A} (val : obj → option A) l :
  mapM val l = None → rejected val l ≠ [].
Proof.
  intros Hnone Hnil.
  assert (Hall : Forall (is_Some ∘ val) l).
  { apply Forall_lookup. intros j v Hj. simpl.
    destruct (val v) eqn:Hv; [by eexists|].
    assert (Hin : j ∈ rejected val l) by (apply rejected_spec; eauto).
    rewrite Hnil in Hin. by apply elem_of_nil in Hin. }
  apply mapM_is_Some in Hall as [? ?]. congruence.
Qed.

Lemma item_errors_list {A} (val : obj → option A) v :
  val_list val v = None → item_errors val v ≠ [].
Proof.
  destruct v; simpl; try done. intros Hnone Hnil.
  apply fmap_nil_inv in Hnil. by apply mapM_None_rejected in Hnone.
Qed.

Lemma item_errors_optional_list {A} (val : obj → option A) v :
  val_optional (val_list val) v = None → item_errors val v ≠ [].
Proof.
  destruct v; simpl; try done. intros Hnone.
  apply (item_errors_list val (VList l)). simpl.
  by destruct (mapM val l).
Qed.

Lemma proper_fld_list {A B} (val : obj → option A) (conv : obj → option B)
    dflt d key :
  (∀ v, conv v = None → item_errors val v ≠ []) →
  proper (fld_list val conv dflt d key).
Proof.
  intros Hconv. unfold fld_list. destruct (d !! key) as [v|]; [|done].
  destruct (conv v) eqn:Hv; [done|]. simpl.
  intros Hnil%fmap_nil_inv. by apply Hconv in Hv.
Qed.

Lemma fld_list_valid {A B} (val : obj → option A) (conv : obj → option B)
    dflt d key b :
  fld_list val conv dflt d key = Valid b →
  match d !! key with Some v => conv v = Some b | None => b = dflt end.
Proof.
  unfold fld_list. destruct (d !! key) as [v|].
  - destruct (conv v); intros H; inversion H; done.
  - intros H; inversion H; done.
Qed.

Lemma errors_fld_list {A B} (val : obj → option A) (conv : obj → option B)
    dflt d key :
  errors_of (fld_list val conv dflt d key) =
  match d !! key with
  | Some v =>
      match conv v with
      | Some _ => []
      | None => cons (Key key) <$> item_errors val v
      end
  | None => []
  end.
Proof. unfold fld_list. destruct (d !! key) as [v|]; [|done]. by destruct (conv v). Qed.

Lemma model_fld_valid {A} (validate : gmap string obj → validation A) d key a :
  model_fld validate d key = Valid a →
  ∃ sd, validate sd = Valid a ∧
        (d !! key = None ∧ sd = ∅ ∨ d !! key = Some (VDict sd)).
Proof.
  unfold model_fld. destruct (d !! key) as [v|] eqn:E.
  - destruct v; try discriminate. unfold under.
    destruct (validate d0) eqn:E'; intros H; inversion H; subst. eauto.
  - intros H. eauto.
Qed.

Lemma DisplayConfig_validate_empty :
  DisplayConfig_validate ∅ = Valid DisplayConfig_default.
Proof. reflexivity. Qed.

Lemma NotificationConfig_validate_empty :
  NotificationConfig_validate ∅ = Valid NotificationConfig_default.
Proof. reflexivity. Qed.

Lemma Config_validate_empty w : Config_validate w ∅ = Valid (Config_default w).
Proof. reflexivity. Qed.

End validation.

(** Taking a successful validation apart, one field after the other. *)
Ltac split_valid H :=
  repeat match type of H with
    | _ <*> _ = Valid _ =>
        let g := fresh "g" in let a := fresh "a" in
        let Ha := fresh "Hfld" in
        apply vap_valid in H as (g & a & H & Ha & ->)
    | vmap _ _ = Valid _ =>
        let a := fresh "a" in
        apply vmap_valid in H as (a & H & ->)
    end.

(** Using what a valid field says about the key it reads. *)
Ltac use_fld d :=
  repeat match goal with
    | Hf : fld _ _ d ?k = Valid _ |- context [d !! ?k] =>
        apply fld_valid in Hf; destruct (d !! k); simpl in *; subst
    | Hf : fld_list _ _ _ d ?k = Valid _ |- context [d !! ?k] =>
        apply fld_list_valid in Hf; destruct (d !! k); simpl in *; subst
    end.

Ltac close_field :=
  try match goal with Hf : _ = Some _ |- _ => rewrite Hf end; try reflexivity.

Section validation_2.

Context {runtime : Python}.

Lemma DisplayConfig_field w sd x c f :
  DisplayConfig_validate sd = Valid x →
  display c = x →
  Field.section f = Some "display"%string →
  match sd !! Field.key f with
  | Some v => validate_as (Field.type_of f) v = Some (field_value c f)
  | None => field_value c f = schema_default w f
  end.
Proof.
  intros H Ex Hs.
  unfold DisplayConfig_validate in H. split_valid H.
  destruct f; try discriminate; simpl; rewrite Ex; simpl; use_fld sd; close_field.
Qed.

Lemma NotificationConfig_field w sd x c f :
  NotificationConfig_validate sd = Valid x →
  notifications c = x →
  Field.section f = Some "notifications"%string →
  match sd !! Field.key f with
  | Some v => validate_as (Field.type_of f) v = Some (field_value c f)
  | None => field_value c f = schema_default w f
  end.
Proof.
  intros H Ex Hs.
  unfold NotificationConfig_validate in H. split_valid H.
  destruct f; try discriminate; simpl; rewrite Ex; simpl; use_fld sd; close_field.
Qed.

(** Every field of a validated configuration is the conversion of what
    the dictionary binds it to, or its default when the dictionary binds
    nothing. *)
Lemma Config_field w d c f :
  Config_validate w d = Valid c →
  match lookup_field d f with
  | Some v => validate_as (Field.type_of f) v = Some (field_value c f)
  | None => field_value c f = schema_default w f
  end.
Proof.
  intros H. unfold Config_validate in H. split_valid H.
  match goal with
  | Hm : model_fld DisplayConfig_validate _ _ = _ |- _ =>
      apply model_fld_valid in Hm as (sd & Hd & Hsd)
  end.
  match goal with
  | Hm : model_fld NotificationConfig_validate _ _ = _ |- _ =>
      apply model_fld_valid in Hm as (nd & Hn & Hnd)
  end.
  destruct (Field.section f) as [sec|] eqn:Hsec.
  - unfold lookup_field. rewrite Hsec.
    destruct f; try discriminate; simpl in Hsec; inversion Hsec; subst sec.
    all: match goal with |- context [field_value ?c ?f] =>
           first
             [ pose proof (DisplayConfig_field w sd _ c f Hd eq_refl eq_refl) as Hfield;
               destruct Hsd as [[-> ->]| ->];
               [rewrite lookup_empty in Hfield; exact Hfield | exact Hfield]
             | pose proof (NotificationConfig_field w nd _ c f Hn eq_refl eq_refl) as Hfield;
               destruct Hnd as [[-> ->]| ->];
               [rewrite lookup_empty in Hfield; exact Hfield | exact Hfield] ]
         end.
  - unfold lookup_field. rewrite Hsec.
    destruct f; try discriminate; simpl; use_fld d; close_field.
Qed.

End validation_2.

(* ===================================================================== *)
(** * Overrides, entry by entry *)
(* ===================================================================== *)

Section overrides.

Context {runtime : Python}.

Lemma bind_ok {A B} (m : result A) (k : A → result B) b :
  m ≫= k = Ok b → ∃ a, m = Ok a ∧ k a = Ok b.
Proof. destruct m; simpl; [eauto|discriminate]. Qed.

Lemma apply_env_overrides_dict w mapping : ∀ d,
  ∃ d', _apply_env_overrides w (VDict d) mapping = Ok (VDict d') ∧
        ∀ k, d' !! k = match overrides w mapping k with
                       | Some v => Some v
                       | None => d !! k
                       end.
Proof.
  induction mapping as [|[env_var config_key] rest IH]; intros d; simpl.
  - eauto.
  - destruct (getenv_nonempty w env_var) as [text|]; simpl.
    + destruct (_parse_env_value w text config_key) as [v|]; simpl.
      * destruct (IH (<[config_key := v]> d)) as (d' & -> & Hd').
        eexists; split; [done|]. intros k. rewrite Hd'.
        destruct (overrides w rest k); [done|].
        destruct (String.eqb_spec config_key k) as [->|Hne].
        -- by rewrite lookup_insert_eq.
        -- by rewrite lookup_insert_ne.
      * destruct (IH d) as (d' & -> & Hd').
        eexists; split; [done|]. intros k. rewrite Hd'.
        destruct (overrides w rest k); [done|]. by destruct (String.eqb config_key k).
    + destruct (IH d) as (d' & -> & Hd').
      eexists; split; [done|]. intros k. rewrite Hd'.
      destruct (overrides w rest k); [done|]. by destruct (String.eqb config_key k).
Qed.

Lemma apply_env_overrides_other w mapping : ∀ o o',
  is_dict o = false →
  _apply_env_overrides w o mapping = Ok o' →
  o' = o ∧ ∀ k, overrides w mapping k = None.
Proof.
  induction mapping as [|[env_var config_key] rest IH]; intros o o' Ho; simpl.
  - intros [= ->]. done.
  - destruct (getenv_nonempty w env_var) as [text|]; simpl.
    + destruct (_parse_env_value w text config_key) as [v|]; simpl.
      * destruct o; try discriminate; simpl; discriminate.
      * intros H. destruct (IH _ _ Ho H) as [-> Hk]. split; [done|].
        intros k. rewrite Hk. by destruct (String.eqb config_key k).
    + intros H. destruct (IH _ _ Ho H) as [-> Hk]. split; [done|].
      intros k. rewrite Hk. by destruct (String.eqb config_key k).
Qed.

Lemma overrides_env_override w f :
  f ≠ Field.projects_dirs →
  overrides w (env_table (Field.section f)) (Field.key f) = env_override w f.
Proof.
  intros Hf. unfold env_override.
  destruct f; try done; cbn -[getenv_nonempty _parse_env_value];
    match goal with |- _ = ?rhs => destruct rhs; reflexivity end.
Qed.

Lemma overrides_top_other w k :
  k = "projects_dirs"%string ∨ k = "display"%string ∨ k = "notifications"%string →
  overrides w _get_top_level_env_mapping k = None.
Proof. intros [->|[->| ->]]; reflexivity. Qed.

Lemma apply_nested_dict w d sec mapping o' :
  _apply_nested_env_overrides w (VDict d) sec mapping = Ok o' →
  ∃ d', o' = VDict d' ∧
        (∀ k, k ≠ sec → d' !! k = d !! k) ∧
        match section_dict d sec with
        | Some sd =>
            ∃ sd', section_dict d' sec = Some sd' ∧
                   ∀ k, sd' !! k = match overrides w mapping k with
                                   | Some v => Some v
                                   | None => sd !! k
                                   end
        | None => section_dict d' sec = None ∧ ∀ k, overrides w mapping k = None
        end.
Proof.
  unfold _apply_nested_env_overrides, section_dict. simpl.
  destruct (d !! sec) as [v|] eqn:Hsec; simpl.
  - destruct (is_dict v) eqn:Hv.
    + destruct v; try discriminate.
      destruct (apply_env_overrides_dict w mapping d0) as (sd' & -> & Hsd'). simpl.
      case_bool_decide as Hempty; simpl.
      * intros [= <-]. eexists; split; [done|]. split; [done|].
        rewrite Hsec. exists d0. split; [done|]. intros k.
        specialize (Hsd' k). rewrite Hempty, lookup_empty in Hsd'.
        destruct (overrides w mapping k); [discriminate Hsd' | done].
      * intros [= <-]. eexists; split; [done|]. split.
        { intros k Hk. by rewrite lookup_insert_ne. }
        rewrite lookup_insert_eq. eauto.
    + destruct (_apply_env_overrides w v mapping) as [v'|] eqn:Happ; simpl; [|done].
      apply apply_env_overrides_other in Happ as [-> Hnone]; [|done].
      destruct (truthy v); simpl; intros [= <-].
      * eexists; split; [done|]. split.
        { intros k Hk. by rewrite lookup_insert_ne. }
        rewrite lookup_insert_eq. by destruct v.
      * eexists; split; [done|]. split; [done|]. rewrite Hsec. by destruct v.
  - destruct (apply_env_overrides_dict w mapping ∅) as (sd' & -> & Hsd'). simpl.
    case_bool_decide as Hempty; simpl.
    + intros [= <-]. eexists; split; [done|]. split; [done|].
      rewrite Hsec. exists ∅. split; [done|]. intros k.
      rewrite <- Hsd'. by rewrite Hempty.
    + intros [= <-]. eexists; split; [done|]. split.
      { intros k Hk. by rewrite lookup_insert_ne. }
      rewrite lookup_insert_eq. eauto.
Qed.

Lemma apply_nested_other w o sec mapping o' :
  is_dict o = false →
  _apply_nested_env_overrides w o sec mapping = Ok o' → False.
Proof. by destruct o. Qed.

Lemma lookup_field_section d f :
  lookup_field d f =
  match Field.section f with
  | None => d !! Field.key f
  | Some sec => sd ← section_dict d sec; sd !! Field.key f
  end.
Proof.
  unfold lookup_field, section_dict. destruct (Field.section f) as [sec|]; [|done].
  destruct (d !! sec) as [v|]; [by destruct v|done].
Qed.

(** The dictionary handed to validation binds every field to its
    override when there is one, and to what the file binds it to
    otherwise. *)
Lemma merged_config_field w1 o o' :
  (c1 ← _apply_claude_config_dir_override w1 o;
   c2 ← _apply_env_overrides w1 c1 _get_top_level_env_mapping;
   c3 ← _apply_nested_env_overrides w1 c2 "display" _get_display_env_mapping;
   _apply_nested_env_overrides w1 c3 "notifications" _get_notification_env_mapping)
  = Ok o' →
  ∃ d0 d, o = VDict d0 ∧ o' = VDict d ∧
    ∀ f, lookup_field d f = match env_override w1 f with
                            | Some v => Some v
                            | None => lookup_field d0 f
                            end.
Proof.
  intros H.
  apply bind_ok in H as (c1 & H1 & H).
  apply bind_ok in H as (c2 & H2 & H).
  apply bind_ok in H as (c3 & H3 & H).
  destruct (is_dict o) eqn:Ho.
  2:{ exfalso. unfold _apply_claude_config_dir_override in H1.
      assert (c1 = o) as ->.
      { destruct (getenv_nonempty w1 "CLAUDE_CONFIG_DIR").
        - destruct o; discriminate.
        - by inversion H1. }
      apply apply_env_overrides_other in H2 as [-> _]; [|done].
      by apply apply_nested_other in H3. }
  destruct o as [| | | | | | | |d0]; try discriminate. clear Ho.
  assert (∃ d1, c1 = VDict d1 ∧
                (∀ k, k ≠ "projects_dirs"%string → d1 !! k = d0 !! k) ∧
                d1 !! "projects_dirs"%string =
                  match env_override w1 Field.projects_dirs with
                  | Some v => Some v
                  | None => d0 !! "projects_dirs"%string
                  end) as (d1 & -> & Hd1 & Hpd).
  { unfold _apply_claude_config_dir_override in H1. unfold env_override.
    cbn [env_var_of mbind option_bind coerce].
    destruct (getenv_nonempty w1 "CLAUDE_CONFIG_DIR") as [text|];
      inversion H1; subst; clear H1.
    - eexists; split; [done|]. split.
      + intros k Hk. by rewrite lookup_insert_ne.
      + by rewrite lookup_insert_eq.
    - eauto. }
  destruct (apply_env_overrides_dict w1 _get_top_level_env_mapping d1)
    as (d2 & Hd2eq & Hd2).
  rewrite Hd2eq in H2. inversion H2; subst c2; clear H2.
  apply apply_nested_dict in H3 as (d3 & -> & Hd3 & Hdisp).
  apply apply_nested_dict in H as (d4 & -> & Hd4 & Hnot).
  exists d0, d4. split; [done|]. split; [done|].
  assert (Hs2 : ∀ sec, sec = "display"%string ∨ sec = "notifications"%string →
                       section_dict d2 sec = section_dict d0 sec).
  { intros sec Hsec. unfold section_dict. rewrite Hd2.
    rewrite overrides_top_other by tauto.
    rewrite Hd1; [done|]. by destruct Hsec as [-> | ->]. }
  intros f. rewrite !lookup_field_section.
  destruct (Field.section f) as [sec|] eqn:Hsec.
  - assert (f ≠ Field.projects_dirs) as Hf by (by intros ->).
    rewrite <- (overrides_env_override w1 f Hf), Hsec.
    destruct f; try discriminate; simpl in Hsec; inversion Hsec; subst sec; simpl env_table.
    all: first
      [ (* display *)
        replace (section_dict d4 "display") with (section_dict d3 "display")
          by (unfold section_dict; by rewrite Hd4);
        rewrite (Hs2 "display"%string) in Hdisp by tauto;
        destruct (section_dict d0 "display") as [sd|];
        [ destruct Hdisp as (sd' & -> & Hsd'); cbn [mbind option_bind]; apply Hsd'
        | destruct Hdisp as [-> Hnone]; cbn [mbind option_bind]; by rewrite Hnone ]
      | (* notifications *)
        assert (section_dict d3 "notifications" = section_dict d0 "notifications") as Hs3
          by (rewrite <- (Hs2 "notifications"%string) by tauto;
              unfold section_dict; by rewrite Hd3);
        rewrite Hs3 in Hnot;
        destruct (section_dict d0 "notifications") as [sd|];
        [ destruct Hnot as (sd' & -> & Hsd'); cbn [mbind option_bind]; apply Hsd'
        | destruct Hnot as [-> Hnone]; cbn [mbind option_bind]; by rewrite Hnone ] ].
  - assert (Hk : Field.key f ≠ "display"%string ∧ Field.key f ≠ "notifications"%string)
      by (by destruct f).
    rewrite Hd4, Hd3 by tauto.
    destruct (decide (f = Field.projects_dirs)) as [-> | Hf].
    + simpl Field.key. rewrite Hd2, overrides_top_other by tauto. exact Hpd.
    + rewrite <- (overrides_env_override w1 f Hf), Hsec. simpl env_table.
      rewrite Hd2. destruct (overrides w1 _ _); [done|].
      apply Hd1. by destruct f.
Qed.

End overrides.

(* ===================================================================== *)
(** * The world seen by the loader, and layered precedence *)
(* ===================================================================== *)

Section precedence.

Context {runtime : Python}.

Lemma set_fs_same w : set_fs w (fs w) = w.
Proof. by destruct w. Qed.

Lemma same_process_refl w : same_process w w.
Proof. exists (fs w). by rewrite set_fs_same. Qed.

Lemma same_process_trans w1 w2 w3 :
  same_process w1 w2 → same_process w2 w3 → same_process w1 w3.
Proof. intros [f ->] [g ->]. by exists g. Qed.

Lemma migrate_legacy_config_world w p :
  same_process w (migrate_legacy_config w p).2.
Proof.
  unfold migrate_legacy_config.
  destruct (fs w !! str_of p) as [[| |c]|]; simpl; try apply same_process_refl.
  destruct (fs w !! str_of (config_file_path w)); simpl;
    [apply same_process_refl | by eexists].
Qed.

Lemma migrate_first_world legacy : ∀ w cf,
  same_process w (migrate_first w cf legacy).2.
Proof.
  induction legacy as [|p rest IH]; intros w cf; simpl.
  - apply same_process_refl.
  - pose proof (migrate_legacy_config_world w p) as Hm.
    destruct (migrate_legacy_config w p) as [[|] w']; simpl in *; [done|].
    eapply same_process_trans; [exact Hm | apply IH].
Qed.

Lemma locate_config_file_total w cf :
  ∃ p w1, locate_config_file w cf = Ok (p, w1) ∧ same_process w w1.
Proof.
  unfold locate_config_file, path_exists.
  set (p := default (config_file_path w) cf).
  destruct (fs w !! str_of p) as [[| |c]|]; simpl;
    try (do 2 eexists; split; [reflexivity | apply same_process_refl]).
  pose proof (migrate_first_world (legacy_config_paths w) w p) as Hm.
  destruct (migrate_first w p (legacy_config_paths w)) as [p' w']; simpl in *.
  eauto.
Qed.

Lemma load_config_file_world w cf file w1 :
  _load_config_file w cf = Ok (file, w1) → same_process w w1.
Proof.
  unfold _load_config_file.
  destruct (locate_config_file_total w cf) as (p & w' & -> & Hw). simpl.
  destruct (read_config_file w' p); simpl; [|done]. by intros [= _ <-].
Qed.

Lemma env_override_same_process w w' f :
  same_process w w' → env_override w' f = env_override w f.
Proof. by intros [g ->]. Qed.

Lemma schema_default_same_process w w' f :
  same_process w w' → schema_default w' f = schema_default w f.
Proof. by intros [g ->]. Qed.

Lemma load_config_inv w cf cfg w2 :
  load_config w cf = Ok (cfg, w2) →
  ∃ d w1, merged_config w cf = Ok (VDict d, w1) ∧
          Config_validate w1 d = Valid cfg ∧
          model_post_init w1 cfg = Ok w2.
Proof.
  unfold load_config. intros H.
  apply bind_ok in H as ([o w1] & Hm & H). unfold Config_new in H.
  destruct o; try discriminate.
  destruct (Config_validate w1 d) as [c|] eqn:Hv; [|discriminate].
  apply bind_ok in H as (w' & Hp & H). inversion H; subst. eauto.
Qed.

Lemma merged_config_inv w cf file w1 o w1' :
  _load_config_file w cf = Ok (file, w1) →
  merged_config w cf = Ok (o, w1') →
  w1' = w1 ∧ ∃ d0 d, file = VDict d0 ∧ o = VDict d ∧
    ∀ f, lookup_field d f = match env_override w f with
                            | Some v => Some v
                            | None => lookup_field d0 f
                            end.
Proof.
  intros Hfile H. unfold merged_config in H. rewrite Hfile in H.
  cbn [try_except mbind result_bind] in H.
  apply bind_ok in H as (c1 & H1 & H).
  apply bind_ok in H as (c2 & H2 & H).
  apply bind_ok in H as (c3 & H3 & H).
  apply bind_ok in H as (c4 & H4 & H).
  inversion H; subst; clear H. split; [done|].
  destruct (merged_config_field w1' file o) as (d0 & d & -> & -> & Hf).
  { rewrite H1. cbn [mbind result_bind]. rewrite H2. cbn [mbind result_bind].
    rewrite H3. cbn [mbind result_bind]. exact H4. }
  exists d0, d. split; [done|]. split; [done|].
  intros f. rewrite Hf.
  by rewrite (env_override_same_process w w1' f (load_config_file_world _ _ _ _ Hfile)).
Qed.

(** Layered precedence, for one field: the override when the mapped
    variable is set, not empty and coerces; else the file's value; else the
    default.  The chosen object reaches the configuration through the
    field's validator. *)
Lemma resolved_field w cf file w1 cfg w2 f :
  _load_config_file w cf = Ok (file, w1) →
  load_config w cf = Ok (cfg, w2) →
  match env_override w f with
  | Some v => validate_as (Field.type_of f) v = Some (field_value cfg f)
  | None =>
      match file_value file f with
      | Some v => validate_as (Field.type_of f) v = Some (field_value cfg f)
      | None => field_value cfg f = schema_default w f
      end
  end.
Proof.
  intros Hfile Hload.
  apply load_config_inv in Hload as (d & w1' & Hm & Hv & _).
  destruct (merged_config_inv _ _ _ _ _ _ Hfile Hm) as (-> & d0 & d' & -> & [= <-] & Hf).
  pose proof (Config_field w1 d cfg f Hv) as Hc. rewrite Hf in Hc.
  rewrite (schema_default_same_process w w1 f (load_config_file_world _ _ _ _ Hfile)) in Hc.
  simpl file_value. by destruct (env_override w f).
Qed.

End precedence.

(* ===================================================================== *)
(** * Strings: case folding and integer literals *)
(* ===================================================================== *)

Section strings.

Context {runtime : Python}.

Lemma eq_ignore_case_lower s : ∀ t,
  Str.eq_ignore_case s t = String.eqb (Str.lower s) (Str.lower t).
Proof.
  induction s as [|a s IH]; intros [|b t]; simpl; try reflexivity.
  rewrite IH. by destruct (Ascii.eqb (Str.lower_char a) (Str.lower_char b)).
Qed.

Lemma mem_true key l : mem key l = true ↔ key ∈ l.
Proof.
  unfold mem. rewrite existsb_exists. split.
  - intros (x & Hin & Heq). apply String.eqb_eq in Heq as ->.
    by apply list_elem_of_In.
  - intros Hin. exists key. split; [by apply list_elem_of_In | apply String.eqb_refl].
Qed.

Lemma split_chars_cons sep l : ∃ g gs, Str.split_chars sep l = g :: gs.
Proof.
  induction l as [|c l (g & gs & IH)]; simpl; [eauto|].
  destruct (Ascii.eqb c sep); [eauto|]. rewrite IH. eauto.
Qed.

Lemma digit_not_underscore c : Str.is_digit c = true → Ascii.eqb c "_" = false.
Proof.
  intros H. destruct (Ascii.eqb_spec c "_"%char) as [->|]; [|done].
  discriminate H.
Qed.

(** The accumulator loop accepts exactly the texts whose pieces between
    underscores are digit runs, the first of which may be empty when a
    digit has just been read. *)
Lemma digits_accepts l : ∀ acc prev,
  is_Some (PyInt.digits acc prev l) ↔
  match Str.split_chars "_" l with
  | g :: gs =>
      (if prev then forallb Str.is_digit g else PyInt.digit_run g)
      && forallb PyInt.digit_run gs = true
  | [] => False
  end.
Proof.
  induction l as [|c l IH]; intros acc prev; simpl.
  - destruct prev; simpl; split; try done.
  - destruct (Str.is_digit c) eqn:Hd.
    + rewrite (digit_not_underscore c Hd). rewrite IH.
      destruct (split_chars_cons "_" l) as (g & gs & ->). simpl. rewrite Hd.
      by destruct prev.
    + destruct (Ascii.eqb c "_") eqn:Hu.
      * destruct prev; simpl.
        -- rewrite IH. destruct (split_chars_cons "_" l) as (g & gs & ->). done.
        -- split; [by intros [] | done].
      * destruct (split_chars_cons "_" l) as (g & gs & ->). simpl. rewrite Hd.
        destruct prev; simpl; split; try done; by intros [].
Qed.

Lemma digits_literal l acc :
  is_Some (PyInt.digits acc false l) ↔ PyInt.unsigned_literal l = true.
Proof.
  rewrite digits_accepts. unfold PyInt.unsigned_literal.
  by destruct (split_chars_cons "_" l) as (g & gs & ->).
Qed.

(** [int] fails exactly on the texts that are not integer literals. *)
Lemma int_None_iff s : PyInt.int s = None ↔ PyInt.numeric s = false.
Proof.
  unfold PyInt.int, PyInt.numeric, PyInt.signed.
  destruct (PyInt.trim (list_ascii_of_string s)) as [|c l]; [done|].
  destruct (Ascii.eqb c "-") eqn:Hm; cbn [orb].
  - by rewrite fmap_None, eq_None_not_Some, digits_literal, not_true_iff_false.
  - destruct (Ascii.eqb c "+") eqn:Hp; cbn [orb].
    + by rewrite eq_None_not_Some, digits_literal, not_true_iff_false.
    + by rewrite eq_None_not_Some, digits_literal, not_true_iff_false.
Qed.

End strings.

(** A text with a character that is no digit, sign, underscore or white
    space is not a literal. *)
Example int_rejects_words :
  PyInt.int "abc" = None ∧ PyInt.int "12a" = None ∧ PyInt.int "1.5" = None ∧
  PyInt.int "" = None ∧ PyInt.int "1__0" = None ∧
  PyInt.int " 1_000 " = Some 1000 ∧ PyInt.int "-7" = Some (-7).
Proof. repeat split; reflexivity. Qed.

(* ===================================================================== *)
(** * The file loader: the failures it absorbs and the one it does not *)
(* ===================================================================== *)

Section loading_and_precedence.

Context {runtime : Python}.

Lemma read_config_file_failure w p :
  read_failure w p → read_config_file w p = Ok (VDict ∅).
Proof.
  unfold read_config_file, path_exists, read_yaml.
  by intros [H|H|H|H|H|H]; rewrite H.
Qed.

(** The exceptions the loader lets through: the [ValueError] of a
    document the YAML loader cannot build, and the [TypeError] of a
    document that is not a mapping. *)
Lemma read_config_file_raises w p e :
  read_config_file w p = Raise e → e = TypeError ∨ e = ValueError.
Proof.
  unfold read_config_file, path_exists, read_yaml.
  destruct (fs w !! str_of p) as [[| |[| | | |v]]|]; simpl; try discriminate;
    [intros [= <-]; by right|].
  intros Hraise. left. revert Hraise.
  set (o := if truthy v then v else VDict ∅).
  unfold _expand_paths_in_config.
  destruct (expand_field w "projects_dir" o) as [o1|e1] eqn:H1; simpl.
  - destruct (expand_field w "cache_dir" o1) as [o2|e2] eqn:H2; simpl; [done|].
    assert (e2 = TypeError) as ->; [|by intros [= <-]].
    unfold expand_field in H2.
    repeat case_match; simplify_eq; done.
  - assert (e1 = TypeError) as ->; [|by intros [= <-]].
    unfold expand_field in H1.
    repeat case_match; simplify_eq; done.
Qed.

Lemma load_config_file_raises w cf e :
  _load_config_file w cf = Raise e → e = TypeError ∨ e = ValueError.
Proof.
  unfold _load_config_file.
  destruct (locate_config_file_total w cf) as (p & w1 & -> & _). simpl.
  destruct (read_config_file w1 p) eqn:Hr; simpl; [done|].
  intros [= <-]. by eapply read_config_file_raises.
Qed.

Lemma load_config_loaded w cf cfg w2 :
  load_config w cf = Ok (cfg, w2) →
  ∃ file w1, _load_config_file w cf = Ok (file, w1).
Proof.
  intros H. destruct (_load_config_file w cf) as [[file w1]|e] eqn:Hf; [eauto|].
  unfold load_config, merged_config in H. rewrite Hf in H.
  by apply load_config_file_raises in Hf as [-> | ->].
Qed.

(** When the file is absent, the existence check or the read meets a
    permission or I/O error, the bytes do not decode, or the text is not
    YAML, the file-loading step returns the empty mapping; resolution then
    rests on the environment overrides and the schema defaults alone. *)
Lemma absorbed_read_failures w cf p w1 :
  locate_config_file w cf = Ok (p, w1) →
  read_failure w1 p →
  _load_config_file w cf = Ok (VDict ∅, w1) ∧
  ∀ cfg w2 f,
    load_config w cf = Ok (cfg, w2) →
    match env_override w f with
    | Some v => validate_as (Field.type_of f) v = Some (field_value cfg f)
    | None => field_value cfg f = schema_default w f
    end.
Proof.
  intros Hloc Hfail.
  assert (Hfile : _load_config_file w cf = Ok (VDict ∅, w1)).
  { unfold _load_config_file. rewrite Hloc. simpl.
    by rewrite (read_config_file_failure _ _ Hfail). }
  split; [done|]. intros cfg w2 f Hload.
  pose proof (resolved_field _ _ _ _ _ _ f Hfile Hload) as Hf.
  destruct (env_override w f); [done|].
  replace (file_value (VDict ∅) f) with (@None obj) in Hf; [done|].
  unfold file_value, lookup_field.
  destruct (Field.section f); by rewrite lookup_empty.
Qed.

End loading_and_precedence.

Example load_malformed_file :
  ∀ w, w = Sample.malformed_world → _load_config_file w None = Ok (VDict ∅, w).
Proof. intros w ->. vm_compute. reflexivity. Qed.

(** The loader also absorbs the other failures, one example each. *)
Example load_absent_file :
  ∀ w, w = Sample.world ∅ ∅ → _load_config_file w None = Ok (VDict ∅, w).
Proof. intros w ->. vm_compute. reflexivity. Qed.

Example load_undecodable_file :
  ∀ w, w = Sample.world ∅ (Sample.only Undecodable) →
       _load_config_file w None = Ok (VDict ∅, w).
Proof. intros w ->. vm_compute. reflexivity. Qed.

Example load_permission_denied :
  ∀ w, w = Sample.world ∅ {[ str_of Sample.config_file := Denied ]} →
       _load_config_file w None = Ok (VDict ∅, w).
Proof. intros w ->. vm_compute. reflexivity. Qed.

Section loading_and_precedence_2.

Context {runtime : Python}.

(** C2 (refuted by the code): a configuration file that is well-formed
    YAML but holds a scalar the YAML loader fails to build, such as the
    date [2001-13-45], makes [yaml.safe_load] raise [ValueError], which
    neither [except] clause of [_load_config_file] handles: at such a file
    the file-loading step does not return the empty mapping but raises,
    and so does the whole resolution. *)
Theorem C2_value_error_escapes w cf p w1 :
  locate_config_file w cf = Ok (p, w1) →
  fs w1 !! str_of p = Some (RegularFile Unconstructible) →
  _load_config_file w cf = Raise ValueError ∧
  load_config w cf = Raise ValueError.
Proof.
  intros Hloc Hfile.
  assert (Hraise : _load_config_file w cf = Raise ValueError).
  { unfold _load_config_file. rewrite Hloc. simpl.
    unfold read_config_file, path_exists, read_yaml. by rewrite Hfile. }
  split; [done|].
  unfold load_config, merged_config. by rewrite Hraise.
Qed.

End loading_and_precedence_2.

Lemma C2_value_error_escapes_witness :
  _load_config_file (Sample.world ∅ (Sample.only Unconstructible)) None
  = Raise ValueError ∧
  load_config (Sample.world ∅ (Sample.only Unconstructible)) None
  = Raise ValueError.
Proof.
  apply (C2_value_error_escapes _ None Sample.config_file
           (Sample.world ∅ (Sample.only Unconstructible))); reflexivity.
Defined.

(* ===================================================================== *)
(** * Precedence, field by field *)
(* ===================================================================== *)

Section loading_and_precedence_3.

Context {runtime : Python}.

(** C1: for every field, the resolved value follows strict precedence: the
    coerced override when the mapped variable is set to a non-empty text
    that coerces; otherwise the file's value when the parsed file mapping
    has the key; otherwise the schema default. *)
Theorem C1_layered_precedence w cf file w1 cfg w2 f :
  _load_config_file w cf = Ok (file, w1) →
  load_config w cf = Ok (cfg, w2) →
  (∀ v, env_override w f = Some v →
        validate_as (Field.type_of f) v = Some (field_value cfg f)) ∧
  (∀ v, env_override w f = None → file_value file f = Some v →
        validate_as (Field.type_of f) v = Some (field_value cfg f)) ∧
  (env_override w f = None → file_value file f = None →
   field_value cfg f = schema_default w f).
Proof.
  intros Hfile Hload.
  pose proof (resolved_field _ _ _ _ _ _ f Hfile Hload) as Hf.
  repeat split.
  - intros v Hv. by rewrite Hv in Hf.
  - intros v He Hv. by rewrite He, Hv in Hf.
  - intros He Hv. by rewrite He, Hv in Hf.
Qed.

End loading_and_precedence_3.

Lemma C1_layered_precedence_witness :
  ∃ cfg w2,
    _load_config_file Sample.polling_world None
    = Ok (VDict {[ "polling_interval" := VInt 10 ]}, Sample.polling_world) ∧
    load_config Sample.polling_world None = Ok (cfg, w2) ∧
    polling_interval cfg = 20 ∧
    timezone cfg = "America/Los_Angeles".
Proof.
  set (w := Sample.polling_world).
  assert (Hfile : _load_config_file w None
                  = Ok (VDict {[ "polling_interval" := VInt 10 ]}, w))
    by (vm_compute; reflexivity).
  destruct (load_config w None) as [[cfg w2]|e] eqn:Hload;
    [|vm_compute in Hload; discriminate Hload].
  exists cfg, w2. split; [exact Hfile|]. split; [reflexivity|].
  split.
  - destruct (C1_layered_precedence w None _ _ _ _ Field.polling_interval
                Hfile Hload) as (Henv & _ & _).
    specialize (Henv (VInt 20) ltac:(vm_compute; reflexivity)).
    by inversion Henv.
  - destruct (C1_layered_precedence w None _ _ _ _ Field.timezone
                Hfile Hload) as (_ & _ & Hdef).
    specialize (Hdef ltac:(vm_compute; reflexivity) ltac:(vm_compute; reflexivity)).
    by inversion Hdef.
Defined.

(** The three cases of the polling interval: override, file, default. *)
Example polling_interval_env_wins :
  polling_interval <$>
    config_of (load_config
                 (Sample.world {[ "PAR_CC_USAGE_POLLING_INTERVAL" := "20" ]}
                    (Sample.yaml {[ "polling_interval" := VInt 10 ]})) None)
  = Some 20.
Proof. vm_compute. reflexivity. Qed.

Example polling_interval_file_wins :
  polling_interval <$>
    config_of (load_config
                 (Sample.world ∅ (Sample.yaml {[ "polling_interval" := VInt 10 ]}))
                 None)
  = Some 10.
Proof. vm_compute. reflexivity. Qed.

Example all_defaults_without_file_and_overrides :
  config_of (load_config (Sample.world ∅ ∅) None)
  = Some (Config_default (Sample.world ∅ ∅)).
Proof. vm_compute. reflexivity. Qed.

(* ===================================================================== *)
(** * The directory list override *)
(* ===================================================================== *)

Section coercion.

Context {runtime : Python}.

Lemma mapM_val_path l : mapM val_path (VPath <$> l) = Some l.
Proof. by apply mapM_fmap_Some. Qed.

Lemma mapM_val_path_str l : mapM val_path ((λ q, VStr (str_of q)) <$> l) = Some l.
Proof. apply mapM_fmap_Some. by intros [s]. Qed.

Lemma mapM_val_str l : mapM val_str (VStr <$> l) = Some l.
Proof. by apply mapM_fmap_Some. Qed.

Lemma getenv_nonempty_Some w var text :
  getenv w var = Some text → text ≠ ""%string → getenv_nonempty w var = Some text.
Proof. unfold getenv_nonempty. intros -> H. by destruct text. Qed.

(** C4: when [CLAUDE_CONFIG_DIR] is set to a non-empty text, the resolved
    [projects_dirs] is that text split on commas, every segment trimmed by
    [strip], the segments that are then empty dropped, whatever the file
    says about [projects_dirs] and whatever the override of the singular
    [projects_dir] is; the dictionary handed to validation already binds
    [projects_dirs] to that list. *)
Theorem C4_claude_config_dir_override w cf text :
  getenv w "CLAUDE_CONFIG_DIR" = Some text →
  text ≠ ""%string →
  (∀ cfg w2,
     load_config w cf = Ok (cfg, w2) →
     projects_dirs cfg
     = Some (Path <$> List.filter Str.nonempty (py_strip <$> Str.split "," text))) ∧
  (∀ o w1,
     merged_config w cf = Ok (o, w1) →
     ∃ d, o = VDict d ∧
          d !! "projects_dirs"%string
          = Some (VList (VPath <$> (Path <$> List.filter Str.nonempty
                                               (py_strip <$> Str.split "," text))))).
Proof.
  intros Hget Hne.
  set (dirs := Path <$> List.filter Str.nonempty (py_strip <$> Str.split "," text)).
  assert (Henv : env_override w Field.projects_dirs = Some (VList (VPath <$> dirs))).
  { unfold env_override. cbn [env_var_of mbind option_bind].
    by rewrite (getenv_nonempty_Some _ _ _ Hget Hne). }
  split.
  - intros cfg w2 Hload.
    destruct (load_config_loaded _ _ _ _ Hload) as (file & w1 & Hfile).
    pose proof (resolved_field _ _ _ _ _ _ Field.projects_dirs Hfile Hload) as Hf.
    rewrite Henv in Hf. cbn [Field.type_of validate_as val_optional val_list] in Hf.
    rewrite mapM_val_path in Hf. by inversion Hf.
  - intros o w1 Hm.
    destruct (_load_config_file w cf) as [[file w1']|e] eqn:Hfile.
    + destruct (merged_config_inv _ _ _ _ _ _ Hfile Hm) as (-> & d0 & d & -> & -> & Hf).
      exists d. split; [done|].
      specialize (Hf Field.projects_dirs). by rewrite Henv in Hf.
    + unfold merged_config in Hm. rewrite Hfile in Hm.
      by apply load_config_file_raises in Hfile as [-> | ->].
Qed.

End coercion.

Lemma C4_claude_config_dir_override_witness :
  projects_dirs <$> config_of (load_config Sample.claude_dirs_world None)
  = Some (Some [Path "/data/a"; Path "/data/b"]).
Proof.
  set (w := Sample.claude_dirs_world).
  destruct (load_config w None) as [[cfg w2]|e] eqn:Hload;
    [|vm_compute in Hload; discriminate Hload].
  cbn [config_of fmap option_fmap option_map]. f_equal.
  exact (proj1 (C4_claude_config_dir_override w None "/data/a, /data/b,,"
                  ltac:(vm_compute; reflexivity) ltac:(discriminate))
           cfg w2 Hload).
Defined.

(* ===================================================================== *)
(** * Coercion of override texts *)
(* ===================================================================== *)

Section coercion_2.

Context {runtime : Python}.

(** C8: boolean coercion is total, true exactly on the texts that equal
    one of [true], [1], [yes], [on] up to letter case, false on every other
    text. *)
Theorem C8_parse_bool_value s :
  (_parse_bool_value s = true ↔
   ∃ token, token ∈ ["true"; "1"; "yes"; "on"]%string ∧
            Str.eq_ignore_case s token = true) ∧
  (_parse_bool_value s = false ↔
   ∀ token, token ∈ ["true"; "1"; "yes"; "on"]%string →
            Str.eq_ignore_case s token = false).
Proof.
  assert (Htrue : _parse_bool_value s = true ↔
                  ∃ token, token ∈ ["true"; "1"; "yes"; "on"]%string ∧
                           Str.eq_ignore_case s token = true).
  { unfold _parse_bool_value. rewrite mem_true. split.
    - intros Hin. exists (Str.lower s). split; [done|].
      rewrite eq_ignore_case_lower.
      set_unfold in Hin.
      destruct Hin as [->|[->|[->|[->|[]]]]]; reflexivity.
    - intros (token & Hin & Heq). rewrite eq_ignore_case_lower in Heq.
      apply String.eqb_eq in Heq. rewrite Heq.
      set_unfold in Hin. set_unfold.
      destruct Hin as [->|[->|[->|[->|[]]]]]; simpl; tauto. }
  split; [exact Htrue|].
  rewrite <- not_true_iff_false, Htrue. split.
  - intros Hno token Hin. apply not_true_iff_false. intros Heq. apply Hno. eauto.
  - intros Hall (token & Hin & Heq). by rewrite (Hall token Hin) in Heq.
Qed.

End coercion_2.

Example parse_bool_examples :
  _parse_bool_value "TRUE" = true ∧ _parse_bool_value "Yes" = true ∧
  _parse_bool_value "1" = true ∧ _parse_bool_value "oN" = true ∧
  _parse_bool_value "no" = false ∧ _parse_bool_value "" = false ∧
  _parse_bool_value "enabled" = false ∧ _parse_bool_value " true" = false.
Proof. repeat split; reflexivity. Qed.

Section coercion_3.

Context {runtime : Python}.

(** C9: a text that is not numeric, one that [int] rejects with
    [ValueError], given in the variable mapped to an integer field,
    coerces to nothing; that override is not applied, the field keeps the
    file's value or the default, and every other override of the same
    resolution is applied. *)
Theorem C9_non_numeric_override_dropped w cf file w1 cfg w2 f var text :
  mem (Field.key f) int_keys = true →
  env_var_of f = Some var →
  getenv w var = Some text →
  py_int text = None →
  _load_config_file w cf = Ok (file, w1) →
  load_config w cf = Ok (cfg, w2) →
  _parse_int_value text = None ∧
  env_override w f = None ∧
  match file_value file f with
  | Some v => validate_as (Field.type_of f) v = Some (field_value cfg f)
  | None => field_value cfg f = schema_default w f
  end ∧
  ∀ g v, env_override w g = Some v →
         validate_as (Field.type_of g) v = Some (field_value cfg g).
Proof.
  intros Hint Hvar Hget Hnum Hfile Hload.
  assert (Hparse : _parse_int_value text = None) by exact Hnum.
  assert (Henv : env_override w f = None).
  { unfold env_override. rewrite Hvar. cbn [mbind option_bind].
    unfold getenv_nonempty. rewrite Hget.
    destruct (Str.nonempty text); [|done]. cbn [mbind option_bind].
    destruct f; try discriminate Hint;
      cbn [coerce Field.key] in *; unfold _parse_env_value;
      by rewrite Hint, Hparse. }
  split; [done|]. split; [done|]. split.
  - pose proof (resolved_field _ _ _ _ _ _ f Hfile Hload) as Hf.
    by rewrite Henv in Hf.
  - intros g v Hg.
    pose proof (resolved_field _ _ _ _ _ _ g Hfile Hload) as Hf.
    by rewrite Hg in Hf.
Qed.

End coercion_3.

Lemma C9_non_numeric_override_dropped_witness :
  ∃ cfg w2, load_config Sample.non_numeric_world None = Ok (cfg, w2) ∧
            polling_interval cfg = 10 ∧ timezone cfg = "UTC"%string.
Proof.
  set (w := Sample.non_numeric_world).
  assert (Hfile : _load_config_file w None
                  = Ok (VDict {[ "polling_interval" := VInt 10 ]}, w))
    by (vm_compute; reflexivity).
  destruct (load_config w None) as [[cfg w2]|e] eqn:Hload;
    [|vm_compute in Hload; discriminate Hload].
  exists cfg, w2. split; [reflexivity|].
  destruct (C9_non_numeric_override_dropped w None _ _ cfg w2
              Field.polling_interval "PAR_CC_USAGE_POLLING_INTERVAL" "fast"
              ltac:(reflexivity) ltac:(reflexivity)
              ltac:(vm_compute; reflexivity) ltac:(vm_compute; reflexivity)
              Hfile Hload) as (_ & _ & Hkeep & Hothers).
  split.
  - vm_compute in Hkeep. by inversion Hkeep.
  - specialize (Hothers Field.timezone (VStr "UTC") ltac:(vm_compute; reflexivity)).
    by inversion Hothers.
Defined.

(* ===================================================================== *)
(** * Project directories *)
(* ===================================================================== *)

Section claude_paths.

Context {runtime : Python}.

Section first_occurrences_facts.

Variable key : path → string.

Lemma filter_comm {A} (P Q : A → bool) l :
  List.filter P (List.filter Q l) = List.filter Q (List.filter P l).
Proof.
  induction l as [|x l IH]; simpl; [done|].
  destruct (Q x) eqn:HQ, (P x) eqn:HP; simpl; rewrite ?HQ, ?HP, ?IH; done.
Qed.

Lemma filter_and {A} (P Q : A → bool) l :
  List.filter (λ x, P x && Q x) l = List.filter P (List.filter Q l).
Proof.
  induction l as [|x l IH]; simpl; [done|].
  destruct (Q x) eqn:HQ, (P x) eqn:HP; simpl; rewrite ?HQ, ?HP, ?IH; done.
Qed.

(** A filter on keys removes the key of a rejected element anyway. *)
Lemma filter_key_absorb (P : string → bool) p l :
  P (key p) = false →
  List.filter (λ q, P (key q))
    (List.filter (λ q, negb (String.eqb (key q) (key p))) l)
  = List.filter (λ q, P (key q)) l.
Proof.
  intros Hp. induction l as [|x l IH]; simpl; [done|].
  destruct (String.eqb_spec (key x) (key p)) as [Heq|Hne]; simpl.
  - rewrite Heq, Hp. exact IH.
  - destruct (P (key x)); by rewrite IH.
Qed.

(** Filtering on keys commutes with taking first occurrences. *)
Lemma first_occurrences_filter (P : string → bool) l :
  first_occurrences key (List.filter (λ q, P (key q)) l)
  = List.filter (λ q, P (key q)) (first_occurrences key l).
Proof.
  induction l as [|p l IH]; simpl; [done|].
  destruct (P (key p)) eqn:Hp; simpl.
  - rewrite IH. f_equal. apply filter_comm.
  - rewrite IH. symmetry. by apply filter_key_absorb.
Qed.

Lemma first_occurrences_sub l p : p ∈ first_occurrences key l → p ∈ l.
Proof.
  induction l as [|x l IH]; simpl; [done|].
  rewrite !elem_of_cons. intros [->|Hin]; [by left|]. right. apply IH.
  apply list_elem_of_In in Hin. apply filter_In in Hin as [Hin _].
  by apply list_elem_of_In.
Qed.

Lemma filter_fmap_NoDup (P : path → bool) l :
  NoDup (key <$> l) → NoDup (key <$> List.filter P l).
Proof.
  induction l as [|y l IH]; csimpl; [done|].
  rewrite NoDup_cons. intros [Hy Hl].
  destruct (P y); csimpl; [|by apply IH].
  apply NoDup_cons. split; [|by apply IH].
  rewrite list_elem_of_fmap. intros (q & Hq1 & Hq2).
  apply Hy. rewrite list_elem_of_fmap. exists q. split; [done|].
  apply list_elem_of_In in Hq2. apply filter_In in Hq2 as [Hq2 _].
  by apply list_elem_of_In.
Qed.

Lemma first_occurrences_NoDup l : NoDup (key <$> first_occurrences key l).
Proof.
  induction l as [|x l IH]; csimpl; [constructor|].
  apply NoDup_cons. split.
  - rewrite list_elem_of_fmap. intros (q & Hk & Hq).
    apply list_elem_of_In in Hq. apply filter_In in Hq as [_ Hq].
    rewrite <- Hk, String.eqb_refl in Hq. discriminate.
  - by apply filter_fmap_NoDup.
Qed.


End first_occurrences_facts.

Lemma exists_and_is_dir_Ok w p b :
  exists_and_is_dir w p = Ok b → b = is_existing_dir w p.
Proof.
  unfold exists_and_is_dir, path_exists, path_is_dir, is_existing_dir.
  destruct (fs w !! str_of p) as [[| |c]|] eqn:E; simpl; rewrite ?E;
    intros [= <-]; done.
Qed.


Lemma existing_defaults_Ok w cands : ∀ acc paths,
  existing_defaults w cands acc = Ok paths →
  paths = acc ++ List.filter (is_existing_dir w) cands.
Proof.
  induction cands as [|p cands IH]; intros acc paths; simpl.
  - intros [= <-]. by rewrite app_nil_r.
  - intros H. apply bind_ok in H as (keep & Hk & H).
    apply exists_and_is_dir_Ok in Hk as ->. apply IH in H as ->.
    destruct (is_existing_dir w p); [by rewrite <- app_assoc | done].
Qed.


Lemma candidate_paths_Ok w self paths :
  candidate_paths w self = Ok paths → paths = candidates w self.
Proof.
  unfold candidate_paths, candidates. generalize (default_paths w). intros dp.
  destruct (projects_dirs self) as [[|p l]|]; [| by intros [= <-] |];
    (intros H; apply bind_ok in H as (found & Hf & H);
     apply existing_defaults_Ok in Hf; rewrite app_nil_l in Hf; subst found;
     injection H as <-; by destruct (List.filter _ dp)).
Qed.


Lemma loop_result_keep w p rest acc seen :
  canonical w p ∉ seen →
  loop_result w rest (acc ++ [p]) ({[canonical w p]} ∪ seen)
  = acc ++ p :: List.filter (λ q, negb (String.eqb (canonical w q) (canonical w p)))
                  (first_occurrences (canonical w)
                     (List.filter (unseen w seen)
                        (List.filter (is_existing_dir w) rest))).
Proof.
  intros Hp. unfold loop_result. rewrite <- app_assoc. cbn [app].
  apply (f_equal (app acc)), (f_equal (cons p)).
  rewrite <- (first_occurrences_filter (canonical w)
                (λ k, negb (String.eqb k (canonical w p)))).
  apply (f_equal (first_occurrences (canonical w))).
  rewrite <- (filter_and (λ q, negb (String.eqb (canonical w q) (canonical w p)))
                (unseen w seen)). apply filter_ext. intros q. unfold unseen.
  destruct (String.eqb_spec (canonical w q) (canonical w p)) as [Heq|Hne]; simpl.
  - rewrite bool_decide_eq_true_2; [done|].
    rewrite elem_of_union, elem_of_singleton. by left.
  - destruct (bool_decide (canonical w q ∈ seen)) eqn:Hs.
    + apply bool_decide_eq_true in Hs. rewrite bool_decide_eq_true_2; [done|].
      rewrite elem_of_union. by right.
    + apply bool_decide_eq_false in Hs. rewrite bool_decide_eq_false_2; [done|].
      rewrite elem_of_union, elem_of_singleton. tauto.
Qed.

Lemma loop_result_step w p rest acc seen :
  loop_result w (p :: rest) acc seen =
  if bool_decide (canonical w p ∈ seen) then loop_result w rest acc seen
  else if is_existing_dir w p
       then loop_result w rest (acc ++ [p]) ({[canonical w p]} ∪ seen)
       else loop_result w rest acc seen.
Proof.
  case_bool_decide as Hs.
  - unfold loop_result. simpl. destruct (is_existing_dir w p); [|done].
    simpl. unfold unseen at 1. by rewrite bool_decide_eq_true_2.
  - destruct (is_existing_dir w p) eqn:He.
    + rewrite loop_result_keep by done. unfold loop_result. simpl. rewrite He.
      simpl. unfold unseen at 1. by rewrite bool_decide_eq_false_2.
    + unfold loop_result. simpl. by rewrite He.
Qed.

Lemma valid_paths_loop_Ok w paths : ∀ acc seen result,
  valid_paths_loop w paths acc seen = Ok result →
  result = loop_result w paths acc seen.
Proof.
  induction paths as [|p rest IH]; intros acc seen result.
  - simpl. intros [= <-]. unfold loop_result. simpl. by rewrite app_nil_r.
  - rewrite loop_result_step. cbn [valid_paths_loop].
    change (str_of (resolve w p)) with (canonical w p).
    case_bool_decide as Hs; [apply IH|].
    intros H. apply bind_ok in H as (keep & Hk & H).
    apply exists_and_is_dir_Ok in Hk as ->.
    destruct (is_existing_dir w p); by apply IH.
Qed.


Lemma loop_result_start w paths :
  loop_result w paths [] ∅
  = first_occurrences (canonical w) (List.filter (is_existing_dir w) paths).
Proof.
  unfold loop_result. simpl. f_equal.
  rewrite <- (filter_ext (λ _, true)).
  - induction (List.filter (is_existing_dir w) paths) as [|x l IH]; simpl; [done|].
    by rewrite IH.
  - intros q. unfold unseen. by rewrite bool_decide_eq_false_2.
Qed.


End claude_paths.


(** Of two configured directories, only the one on disk is monitored. *)
Example one_of_two_exists :
  ∀ w, w = Sample.world ∅ {[ "/data/b" := Directory ]} →
  get_claude_paths w
    (Sample.config_with_dirs w (Some [Path "/data/a"; Path "/data/b"]))
  = Ok [Path "/data/b"].
Proof. intros w ->. vm_compute. reflexivity. Qed.

(** Two spellings of one directory are monitored once, under the first. *)
Example equivalent_paths_once :
  ∀ w, w = set_fs
             {| environ := ∅; home := Path "/home/u";
                fs := ∅;
                realpath := λ s, if String.eqb s "/link/a" then "/data/a"%string else s;
                config_file_path := Sample.config_file;
                default_cache_dir := Path "/home/u/.cache/par_cc_usage";
                legacy_config_paths := [] |}
             {[ "/link/a" := Directory; "/data/a" := Directory;
                "/data/b" := Directory ]} →
  get_claude_paths w
    (Sample.config_with_dirs w
       (Some [Path "/link/a"; Path "/data/b"; Path "/data/a"]))
  = Ok [Path "/link/a"; Path "/data/b"].
Proof. intros w ->. vm_compute. reflexivity. Qed.

(** With nothing configured and nothing on disk, nothing is monitored. *)
Example nothing_to_monitor :
  ∀ w, w = Sample.world ∅ ∅ →
  get_claude_paths w (Config_default w) = Ok [].
Proof. intros w ->. vm_compute. reflexivity. Qed.

(** The single configured directory is the last resort, when no default
    directory exists. *)
Example single_directory_fallback :
  ∀ w, w = Sample.world ∅ {[ "/home/u/.claude/projects" := Directory ]} →
  get_claude_paths w (Config_default w) = Ok [Path "/home/u/.claude/projects"].
Proof. intros w ->. vm_compute. reflexivity. Qed.

(* ===================================================================== *)
(** * Validation fails exactly on violations *)
(* ===================================================================== *)

Section violations.

Context {runtime : Python}.

Lemma elem_errors_fld {A} (val : obj → option A) dflt d key l :
  l ∈ errors_of (fld val dflt d key) ↔
  l = [Key key] ∧ ∃ v, d !! key = Some v ∧ val v = None.
Proof.
  rewrite errors_fld. destruct (d !! key) as [v|].
  - destruct (val v) eqn:Hv.
    + rewrite elem_of_nil. split; [done|]. intros (_ & v' & [= <-] & Hv'). congruence.
    + rewrite list_elem_of_singleton. split; [eauto|]. by intros [-> _].
  - rewrite elem_of_nil. split; [done|]. by intros (_ & v' & ? & _).
Qed.

(** The errors of a list field: at the items of a list that do not
    convert, at the field for anything else that does not convert. *)
Lemma elem_errors_fld_list {A B} (val : obj → option A) (conv : obj → option B)
    dflt d key l :
  l ∈ errors_of (fld_list val conv dflt d key) ↔
  ∃ v sub, d !! key = Some v ∧ conv v = None ∧ l = Key key :: sub ∧
           match v with
           | VList items =>
               ∃ i item, items !! i = Some item ∧ val item = None ∧ sub = [Index i]
           | _ => sub = []
           end.
Proof.
  rewrite errors_fld_list. destruct (d !! key) as [v|].
  - destruct (conv v) eqn:Hv.
    + rewrite elem_of_nil. split; [done|].
      intros (v' & sub & [= <-] & Hv' & _). congruence.
    + rewrite list_elem_of_fmap. split.
      * intros (sub & -> & Hsub). exists v, sub.
        split; [done|]. split; [done|]. split; [done|].
        destruct v; simpl in Hsub;
          try (by apply list_elem_of_singleton in Hsub).
        apply list_elem_of_fmap in Hsub as (i & -> & Hi).
        apply rejected_spec in Hi as (item & ? & ?). eauto.
      * intros (v' & sub & [= <-] & _ & -> & Hsub). exists sub.
        split; [done|].
        destruct v; simpl; try (subst sub; by apply list_elem_of_singleton).
        destruct Hsub as (i & item & ? & ? & ->).
        apply list_elem_of_fmap. exists i. split; [done|].
        apply rejected_spec. eauto.
  - rewrite elem_of_nil. split; [done|]. by intros (v' & sub & ? & _).
Qed.

Lemma elem_errors_model_fld {A} (validate : gmap string obj → validation A) d key l :
  errors_of (validate ∅) = [] →
  l ∈ errors_of (model_fld validate d key) ↔
  (∃ v, d !! key = Some v ∧ is_dict v = false ∧ l = [Key key]) ∨
  (∃ sd l', d !! key = Some (VDict sd) ∧ l = Key key :: l' ∧
            l' ∈ errors_of (validate sd)).
Proof.
  intros Hempty. unfold model_fld. destruct (d !! key) as [v|].
  - destruct (is_dict v) eqn:Hv.
    + destruct v; try discriminate. unfold under.
      assert (errors_of (match validate d0 with
                         | Valid a => Valid a
                         | Invalid e => Invalid (cons (Key key) <$> e)
                         end) = cons (Key key) <$> errors_of (validate d0)) as ->
        by (by destruct (validate d0)).
      rewrite list_elem_of_fmap. split.
      * intros (l' & -> & Hl'). right. eauto.
      * intros [(v & [= <-] & ? & _)|(sd & l' & [= <-] & -> & Hl')]; [done|eauto].
    + assert (errors_of (match v with
                         | VDict sd => under key (validate sd)
                         | _ => Invalid [[Key key]]
                         end) = [[Key key]]) as -> by (by destruct v).
      rewrite list_elem_of_singleton. split.
      * intros ->. left. eauto.
      * intros [(v' & [= <-] & _ & ->)|(sd & l' & [= ->] & _)]; done.
  - rewrite Hempty, elem_of_nil. split; [done|].
    intros [(v & ? & _)|(sd & l' & ? & _)]; done.
Qed.

Lemma Config_validate_proper w d : proper (Config_validate w d).
Proof.
  assert (Hd : ∀ sd, proper (DisplayConfig_validate sd)).
  { intros sd. unfold DisplayConfig_validate.
    repeat first [apply proper_vap | apply proper_vmap | apply proper_fld
                 | apply proper_fld_list, item_errors_list]. }
  assert (Hn : ∀ sd, proper (NotificationConfig_validate sd)).
  { intros sd. unfold NotificationConfig_validate.
    repeat first [apply proper_vap | apply proper_vmap | apply proper_fld]. }
  assert (Hm : ∀ {A} (validate : gmap string obj → validation A) key,
             (∀ sd, proper (validate sd)) → proper (model_fld validate d key)).
  { intros A validate key Hv. unfold model_fld.
    destruct (d !! key) as [v|]; [|apply Hv].
    destruct v; try done. apply proper_under, Hv. }
  unfold Config_validate.
  repeat first [apply proper_vap | apply proper_vmap | apply proper_fld
               | apply proper_fld_list, item_errors_optional_list
               | apply Hm; assumption].
Qed.

End violations.

(** Trying every field in turn. *)
Ltac each_field tac :=
  first
    [ tac Field.projects_dir | tac Field.projects_dirs
    | tac Field.polling_interval | tac Field.timezone | tac Field.token_limit
    | tac Field.cache_dir | tac Field.disable_cache
    | tac Field.recent_activity_window_hours
    | tac Field.show_progress_bars | tac Field.show_active_sessions
    | tac Field.update_in_place | tac Field.refresh_interval
    | tac Field.time_format | tac Field.project_name_prefixes
    | tac Field.aggregate_by_project | tac Field.show_tool_usage
    | tac Field.display_mode | tac Field.show_pricing | tac Field.theme
    | tac Field.discord_webhook_url | tac Field.slack_webhook_url
    | tac Field.notify_on_block_completion | tac Field.cooldown_minutes ].

(** Finding the disjunct that holds. *)
Ltac find_disjunct tac :=
  first [ solve [tac] | left; find_disjunct tac | right; find_disjunct tac ].

Section violations_2.

Context {runtime : Python}.

Lemma fmap_None_inv {A B} (g : A → B) (o : option A) : g <$> o = None → o = None.
Proof. by destruct o. Qed.

End violations_2.

Ltac split_disjunctions :=
  repeat match goal with H : _ ∨ _ |- _ => destruct H as [H|H] end.

Section violations_3.

Context {runtime : Python}.

(** The fault below a list field, in terms of the conversion of the
    items. *)
Lemma fault_items {A} (t item_t : Field.type) (val : obj → option A)
    (tag : A → typed) v sub :
  Field.item_type t = Some item_t →
  (∀ item, validate_as item_t item = tag <$> val item) →
  fault t v sub ↔
  match v with
  | VList items =>
      ∃ i item, items !! i = Some item ∧ val item = None ∧ sub = [Index i]
  | _ => sub = []
  end.
Proof.
  intros Ht Hval. unfold fault. rewrite Ht. destruct v; try done.
  split; intros (i & item & ? & Hitem & ->); exists i, item;
    (split; [done|]); (split; [|done]).
  - rewrite Hval in Hitem. by destruct (val item).
  - by rewrite Hval, Hitem.
Qed.

Lemma fault_paths v sub :
  fault Field.OptPaths v sub ↔
  match v with
  | VList items =>
      ∃ i item, items !! i = Some item ∧ val_path item = None ∧ sub = [Index i]
  | _ => sub = []
  end.
Proof. by apply (fault_items _ Field.PathT val_path TPath). Qed.

Lemma fault_strs v sub :
  fault Field.Strs v sub ↔
  match v with
  | VList items =>
      ∃ i item, items !! i = Some item ∧ val_str item = None ∧ sub = [Index i]
  | _ => sub = []
  end.
Proof. by apply (fault_items _ Field.Str val_str TStr). Qed.

End violations_3.

(** A scalar field at fault, and a list field at fault, as errors of the
    field [f]. *)
Ltac scalar_fault H :=
  let v := fresh "v" in let Hv := fresh "Hv" in let Hval := fresh "Hval" in
  destruct H as (-> & v & Hv & Hval);
  each_field ltac:(fun f =>
    exists f, v, (@nil loc_item); split; [reflexivity|];
    split; [exact Hv|]; split; [simpl; by rewrite Hval|];
    split; reflexivity).

Ltac list_fault H f fault_lemma :=
  let v := fresh "v" in let sub := fresh "sub" in
  let Hv := fresh "Hv" in let Hval := fresh "Hval" in let Hsub := fresh "Hsub" in
  destruct H as (v & sub & Hv & Hval & -> & Hsub);
  exists f, v, sub; split; [reflexivity|];
  split; [exact Hv|]; split; [simpl; by rewrite Hval|];
  split; [by apply fault_lemma | reflexivity].

Section violations_4.

Context {runtime : Python}.

Lemma elem_errors_Display sd l :
  l ∈ errors_of (DisplayConfig_validate sd) ↔
  ∃ f v sub, Field.section f = Some "display"%string ∧
             sd !! Field.key f = Some v ∧
             validate_as (Field.type_of f) v = None ∧
             fault (Field.type_of f) v sub ∧ l = Key (Field.key f) :: sub.
Proof.
  unfold DisplayConfig_validate.
  rewrite !errors_vap, errors_vmap, !elem_of_app, !elem_errors_fld,
    elem_errors_fld_list. split.
  - intros H. split_disjunctions;
      first [ scalar_fault H
            | list_fault H Field.project_name_prefixes fault_strs ].
  - intros (f & v & sub & Hs & Hv & Hval & Hsub & ->).
    destruct f; try discriminate Hs; simpl in Hv, Hval |- *;
      apply fmap_None_inv in Hval;
      first
        [ apply fault_strs in Hsub;
          find_disjunct ltac:(exists v, sub; done)
        | unfold fault in Hsub; simpl in Hsub; subst sub;
          find_disjunct ltac:(split; [reflexivity | exists v; split; assumption]) ].
Qed.

Lemma elem_errors_Notification sd l :
  l ∈ errors_of (NotificationConfig_validate sd) ↔
  ∃ f v sub, Field.section f = Some "notifications"%string ∧
             sd !! Field.key f = Some v ∧
             validate_as (Field.type_of f) v = None ∧
             fault (Field.type_of f) v sub ∧ l = Key (Field.key f) :: sub.
Proof.
  unfold NotificationConfig_validate.
  rewrite !errors_vap, errors_vmap, !elem_of_app, !elem_errors_fld. split.
  - intros H. split_disjunctions; scalar_fault H.
  - intros (f & v & sub & Hs & Hv & Hval & Hsub & ->).
    destruct f; try discriminate Hs; simpl in Hv, Hval |- *;
      apply fmap_None_inv in Hval;
      unfold fault in Hsub; simpl in Hsub; subst sub;
      find_disjunct ltac:(split; [reflexivity | exists v; split; assumption]).
Qed.

End violations_4.

(** The same for the fields at top level. *)
Ltac scalar_violation H :=
  let v := fresh "v" in let Hv := fresh "Hv" in let Hval := fresh "Hval" in
  destruct H as (-> & v & Hv & Hval);
  each_field ltac:(fun f =>
    exists f, v, (@nil loc_item);
    split; [exact Hv|]; split; [simpl; by rewrite Hval|];
    split; reflexivity).

Ltac list_violation H f fault_lemma :=
  let v := fresh "v" in let sub := fresh "sub" in
  let Hv := fresh "Hv" in let Hval := fresh "Hval" in let Hsub := fresh "Hsub" in
  destruct H as (v & sub & Hv & Hval & -> & Hsub);
  exists f, v, sub;
  split; [exact Hv|]; split; [simpl; by rewrite Hval|];
  split; [by apply fault_lemma | reflexivity].

Section violations_5.

Context {runtime : Python}.

(** The errors validation reports are exactly the violations. *)
Lemma elem_errors_Config w d l :
  l ∈ errors_of (Config_validate w d) ↔ violates d l.
Proof.
  unfold Config_validate.
  rewrite !errors_vap, errors_vmap, !elem_of_app, !elem_errors_fld,
    elem_errors_fld_list.
  rewrite !elem_errors_model_fld by reflexivity. split.
  - intros H. split_disjunctions.
    all: try (left; scalar_violation H).
    all: try (left; list_violation H Field.projects_dirs fault_paths).
    all: try (destruct H as (v & Hv & Hnd & ->); right; eexists _, v; by eauto).
    + destruct H as (sd & l' & Hsd & -> & Hl').
      apply elem_errors_Display in Hl' as (f & v & sub & Hs & Hv & Hval & Hsub & ->).
      left. exists f, v, sub. unfold Field.location, lookup_field. by rewrite Hs, Hsd.
    + destruct H as (sd & l' & Hsd & -> & Hl').
      apply elem_errors_Notification in Hl'
        as (f & v & sub & Hs & Hv & Hval & Hsub & ->).
      left. exists f, v, sub. unfold Field.location, lookup_field. by rewrite Hs, Hsd.
  - intros [(f & v & sub & Hlook & Hval & Hsub & ->)|(sec & v & -> & Hsec & Hv & Hnd)].
    + destruct (Field.section f) as [sec|] eqn:Hs.
      * assert (Hsec : sec = "display"%string ∨ sec = "notifications"%string)
          by (destruct f; simpl in Hs; inversion Hs; auto).
        unfold lookup_field in Hlook. rewrite Hs in Hlook.
        destruct (d !! sec) as [[| | | | | | | |sd]|] eqn:Hd; try discriminate.
        unfold Field.location. rewrite Hs.
        destruct Hsec as [-> | ->].
        -- find_disjunct ltac:(right; exists sd, (Key (Field.key f) :: sub);
                               split; [exact Hd|]; split; [reflexivity|];
                               apply elem_errors_Display; exists f, v, sub; done).
        -- find_disjunct ltac:(right; exists sd, (Key (Field.key f) :: sub);
                               split; [exact Hd|]; split; [reflexivity|];
                               apply elem_errors_Notification; exists f, v, sub; done).
      * destruct f; try discriminate Hs; unfold lookup_field in Hlook;
          simpl in Hlook, Hval |- *; apply fmap_None_inv in Hval;
          first
            [ apply fault_paths in Hsub;
              find_disjunct ltac:(exists v, sub; done)
            | unfold fault in Hsub; simpl in Hsub; subst sub;
              find_disjunct ltac:(split; [reflexivity | exists v; split; assumption]) ].
    + destruct Hsec as [-> | ->];
        find_disjunct ltac:(left; exists v; done).
Qed.

End violations_5.

(** A key no model reads changes nothing. *)
Ltac skip_unknown Hkey :=
  unfold fld, fld_list, model_fld;
  rewrite !lookup_insert_ne
    by (intros ->; apply Hkey; set_unfold; tauto);
  reflexivity.

Section violations_6.

Context {runtime : Python}.

Lemma Config_validate_unknown w d key v :
  key ∉ Config_keys → Config_validate w (<[key := v]> d) = Config_validate w d.
Proof. intros Hkey. unfold Config_validate. skip_unknown Hkey. Qed.

Lemma DisplayConfig_validate_unknown d key v :
  key ∉ DisplayConfig_keys →
  DisplayConfig_validate (<[key := v]> d) = DisplayConfig_validate d.
Proof. intros Hkey. unfold DisplayConfig_validate. skip_unknown Hkey. Qed.

Lemma NotificationConfig_validate_unknown d key v :
  key ∉ NotificationConfig_keys →
  NotificationConfig_validate (<[key := v]> d) = NotificationConfig_validate d.
Proof. intros Hkey. unfold NotificationConfig_validate. skip_unknown Hkey. Qed.

(** An unknown key inside a section changes nothing either. *)
Lemma Config_validate_unknown_display w d sd key v :
  d !! "display"%string = Some (VDict sd) →
  key ∉ DisplayConfig_keys →
  Config_validate w (<["display"%string := VDict (<[key := v]> sd)]> d)
  = Config_validate w d.
Proof.
  intros Hd Hkey. unfold Config_validate, fld, fld_list, model_fld.
  rewrite lookup_insert_eq, !lookup_insert_ne by discriminate.
  by rewrite Hd, DisplayConfig_validate_unknown.
Qed.

Lemma Config_validate_unknown_notifications w d sd key v :
  d !! "notifications"%string = Some (VDict sd) →
  key ∉ NotificationConfig_keys →
  Config_validate w (<["notifications"%string := VDict (<[key := v]> sd)]> d)
  = Config_validate w d.
Proof.
  intros Hd Hkey. unfold Config_validate, fld, fld_list, model_fld.
  rewrite lookup_insert_eq, !lookup_insert_ne by discriminate.
  by rewrite Hd, NotificationConfig_validate_unknown.
Qed.

(** C3: validation of the merged mapping ignores the keys no model
    declares, at top level and inside both sections; it gives every field
    the conversion of what the mapping binds it to, and its schema default
    when the mapping binds nothing; it fails exactly when the mapping
    violates the type of some field or binds a section to something that
    is not a mapping, and the error then names every offending location
    and nothing else (a field, or the item of a list); the error reaches
    the caller of [load_config] as it is, so no value is ever put in the
    place of an invalid one. *)
Theorem C3_schema_validation w d :
  (∀ key v, key ∉ Config_keys →
            Config_validate w (<[key := v]> d) = Config_validate w d) ∧
  (∀ sd key v, d !! "display"%string = Some (VDict sd) →
               key ∉ DisplayConfig_keys →
               Config_validate w (<["display"%string := VDict (<[key := v]> sd)]> d)
               = Config_validate w d) ∧
  (∀ sd key v, d !! "notifications"%string = Some (VDict sd) →
               key ∉ NotificationConfig_keys →
               Config_validate w
                 (<["notifications"%string := VDict (<[key := v]> sd)]> d)
               = Config_validate w d) ∧
  (∀ cfg f, Config_validate w d = Valid cfg →
            match lookup_field d f with
            | Some v => validate_as (Field.type_of f) v = Some (field_value cfg f)
            | None => field_value cfg f = schema_default w f
            end) ∧
  match Config_validate w d with
  | Valid _ => ∀ l, ¬ violates d l
  | Invalid errors => errors ≠ [] ∧ ∀ l, l ∈ errors ↔ violates d l
  end ∧
  (∀ w0 cf errors,
     merged_config w0 cf = Ok (VDict d, w) →
     Config_validate w d = Invalid errors →
     load_config w0 cf = Raise (ValidationError errors)).
Proof.
  split; [intros key v; apply Config_validate_unknown|].
  split; [intros sd key v; apply Config_validate_unknown_display|].
  split; [intros sd key v; apply Config_validate_unknown_notifications|].
  split; [intros cfg f Hv; by apply Config_field|].
  split.
  - pose proof (Config_validate_proper w d) as Hp.
    pose proof (elem_errors_Config w d) as He.
    destruct (Config_validate w d) as [cfg|errors]; simpl in *.
    + intros l Hl. apply He in Hl. by apply elem_of_nil in Hl.
    + split; [exact Hp | exact He].
  - intros w0 cf errors Hm Hv. unfold load_config. rewrite Hm.
    cbn [mbind result_bind Config_new]. by rewrite Hv.
Qed.

End violations_6.

Lemma C3_schema_validation_witness :
  load_config Sample.invalid_world None
  = Raise (ValidationError [[Key "polling_interval"]; [Key "display"; Key "theme"]]).
Proof.
  set (w := Sample.invalid_world).
  destruct (merged_config w None) as [[o w1]|e] eqn:Hm;
    [|vm_compute in Hm; discriminate Hm].
  assert (Ho : ∃ d, o = VDict d ∧ w1 = w ∧
                    Config_validate w d
                    = Invalid [[Key "polling_interval"]; [Key "display"; Key "theme"]]).
  { vm_compute in Hm. injection Hm as <- <-. eexists. split; [reflexivity|].
    split; [reflexivity|]. vm_compute. reflexivity. }
  destruct Ho as (d & -> & -> & Hv).
  exact (proj2 (proj2 (proj2 (proj2 (proj2 (C3_schema_validation w d)))))
           w None _ Hm Hv).
Defined.

(** A theme outside the closed set is refused, not replaced. *)
Example invalid_theme_is_fatal :
  Config_validate (Sample.world ∅ ∅) {[ "display" := VDict {[ "theme" := VStr "neon" ]} ]}
  = Invalid [[Key "display"; Key "theme"]].
Proof. vm_compute. reflexivity. Qed.

(** The items of a list that do not convert are named one by one. *)
Example invalid_items_are_named :
  Config_validate (Sample.world ∅ ∅)
    {[ "projects_dirs" := VList [VStr "/data/a"; VInt 3; VNone] ]}
  = Invalid [[Key "projects_dirs"; Index 1]; [Key "projects_dirs"; Index 2]].
Proof. vm_compute. reflexivity. Qed.

Example unknown_keys_and_missing_keys :
  Config_validate (Sample.world ∅ ∅)
    {[ "no_such_field" := VStr "x"; "display" := VDict {[ "also_unknown" := VInt 3 ]} ]}
  = Valid (Config_default (Sample.world ∅ ∅)).
Proof. vm_compute. reflexivity. Qed.

(* ===================================================================== *)
(** * Path expansion in the resolved configuration *)
(* ===================================================================== *)

Section paths_expanded.

Context {runtime : Python}.

Lemma scan_no_dollar env l :
  forallb (λ c, negb (Ascii.eqb c "$"%char)) l = true →
  Expand.scan env None l = l.
Proof.
  induction l as [|c l IH]; simpl; [done|].
  destruct (Ascii.eqb c "$"); simpl; [done|]. intros H. by rewrite IH.
Qed.

(** A text without alias or variable syntax passes through unchanged. *)
Lemma expand_path_plain w s : Expand.plain s = true → expand_path w s = Path s.
Proof.
  unfold Expand.plain, expand_path. intros H.
  apply andb_true_iff in H as [Hhome Hvars]. f_equal.
  assert (Expand.expanduser (str_of (home w)) s = s) as ->.
  { destruct s as [|c s]; [done|]. simpl in Hhome. unfold Expand.expanduser.
    destruct (Ascii.eqb_spec "~"%char c) as [<-|Hc].
    - by destruct s.
    - destruct c as [[] [] [] [] [] [] [] []]; try done. }
  unfold Expand.expandvars. rewrite scan_no_dollar by done.
  apply string_of_list_ascii_of_string.
Qed.

Lemma expand_path_same_process w w' s :
  same_process w w' → expand_path w' s = expand_path w s.
Proof. by intros [g ->]. Qed.

Lemma expand_paths_dict w d :
  _expand_paths_in_config w (VDict d)
  = Ok (VDict (expanded_field w "cache_dir" (expanded_field w "projects_dir" d))).
Proof.
  unfold _expand_paths_in_config, expand_field, expanded_field.
  destruct (d !! "projects_dir") as [[]|]; cbn [mbind result_bind];
    match goal with |- context [?m !! "cache_dir"] =>
      destruct (m !! "cache_dir") as [[]|] end; reflexivity.
Qed.

Lemma expanded_field_lookup w key d k :
  expanded_field w key d !! k =
  if String.eqb key k
  then match d !! k with
       | Some (VStr s) => Some (VPath (expand_path w s))
       | other => other
       end
  else d !! k.
Proof.
  unfold expanded_field. destruct (String.eqb_spec key k) as [->|Hne].
  - destruct (d !! k) as [[]|] eqn:E; rewrite ?lookup_insert_eq, ?E; done.
  - destruct (d !! key) as [[]|] eqn:E; rewrite ?lookup_insert_ne by done; done.
Qed.

(** Reading a file that holds a mapping. *)
Lemma read_config_file_dict w p d :
  fs w !! str_of p = Some (RegularFile (Document (VDict d))) →
  read_config_file w p
  = Ok (VDict (expanded_field w "cache_dir" (expanded_field w "projects_dir" d))).
Proof.
  intros Hp. unfold read_config_file, path_exists, read_yaml. rewrite Hp.
  cbn [mbind result_bind try_except].
  destruct (truthy (VDict d)) eqn:Ht.
  - by rewrite expand_paths_dict.
  - simpl in Ht. apply negb_false_iff, bool_decide_eq_true in Ht. subst d.
    by rewrite expand_paths_dict.
Qed.

(** C5, as amended: a singular path field supplied as text, by its
    override variable (whether or not there is a configuration file) or
    else by the file, holds the expansion of that text; a text without
    alias or variable syntax is kept as it is. *)
Theorem C5_singular_paths_are_expansions w cf cfg w2 f :
  f = Field.projects_dir ∨ f = Field.cache_dir →
  load_config w cf = Ok (cfg, w2) →
  (∀ text, env_text w f = Some text →
           field_value cfg f = TPath (expand_path w text)) ∧
  (∀ p w1 d text,
     locate_config_file w cf = Ok (p, w1) →
     fs w1 !! str_of p = Some (RegularFile (Document (VDict d))) →
     env_text w f = None → d !! Field.key f = Some (VStr text) →
     field_value cfg f = TPath (expand_path w text)) ∧
  (∀ text, Expand.plain text = true → expand_path w text = Path text).
Proof.
  intros Hf Hload.
  destruct (load_config_loaded _ _ _ _ Hload) as (file & w1 & Hfile).
  pose proof (load_config_file_world _ _ _ _ Hfile) as Hw.
  pose proof (resolved_field _ _ _ _ _ _ f Hfile Hload) as Hres.
  assert (Henv : env_override w f
                 = (λ text, VPath (expand_path w text)) <$> env_text w f).
  { unfold env_override, env_text.
    destruct Hf as [-> | ->]; cbn -[getenv_nonempty expand_path];
      match goal with |- context [getenv_nonempty w ?v] =>
        by destruct (getenv_nonempty w v) end. }
  split; [|split].
  - intros text Ht. rewrite Henv, Ht in Hres.
    destruct Hf as [-> | ->]; cbn -[expand_path] in Hres |- *;
      by injection Hres as <-.
  - intros p w1' d text Hloc Hdoc Ht Hd. rewrite Henv, Ht in Hres.
    cbn [fmap option_fmap option_map] in Hres.
    assert (Hv : file_value file f = Some (VPath (expand_path w text))).
    { unfold _load_config_file in Hfile. rewrite Hloc in Hfile.
      cbn [mbind result_bind] in Hfile.
      rewrite (read_config_file_dict _ _ _ Hdoc) in Hfile.
      injection Hfile as <- <-. unfold file_value, lookup_field.
      destruct Hf as [-> | ->]; cbn [Field.section Field.key] in *;
        rewrite !expanded_field_lookup; simpl; rewrite Hd;
        by rewrite (expand_path_same_process w w1'). }
    rewrite Hv in Hres.
    destruct Hf as [-> | ->]; cbn -[expand_path] in Hres |- *;
      by injection Hres as <-.
  - intros text. apply expand_path_plain.
Qed.

End paths_expanded.

Lemma C5_singular_paths_are_expansions_witness :
  ∃ cfg w2, load_config Sample.expansion_world None = Ok (cfg, w2) ∧
            cache_dir cfg = Path "/home/u/var/cache" ∧
            projects_dir cfg = Path "/home/u/claude/projects".
Proof.
  set (w := Sample.expansion_world).
  assert (Hloc : locate_config_file w None = Ok (Sample.config_file, w))
    by (vm_compute; reflexivity).
  assert (Hdoc : fs w !! str_of Sample.config_file
                 = Some (RegularFile (Document
                           (VDict {[ "projects_dir" := VStr "~/claude/projects" ]}))))
    by (vm_compute; reflexivity).
  destruct (load_config w None) as [[cfg w2]|e] eqn:Hload;
    [|vm_compute in Hload; discriminate Hload].
  exists cfg, w2. split; [reflexivity|]. split.
  - destruct (C5_singular_paths_are_expansions w None _ _ Field.cache_dir
                ltac:(by right) Hload) as (Henv & _ & _).
    specialize (Henv "~/$SUB/cache"%string ltac:(vm_compute; reflexivity)).
    vm_compute in Henv. by injection Henv.
  - destruct (C5_singular_paths_are_expansions w None _ _ Field.projects_dir
                ltac:(by left) Hload) as (_ & Hfl & _).
    specialize (Hfl _ _ _ "~/claude/projects"%string Hloc Hdoc
                  ltac:(vm_compute; reflexivity) ltac:(vm_compute; reflexivity)).
    vm_compute in Hfl. by injection Hfl.
Defined.

(** An override alone, with no configuration file at all. *)
Example override_expanded_without_file :
  cache_dir <$>
    config_of (load_config
                 (Sample.world {[ "PAR_CC_USAGE_CACHE_DIR" := "~/cache" ]} ∅) None)
  = Some (Path "/home/u/cache").
Proof. vm_compute. reflexivity. Qed.

(** The claim as first stated fails: the directories of [CLAUDE_CONFIG_DIR]
    are taken as written, home alias and relative path included. *)
Lemma C5_counterexample :
  ¬ (∀ cfg w2, load_config Sample.unexpanded_world None = Ok (cfg, w2) →
               all_paths_well_formed cfg).
Proof.
  set (w := Sample.unexpanded_world). intros Hall.
  destruct (load_config w None) as [[cfg w2]|e] eqn:Hload;
    [|vm_compute in Hload; discriminate Hload].
  destruct (Hall cfg w2 eq_refl) as (_ & _ & Hwf).
  assert (Hdirs : projects_dirs cfg = Some [Path "~/.claude"; Path "work/claude"])
    by (vm_compute in Hload; injection Hload as <- _; reflexivity).
  assert (Hin : Path "~/.claude" ∈ [Path "~/.claude"; Path "work/claude"])
    by (apply elem_of_cons; by left).
  specialize (Hwf _ _ Hdirs Hin). vm_compute in Hwf. discriminate Hwf.
Qed.

(** A relative path in the file stays relative. *)
Example relative_path_stays_relative :
  projects_dir <$>
    config_of (load_config
                 (Sample.world ∅ (Sample.yaml {[ "projects_dir" := VStr "data/projects" ]}))
                 None)
  = Some (Path "data/projects").
Proof. vm_compute. reflexivity. Qed.

Example expand_path_examples :
  ∀ w, w = Sample.world {[ "SUBDIR" := "projects" ]} ∅ →
  expand_path w "~/$SUBDIR/test" = Path "/home/u/projects/test" ∧
  expand_path w "/usr/local/bin/test" = Path "/usr/local/bin/test" ∧
  expand_path w "./data/file.txt" = Path "./data/file.txt" ∧
  expand_path w (str_of (expand_path w "~/$SUBDIR/test")) = expand_path w "~/$SUBDIR/test".
Proof. intros w ->. split; [|split; [|split]]; vm_compute; reflexivity. Qed.

(* ===================================================================== *)
(** * Saving, then loading *)
(* ===================================================================== *)

Section roundtrip.

Context {runtime : Python}.

Lemma mkdir_world w p w' : mkdir w p = Ok w' → same_process w w'.
Proof.
  unfold mkdir. destruct (fs w !! str_of p) as [[| |c]|]; try discriminate.
  - intros [= <-]. apply same_process_refl.
  - intros [= <-]. by eexists.
Qed.

Lemma write_yaml_written w p d w' :
  write_yaml w p d = Ok w' →
  same_process w w' ∧ fs w' !! str_of p = Some (RegularFile (Document d)).
Proof.
  unfold write_yaml.
  destruct (fs w !! str_of p) as [[| |[| | | |v]]|]; try discriminate;
    intros [= <-]; (split; [by eexists | apply lookup_insert_eq]).
Qed.

(** A successful save leaves the dumped dictionary at the path. *)
Lemma save_config_written w config p w' :
  save_config w config p = Ok w' →
  same_process w w' ∧
  fs w' !! str_of p = Some (RegularFile (Document (VDict (save_config_dict config)))).
Proof.
  unfold save_config, ensure_xdg_directories. intros H.
  apply bind_ok in H as (wa & Ha & H). apply bind_ok in H as (wb & Hb & H).
  apply mkdir_world in Ha. apply mkdir_world in Hb.
  apply write_yaml_written in H as [Hw Hp]. split; [|done].
  eapply same_process_trans; [exact Ha|]. eapply same_process_trans; eauto.
Qed.

Lemma locate_existing_file w p c :
  fs w !! str_of p = Some (RegularFile c) →
  locate_config_file w (Some p) = Ok (p, w).
Proof. intros Hp. unfold locate_config_file, path_exists. simpl. by rewrite Hp. Qed.

(** Without overrides the tables change nothing. *)
Lemma apply_env_overrides_none w o mapping :
  (∀ e, e ∈ mapping → getenv_nonempty w e.1 = None) →
  _apply_env_overrides w o mapping = Ok o.
Proof.
  induction mapping as [|[env_var key] rest IH]; intros Hnone; [done|].
  cbn [_apply_env_overrides].
  pose proof (Hnone (env_var, key) ltac:(by left)) as Hvar. cbn [fst] in Hvar.
  rewrite Hvar. apply IH.
  intros e He. apply Hnone. by right.
Qed.

Lemma apply_nested_none w d sec sd mapping :
  (∀ e, e ∈ mapping → getenv_nonempty w e.1 = None) →
  d !! sec = Some (VDict sd) →
  _apply_nested_env_overrides w (VDict d) sec mapping = Ok (VDict d).
Proof.
  intros Hnone Hsec. unfold _apply_nested_env_overrides, get_or_empty.
  rewrite Hsec. cbn [default mbind result_bind].
  rewrite (apply_env_overrides_none _ _ _ Hnone). cbn [mbind result_bind id].
  destruct (truthy (VDict sd)); [|done].
  unfold setitem. by rewrite insert_id.
Qed.

Lemma no_overrides_table w mapping :
  no_overrides w →
  mapping = _get_top_level_env_mapping ∨ mapping = _get_display_env_mapping
  ∨ mapping = _get_notification_env_mapping →
  ∀ e, e ∈ mapping → getenv_nonempty w e.1 = None.
Proof.
  intros Hno Hm e He. apply Hno. unfold override_vars.
  apply elem_of_cons. right. apply list_elem_of_fmap. exists e. split; [done|].
  rewrite !elem_of_app. destruct Hm as [->|[->| ->]]; tauto.
Qed.

Lemma no_overrides_same_process w w' :
  same_process w w' → no_overrides w → no_overrides w'.
Proof. by intros [g ->]. Qed.

End roundtrip.

Ltac solve_lookup :=
  repeat first
    [ rewrite lookup_insert_eq
    | rewrite lookup_insert_ne by discriminate
    | rewrite lookup_empty ];
  try reflexivity.

Section roundtrip_2.

Context {runtime : Python}.

Lemma expanded_field_ne w key d k :
  key ≠ k → expanded_field w key d !! k = d !! k.
Proof.
  intros Hne. rewrite expanded_field_lookup.
  by destruct (String.eqb_spec key k).
Qed.

Lemma expanded_field_str w key d s :
  d !! key = Some (VStr s) →
  expanded_field w key d !! key = Some (VPath (expand_path w s)).
Proof. intros Hd. by rewrite expanded_field_lookup, String.eqb_refl, Hd. Qed.

Lemma fld_Some {A} (val : obj → option A) dflt d key v a :
  d !! key = Some v → val v = Some a → fld val dflt d key = Valid a.
Proof. unfold fld. by intros -> ->. Qed.

Lemma fld_None {A} (val : obj → option A) dflt d key :
  d !! key = None → fld val dflt d key = Valid dflt.
Proof. unfold fld. by intros ->. Qed.

Lemma fld_list_Some {A B} (val : obj → option A) (conv : obj → option B)
    dflt d key v b :
  d !! key = Some v → conv v = Some b → fld_list val conv dflt d key = Valid b.
Proof. unfold fld_list. by intros -> ->. Qed.

Lemma fld_list_None {A B} (val : obj → option A) (conv : obj → option B)
    dflt d key :
  d !! key = None → fld_list val conv dflt d key = Valid dflt.
Proof. unfold fld_list. by intros ->. Qed.

Lemma TimeFormat_of_value t : TimeFormat_of (TimeFormat_value t) = Some t.
Proof. by destruct t. Qed.

Lemma DisplayMode_of_value m : DisplayMode_of (DisplayMode_value m) = Some m.
Proof. by destruct m. Qed.

Lemma val_optional_opt_obj {A} (val : obj → option A) (inj : A → obj) o :
  (∀ a, val (inj a) = Some a) → (∀ a, inj a ≠ VNone) →
  val_optional val (opt_obj inj o) = Some o.
Proof.
  intros Hval Hinj. destruct o as [a|]; [|done]. simpl.
  unfold val_optional. specialize (Hinj a). specialize (Hval a).
  destruct (inj a); try done; by rewrite Hval.
Qed.

End roundtrip_2.

Ltac solve_val :=
  first
    [ reflexivity
    | apply TimeFormat_of_value
    | apply DisplayMode_of_value
    | apply mapM_val_str
    | apply val_optional_opt_obj; done
    | cbn [val_optional val_list]; rewrite mapM_val_path_str; reflexivity ].

(** One field of a validation whose key the dictionary is known at. *)
Ltac step_fld :=
  match goal with
  | |- context [fld ?val ?dflt ?d ?key] =>
      first [ rewrite (fld_None val dflt d key) by solve_lookup
            | erewrite (fld_Some val dflt d key); [| solve_lookup | solve_val ] ]
  | |- context [fld_list ?val ?conv ?dflt ?d ?key] =>
      first [ rewrite (fld_list_None val conv dflt d key) by solve_lookup
            | erewrite (fld_list_Some val conv dflt d key);
                [| solve_lookup | solve_val ] ]
  end.

Section roundtrip_3.

Context {runtime : Python}.

Lemma saved_display_valid config :
  DisplayConfig_validate (save_display_dict config)
  = Valid (reloaded_display config).
Proof.
  unfold DisplayConfig_validate, save_display_dict. repeat step_fld. reflexivity.
Qed.

Lemma saved_notifications_valid config :
  NotificationConfig_validate (save_notifications_dict config)
  = Valid (notifications config).
Proof.
  unfold NotificationConfig_validate, save_notifications_dict. repeat step_fld.
  by destruct (notifications config).
Qed.

Lemma model_fld_Some {A} (validate : gmap string obj → validation A) d key sd a :
  d !! key = Some (VDict sd) → validate sd = Valid a →
  model_fld validate d key = Valid a.
Proof. unfold model_fld. intros -> Hv. by rewrite Hv. Qed.

End roundtrip_3.

Ltac solve_saved_lookup :=
  repeat first
    [ rewrite expanded_field_ne by discriminate
    | erewrite expanded_field_str; [reflexivity|]
    | rewrite lookup_insert_eq
    | rewrite lookup_insert_ne by discriminate
    | rewrite lookup_empty ];
  try reflexivity.

Ltac step_saved_fld :=
  match goal with
  | |- context [fld ?val ?dflt ?d ?key] =>
      first [ rewrite (fld_None val dflt d key) by solve_saved_lookup
            | erewrite (fld_Some val dflt d key); [| solve_saved_lookup | solve_val ] ]
  | |- context [fld_list ?val ?conv ?dflt ?d ?key] =>
      first [ rewrite (fld_list_None val conv dflt d key) by solve_saved_lookup
            | erewrite (fld_list_Some val conv dflt d key);
                [| solve_saved_lookup | solve_val ] ]
  | |- context [model_fld ?validate ?d ?key] =>
      erewrite (model_fld_Some validate d key);
        [| solve_saved_lookup
         | first [apply saved_display_valid | apply saved_notifications_valid] ]
  end.

Section roundtrip_4.

Context {runtime : Python}.

(** The saved dictionary validates, to the configuration [reloaded]. *)
Lemma loaded_dict_valid w config :
  Config_validate w (loaded_dict w config) = Valid (reloaded w config).
Proof.
  unfold Config_validate, loaded_dict, save_config_dict, reloaded.
  destruct (projects_dirs config) as [[|p l]|] eqn:E;
    repeat step_saved_fld; reflexivity.
Qed.

Lemma loaded_dict_sections w config :
  loaded_dict w config !! "display" = Some (VDict (save_display_dict config)) ∧
  loaded_dict w config !! "notifications"
  = Some (VDict (save_notifications_dict config)).
Proof.
  unfold loaded_dict, save_config_dict.
  destruct (projects_dirs config) as [[|p l]|] eqn:E; split; solve_saved_lookup.
Qed.

Lemma save_config_dict_nonempty config : save_config_dict config ≠ ∅.
Proof.
  intros Hempty.
  assert (H : save_config_dict config !! "timezone" = Some (VStr (timezone config))).
  { unfold save_config_dict.
    destruct (projects_dirs config) as [[|p l]|]; solve_saved_lookup. }
  rewrite Hempty, lookup_empty in H. discriminate H.
Qed.

Lemma reloaded_same_process w w' config :
  same_process w w' → reloaded w' config = reloaded w config.
Proof. by intros [g ->]. Qed.

(** Loading the file a save has written: the file layer is the saved
    dictionary with its two path texts expanded; it validates to
    [reloaded]; and, with no override in the environment, that is what
    [load_config] builds, the cache directory remaining to be created. *)
Lemma load_after_save w config p w1 :
  save_config w config p = Ok w1 →
  _load_config_file w1 (Some p) = Ok (VDict (loaded_dict w1 config), w1) ∧
  Config_validate w1 (loaded_dict w1 config) = Valid (reloaded w config) ∧
  (no_overrides w →
   load_config w1 (Some p)
   = (w2 ← model_post_init w1 (reloaded w config); Ok (reloaded w config, w2))).
Proof.
  intros Hsave. apply save_config_written in Hsave as [Hw Hp].
  assert (Hfile : _load_config_file w1 (Some p) = Ok (VDict (loaded_dict w1 config), w1)).
  { unfold _load_config_file. rewrite (locate_existing_file _ _ _ Hp).
    cbn [mbind result_bind]. by rewrite (read_config_file_dict _ _ _ Hp). }
  assert (Hvalid : Config_validate w1 (loaded_dict w1 config) = Valid (reloaded w config)).
  { rewrite loaded_dict_valid. by rewrite (reloaded_same_process w w1). }
  split; [done|]. split; [done|].
  intros Hno. apply (no_overrides_same_process _ _ Hw) in Hno.
  destruct (loaded_dict_sections w1 config) as [Hd Hn].
  unfold load_config, merged_config. rewrite Hfile.
  cbn [try_except mbind result_bind].
  unfold _apply_claude_config_dir_override.
  rewrite (Hno "CLAUDE_CONFIG_DIR"%string) by (by left).
  cbn [mbind result_bind].
  rewrite (apply_env_overrides_none _ _ _
             (no_overrides_table _ _ Hno ltac:(by left))).
  cbn [mbind result_bind].
  rewrite (apply_nested_none _ _ _ _ _
             (no_overrides_table _ _ Hno ltac:(right; by left)) Hd).
  cbn [mbind result_bind].
  rewrite (apply_nested_none _ _ _ _ _
             (no_overrides_table _ _ Hno ltac:(right; by right)) Hn).
  cbn [mbind result_bind Config_new]. by rewrite Hvalid.
Qed.

Lemma save_config_dict_sections config :
  save_config_dict config !! "display" = Some (VDict (save_display_dict config)) ∧
  save_config_dict config !! "notifications"
  = Some (VDict (save_notifications_dict config)).
Proof.
  unfold save_config_dict.
  destruct (projects_dirs config) as [[|p l]|]; split; solve_saved_lookup.
Qed.

(** The fields [save_config] leaves out of the file. *)
Lemma unsaved_fields config f :
  f ∈ [Field.disable_cache; Field.recent_activity_window_hours;
       Field.aggregate_by_project; Field.show_tool_usage; Field.theme] →
  lookup_field (save_config_dict config) f = None.
Proof.
  intros Hf. destruct (save_config_dict_sections config) as [Hd _].
  set_unfold in Hf.
  destruct Hf as [->|[->|[->|[->|[->|[]]]]]]; unfold lookup_field;
    cbn [Field.section Field.key]; rewrite ?Hd;
    unfold save_config_dict, save_display_dict;
    destruct (projects_dirs config) as [[|p l]|]; solve_saved_lookup.
Qed.

(** [projects_dirs] is written exactly when the list is set and not
    empty. *)
Lemma projects_dirs_omitted config :
  save_config_dict config !! "projects_dirs" = None ↔
  projects_dirs config = None ∨ projects_dirs config = Some [].
Proof.
  unfold save_config_dict.
  destruct (projects_dirs config) as [[|p l]|]; solve_saved_lookup.
  - split; [by right | done].
  - split; [done | by intros [|]].
  - split; [by left | done].
Qed.

Lemma projects_dirs_omitted_not config v :
  save_config_dict config !! "projects_dirs" = Some v →
  ∃ p l, projects_dirs config = Some (p :: l).
Proof.
  intros Hv. destruct (projects_dirs config) as [[|p l]|] eqn:E; [| eauto |];
    (assert (save_config_dict config !! "projects_dirs" = None) as Hn
       by (apply projects_dirs_omitted; rewrite E; tauto);
     by rewrite Hn in Hv).
Qed.

Lemma no_overrides_empty w : environ w = ∅ → no_overrides w.
Proof.
  intros He var _. unfold getenv_nonempty, getenv. by rewrite He, lookup_empty.
Qed.

(** A path text without alias or variable syntax is left alone by
    expansion. *)
Lemma plain_path_fixed w q :
  Expand.plain (str_of q) = true → expand_path w (str_of q) = q.
Proof. intros Hq. rewrite (expand_path_plain _ _ Hq). by destruct q. Qed.


End roundtrip_4.



Section roundtrip_5.

Context {runtime : Python}.

(** C10: [disable_cache], [recent_activity_window_hours],
    [display.show_tool_usage] and [display.theme] are not written by
    [save_config]; after a save and a load without overrides each of them
    is at its schema default, whatever it was in the saved configuration. *)
Theorem C10_unsaved_fields_reset w config p w1 :
  save_config w config p = Ok w1 →
  no_overrides w →
  ∃ cfg',
    load_config w1 (Some p) = (w2 ← model_post_init w1 cfg'; Ok (cfg', w2)) ∧
    (∀ cfg'' w2, load_config w1 (Some p) = Ok (cfg'', w2) → cfg'' = cfg') ∧
    ∀ f, f ∈ [Field.disable_cache; Field.recent_activity_window_hours;
              Field.show_tool_usage; Field.theme] →
         lookup_field (save_config_dict config) f = None ∧
         field_value cfg' f = schema_default w f.
Proof.
  intros Hsave Hno.
  destruct (load_after_save _ _ _ _ Hsave) as (_ & _ & Hload).
  specialize (Hload Hno).
  exists (reloaded w config). split; [exact Hload|]. split.
  - intros cfg'' w2 Hok. rewrite Hload in Hok.
    apply bind_ok in Hok as (w' & _ & Hok). by injection Hok as <- _.
  - intros f Hf. split.
    + apply unsaved_fields. set_unfold in Hf. set_unfold. tauto.
    + set_unfold in Hf. destruct Hf as [->|[->|[->|[->|[]]]]]; reflexivity.
Qed.

End roundtrip_5.

Lemma C10_unsaved_fields_reset_witness :
  ∃ w1 cfg',
    save_config Sample.empty_world Sample.custom_config Sample.config_file
    = Ok w1 ∧
    load_config w1 (Some Sample.config_file)
    = (w2 ← model_post_init w1 cfg'; Ok (cfg', w2)) ∧
    disable_cache cfg' = false ∧ recent_activity_window_hours cfg' = 5 ∧
    show_tool_usage (display cfg') = false ∧ theme (display cfg') = DEFAULT.
Proof.
  set (w := Sample.empty_world). set (config := Sample.custom_config).
  assert (Hsave : ∃ w1, save_config w config Sample.config_file = Ok w1)
    by (eexists; vm_compute; reflexivity).
  destruct Hsave as [w1 Hsave].
  destruct (C10_unsaved_fields_reset w config Sample.config_file w1 Hsave
              (no_overrides_empty w eq_refl)) as (cfg' & Hload & _ & Hreset).
  exists w1, cfg'. split; [exact Hsave|]. split; [exact Hload|].
  split; [|split; [|split]].
  - destruct (Hreset Field.disable_cache ltac:(set_unfold; tauto)) as [_ Hf].
    by injection Hf.
  - destruct (Hreset Field.recent_activity_window_hours ltac:(set_unfold; tauto))
      as [_ Hf].
    by injection Hf.
  - destruct (Hreset Field.show_tool_usage ltac:(set_unfold; tauto)) as [_ Hf].
    by injection Hf.
  - destruct (Hreset Field.theme ltac:(set_unfold; tauto)) as [_ Hf].
    by injection Hf.
Defined.

Lemma C8_parse_bool_value_witness :
  _parse_bool_value "Yes" = true ∧ _parse_bool_value "maybe" = false.
Proof.
  split.
  - apply (proj1 (C8_parse_bool_value "Yes")). exists "yes"%string.
    split; [set_unfold; tauto | reflexivity].
  - apply (proj2 (C8_parse_bool_value "maybe")). intros token Hin.
    set_unfold in Hin. destruct Hin as [->|[->|[->|[->|[]]]]]; reflexivity.
Defined.

(** A configuration built by hand around a path with the home alias gets
    the path back expanded. *)
Example alias_path_is_expanded_on_load :
  ∀ w config, w = Sample.world ∅ ∅ → config = Config_default w →
  projects_dir
    (reloaded w
       {| projects_dir := Path "~/projects"; projects_dirs := None;
          polling_interval := 5; timezone := timezone config;
          token_limit := None; cache_dir := cache_dir config;
          disable_cache := false; display := display config;
          notifications := notifications config;
          recent_activity_window_hours := 5 |})
  = Path "/home/u/projects".
Proof. intros w config -> ->. vm_compute. reflexivity. Qed.

(* ===================================================================== *)
(** * Directories on disk through loading and saving *)
(* ===================================================================== *)

Section defaults_and_limit.

Context {runtime : Python}.

Lemma Path_str_of p : Path (str_of p) = p.
Proof. by destruct p. Qed.

Lemma expand_path_plain_path w p :
  Expand.plain (str_of p) = true → expand_path w (str_of p) = p.
Proof. intros H. rewrite expand_path_plain by done. apply Path_str_of. Qed.

Lemma mkdir_keeps w p w' q e :
  mkdir w p = Ok w' → fs w !! q = Some e → fs w' !! q = Some e.
Proof.
  unfold mkdir. destruct (fs w !! str_of p) as [[| |c]|] eqn:Hp; try discriminate.
  - by intros [= <-].
  - intros [= <-] Hq. simpl. rewrite lookup_insert_ne; [done|]. congruence.
Qed.

Lemma mkdir_made w p w' : mkdir w p = Ok w' → fs w' !! str_of p = Some Directory.
Proof.
  unfold mkdir. destruct (fs w !! str_of p) as [[| |c]|] eqn:Hp; try discriminate.
  - by intros [= <-].
  - intros [= <-]. simpl. by rewrite lookup_insert_eq.
Qed.

Lemma mkdir_elsewhere w p w' q :
  mkdir w p = Ok w' → q ≠ str_of p → fs w' !! q = fs w !! q.
Proof.
  unfold mkdir. destruct (fs w !! str_of p) as [[| |c]|] eqn:Hp; try discriminate.
  - by intros [= <-].
  - intros [= <-] Hq. simpl. by rewrite lookup_insert_ne.
Qed.

Lemma mkdir_existing w p : fs w !! str_of p = Some Directory → mkdir w p = Ok w.
Proof. unfold mkdir. by intros ->. Qed.

Lemma write_yaml_keeps_dir w p d w' q :
  write_yaml w p d = Ok w' → fs w !! q = Some Directory → fs w' !! q = Some Directory.
Proof.
  unfold write_yaml. intros H Hq.
  destruct (decide (q = str_of p)) as [->|Hne].
  - rewrite Hq in H. discriminate.
  - destruct (fs w !! str_of p) as [[| |[]]|]; try discriminate;
      injection H as <-; simpl; by rewrite lookup_insert_ne.
Qed.

(** A save never replaces or removes a directory. *)
Lemma save_config_keeps_dir w config p w' q :
  save_config w config p = Ok w' →
  fs w !! q = Some Directory → fs w' !! q = Some Directory.
Proof.
  unfold save_config, ensure_xdg_directories. intros H Hq.
  apply bind_ok in H as (wa & Ha & H). apply bind_ok in H as (wb & Hb & H).
  eapply write_yaml_keeps_dir; [exact H|].
  eapply mkdir_keeps; [exact Hb|]. eapply mkdir_keeps; [exact Ha|]. done.
Qed.

Lemma load_config_world w cf cfg w2 :
  load_config w cf = Ok (cfg, w2) → same_process w w2.
Proof.
  intros Hload.
  destruct (load_config_loaded _ _ _ _ Hload) as (file & w1 & Hfile).
  apply load_config_inv in Hload as (d & w1' & Hm & _ & Hp).
  destruct (merged_config_inv _ _ _ _ _ _ Hfile Hm) as (-> & _).
  eapply same_process_trans; [by eapply load_config_file_world|].
  by eapply mkdir_world.
Qed.

Lemma reloaded_unsaved w c f :
  f ∈ unsaved → field_value (reloaded w c) f = schema_default w f.
Proof.
  unfold unsaved. set_unfold. intros Hf.
  destruct Hf as [->|[->|[->|[->|[->|[]]]]]]; reflexivity.
Qed.

Lemma reloaded_saved w c f :
  expand_path w (str_of (projects_dir c)) = projects_dir c →
  expand_path w (str_of (cache_dir c)) = cache_dir c →
  is_Some (lookup_field (save_config_dict c) f) →
  field_value (reloaded w c) f = field_value c f.
Proof.
  intros Hpd Hcd [v Hv].
  assert (Hunsaved : ∀ g, g ∈ unsaved → f ≠ g).
  { intros g Hg ->. by rewrite (unsaved_fields _ _ Hg) in Hv. }
  destruct f; cbn [field_value reloaded reloaded_display projects_dir cache_dir
                     display polling_interval timezone token_limit notifications
                     show_progress_bars show_active_sessions update_in_place
                     refresh_interval time_format project_name_prefixes
                     display_mode show_pricing];
    try reflexivity;
    try (exfalso; eapply Hunsaved; [|reflexivity]; unfold unsaved; set_unfold; tauto).
  - by rewrite Hpd.
  - unfold lookup_field in Hv. cbn [Field.section Field.key] in Hv.
    apply projects_dirs_omitted_not in Hv as (p' & l & E).
    cbn [reloaded projects_dirs]. by rewrite E.
  - by rewrite Hcd.
Qed.

(** A saved file loads, when no override is set and the cache directory of
    the saved configuration is there, to the saved fields and the defaults
    of the others, and the load changes nothing. *)
Lemma load_after_save_settled w config p w1 :
  save_config w config p = Ok w1 →
  no_overrides w →
  expand_path w (str_of (cache_dir config)) = cache_dir config →
  fs w !! str_of (cache_dir config) = Some Directory →
  load_config w1 (Some p) = Ok (reloaded w config, w1).
Proof.
  intros Hsave Hno Hcd Hdir.
  destruct (load_after_save _ _ _ _ Hsave) as (_ & _ & Hload).
  rewrite (Hload Hno). unfold model_post_init.
  cbn [reloaded cache_dir]. rewrite Hcd.
  rewrite (mkdir_existing w1); [done|].
  by eapply save_config_keeps_dir.
Qed.

Lemma load_config_cache_dir w cf cfg w2 :
  load_config w cf = Ok (cfg, w2) →
  fs w2 !! str_of (cache_dir cfg) = Some Directory.
Proof.
  intros Hload. apply load_config_inv in Hload as (d & w1 & _ & _ & Hp).
  by apply mkdir_made in Hp.
Qed.

Lemma set_token_limit_saved cfg n f :
  f ≠ Field.token_limit →
  lookup_field (save_config_dict (set_token_limit cfg n)) f
  = lookup_field (save_config_dict cfg) f.
Proof.
  intros Hf. unfold lookup_field, save_config_dict.
  cbn [set_token_limit projects_dirs projects_dir polling_interval timezone
         token_limit cache_dir].
  destruct (projects_dirs cfg) as [[|q l]|];
    destruct f; try done; cbn [Field.section Field.key]; by solve_lookup.
Qed.

(* ===================================================================== *)
(** * The defaults file *)
(* ===================================================================== *)

(** X1: [save_default_config] writes the defaults whatever the environment
    holds, since [Config()] reads no variable.  With no override set and
    default directories free of alias and variable syntax, [load_config] on
    the written file then returns the default configuration and changes
    nothing. *)
Theorem X1_save_default_config_loads_defaults w p w1 :
  save_default_config w p = Ok w1 →
  fs w1 !! str_of p
  = Some (RegularFile (Document (VDict (save_config_dict (Config_default w))))) ∧
  (no_overrides w →
   Expand.plain (str_of (default_projects_dir w)) = true →
   Expand.plain (str_of (default_cache_dir w)) = true →
   load_config w1 (Some p) = Ok (Config_default w, w1)).
Proof.
  intros Hsave. unfold save_default_config in Hsave.
  apply bind_ok in Hsave as ([c w'] & Hnew & Hsave).
  unfold Config_new in Hnew. rewrite Config_validate_empty in Hnew.
  apply bind_ok in Hnew as (w'' & Hmk & [= <- <-]).
  unfold model_post_init in Hmk. cbn [Config_default cache_dir] in Hmk.
  pose proof (mkdir_world _ _ _ Hmk) as Hw.
  split; [by apply save_config_written in Hsave as [_ ?]|].
  intros Hno Hpd Hcd.
  rewrite (load_after_save_settled w'' (Config_default w) p w1 Hsave).
  - f_equal. f_equal. rewrite (reloaded_same_process w w'') by done.
    unfold reloaded, Config_default.
    cbn [projects_dir projects_dirs polling_interval timezone token_limit
           cache_dir notifications display].
    by rewrite !expand_path_plain_path by done.
  - by eapply no_overrides_same_process.
  - cbn [Config_default cache_dir].
    rewrite (expand_path_same_process w w'') by done. by apply expand_path_plain_path.
  - by apply mkdir_made in Hmk.
Qed.

End defaults_and_limit.

Lemma X1_save_default_config_loads_defaults_witness :
  load_config (Scenario.saved ∅ (Config_default Sample.empty_world))
    (Some Sample.config_file)
  = Ok (Config_default Sample.empty_world,
        Scenario.saved ∅ (Config_default Sample.empty_world)).
Proof.
  apply (X1_save_default_config_loads_defaults Sample.empty_world Sample.config_file).
  - reflexivity.
  - by apply no_overrides_empty.
  - reflexivity.
  - reflexivity.
Defined.

Example save_default_config_ignores_overrides :
  save_default_config (Sample.world {[ "PAR_CC_USAGE_POLLING_INTERVAL" := "20" ]} ∅)
    Sample.config_file
  = Ok (Scenario.saved {[ "PAR_CC_USAGE_POLLING_INTERVAL" := "20" ]} (Scenario.polling 5)).
Proof. reflexivity. Qed.

(* ===================================================================== *)
(** * Updating the token limit *)
(* ===================================================================== *)

Section defaults_and_limit_2.

Context {runtime : Python}.

(** Every field [save_config] writes is written as [dumped] says. *)
Lemma save_config_dict_field config f :
  f ∉ unsaved →
  (f = Field.projects_dirs → ∃ q l, projects_dirs config = Some (q :: l)) →
  lookup_field (save_config_dict config) f = Some (dumped (field_value config f)).
Proof.
  intros Hsaved Hdirs. unfold lookup_field, save_config_dict.
  destruct f; cbn [Field.section Field.key field_value dumped];
    try (exfalso; apply Hsaved; unfold unsaved; set_unfold; tauto);
    try (destruct (Hdirs eq_refl) as (q & l & ->));
    try (destruct (projects_dirs config) as [[|q l]|]);
    unfold save_display_dict, save_notifications_dict; by solve_lookup.
Qed.

(** X2: [update_config_token_limit] creates no file: it does nothing when the
    file is absent.  When the file is there, the file it writes holds the
    new limit and, for every other field [save_config] writes that an
    override is in force for, the validated value of the override as
    [save_config] dumps it, so the override replaces what the file held;
    only an override that empties the directory list writes nothing. *)
Theorem X2_update_config_token_limit_writes_resolved w p n :
  (fs w !! str_of p = None → update_config_token_limit w p n = Ok w) ∧
  (∀ w1, update_config_token_limit w p n = Ok w1 →
         fs w !! str_of p ≠ None →
         ∃ cfg w' d,
           load_config w (Some p) = Ok (cfg, w') ∧
           fs w1 !! str_of p = Some (RegularFile (Document (VDict d))) ∧
           lookup_field d Field.token_limit = Some (VInt n) ∧
           ∀ f v, env_override w f = Some v →
                  f ∉ unsaved → f ≠ Field.token_limit →
                  field_value cfg f ≠ TOptPaths (Some []) →
                  ∃ x, validate_as (Field.type_of f) v = Some x ∧
                       lookup_field d f = Some (dumped x)).
Proof.
  unfold update_config_token_limit, path_exists. split.
  - by intros ->.
  - intros w1 H Hp.
    assert (Hboth : ∃ cfg w', load_config w (Some p) = Ok (cfg, w') ∧
                              save_config w' (set_token_limit cfg n) p = Ok w1).
    { destruct (fs w !! str_of p) as [[| |c]|]; try done;
        cbn [mbind result_bind] in H;
        apply bind_ok in H as ([cfg w'] & Hload & Hsave); eauto. }
    destruct Hboth as (cfg & w' & Hload & Hsave).
    exists cfg, w', (save_config_dict (set_token_limit cfg n)).
    split; [done|].
    split; [by apply save_config_written in Hsave as [_ ?]|].
    split.
    { unfold lookup_field, save_config_dict.
      cbn [Field.section Field.key set_token_limit token_limit projects_dirs].
      destruct (projects_dirs cfg) as [[|q l]|]; by solve_lookup. }
    intros f v Hv Hsaved Hne Hdirs.
    destruct (load_config_loaded _ _ _ _ Hload) as (file & wf & Hfile).
    pose proof (resolved_field _ _ _ _ _ _ f Hfile Hload) as Hf.
    rewrite Hv in Hf. exists (field_value cfg f). split; [done|].
    rewrite set_token_limit_saved by done.
    apply save_config_dict_field; [done|]. intros ->.
    unfold env_override in Hv. cbn [env_var_of mbind option_bind] in Hv.
    destruct (getenv_nonempty w "CLAUDE_CONFIG_DIR") as [text|]; [|done].
    cbn [mbind option_bind coerce] in Hv. injection Hv as <-.
    cbn [Field.type_of validate_as val_optional val_list] in Hf.
    rewrite mapM_val_path in Hf. cbn [field_value] in Hf, Hdirs.
    injection Hf as Hf. rewrite <- Hf in Hdirs |- *.
    destruct (claude_dirs_paths text) as [|q l]; [done|eauto].
Qed.

End defaults_and_limit_2.

Lemma X2_update_config_token_limit_writes_resolved_witness :
  ∃ d,
    fs (Scenario.saved {[ "PAR_CC_USAGE_POLLING_INTERVAL" := "20" ]}
          (set_token_limit (Scenario.polling 20) 1000))
      !! str_of Sample.config_file
    = Some (RegularFile (Document (VDict d))) ∧
    d !! "token_limit"%string = Some (VInt 1000) ∧
    d !! "polling_interval"%string = Some (VInt 20).
Proof.
  assert (Hup : update_config_token_limit Sample.polling_world Sample.config_file 1000
                = Ok (Scenario.saved {[ "PAR_CC_USAGE_POLLING_INTERVAL" := "20" ]}
                        (set_token_limit (Scenario.polling 20) 1000)))
    by reflexivity.
  assert (Hcfg : load_config Sample.polling_world (Some Sample.config_file)
                 = Ok (Scenario.polling 20,
                       Scenario.loaded {[ "PAR_CC_USAGE_POLLING_INTERVAL" := "20" ]}
                         (VDict {[ "polling_interval" := VInt 10 ]})))
    by reflexivity.
  destruct (proj2 (X2_update_config_token_limit_writes_resolved
                     Sample.polling_world Sample.config_file 1000)
              _ Hup ltac:(discriminate))
    as (cfg & w' & d & Hload & Hfile & Hlimit & Henv).
  exists d. split; [exact Hfile|]. split; [exact Hlimit|].
  rewrite Hcfg in Hload. injection Hload as <- <-.
  assert (Hov : env_override Sample.polling_world Field.polling_interval
                = Some (VInt 20)) by reflexivity.
  destruct (Henv Field.polling_interval (VInt 20) Hov
              ltac:(unfold unsaved; set_unfold; intuition discriminate)
              ltac:(discriminate) ltac:(discriminate))
    as (x & Hx & Hd).
  injection Hx as <-. exact Hd.
Defined.

Section defaults_and_limit_3.

Context {runtime : Python}.

(** X3: updating the token limit of an existing file and loading it again,
    with no override set and resolved paths free of alias and variable
    syntax: the limit is the new one, every other saved field is as it was
    resolved before the update, the fields [save_config] leaves out are
    back at their defaults, and the load changes nothing on disk. *)
Theorem X3_update_config_token_limit_then_load w p n cfg w' w1 :
  fs w !! str_of p ≠ None →
  load_config w (Some p) = Ok (cfg, w') →
  update_config_token_limit w p n = Ok w1 →
  no_overrides w →
  Expand.plain (str_of (projects_dir cfg)) = true →
  Expand.plain (str_of (cache_dir cfg)) = true →
  ∃ cfg',
    load_config w1 (Some p) = Ok (cfg', w1) ∧
    token_limit cfg' = Some n ∧
    (∀ f, f ∈ unsaved → field_value cfg' f = schema_default w f) ∧
    (∀ f, is_Some (lookup_field (save_config_dict cfg) f) →
          f ≠ Field.token_limit → field_value cfg' f = field_value cfg f).
Proof.
  intros Hp Hload Hup Hno Hpd Hcd.
  assert (Hsave : save_config w' (set_token_limit cfg n) p = Ok w1).
  { unfold update_config_token_limit, path_exists in Hup.
    destruct (fs w !! str_of p) as [[| |c]|]; try done;
      cbn [mbind result_bind] in Hup; rewrite Hload in Hup; exact Hup. }
  pose proof (load_config_world _ _ _ _ Hload) as Hw.
  exists (reloaded w' (set_token_limit cfg n)).
  split; [|split; [|split]].
  - apply load_after_save_settled; try done.
    + by eapply no_overrides_same_process.
    + cbn [set_token_limit cache_dir]. by apply expand_path_plain_path.
    + cbn [set_token_limit cache_dir]. by eapply load_config_cache_dir.
  - reflexivity.
  - intros f Hf. rewrite reloaded_unsaved by done.
    by apply schema_default_same_process.
  - intros f Hf Hne.
    rewrite reloaded_saved.
    + by destruct f.
    + cbn [set_token_limit projects_dir]. by apply expand_path_plain_path.
    + cbn [set_token_limit cache_dir]. by apply expand_path_plain_path.
    + by rewrite set_token_limit_saved.
Qed.

End defaults_and_limit_3.

Lemma X3_update_config_token_limit_then_load_witness :
  ∃ cfg',
    load_config (Scenario.saved ∅ (set_token_limit (Scenario.polling 10) 1000))
      (Some Sample.config_file)
    = Ok (cfg', Scenario.saved ∅ (set_token_limit (Scenario.polling 10) 1000)) ∧
    token_limit cfg' = Some 1000 ∧ polling_interval cfg' = 10.
Proof.
  destruct (X3_update_config_token_limit_then_load (runtime := ascii_python)
              (Scenario.installed ∅ (VDict {[ "polling_interval" := VInt 10 ]}))
              Sample.config_file 1000 (Scenario.polling 10)
              (Scenario.loaded ∅ (VDict {[ "polling_interval" := VInt 10 ]}))
              (Scenario.saved ∅ (set_token_limit (Scenario.polling 10) 1000))
              ltac:(discriminate) ltac:(reflexivity) ltac:(reflexivity)
              ltac:(by apply no_overrides_empty)
              ltac:(reflexivity) ltac:(reflexivity))
    as (cfg' & Hre & Hlimit & _ & Hsaved).
  exists cfg'. split; [exact Hre|]. split; [exact Hlimit|].
  specialize (Hsaved Field.polling_interval ltac:(by eexists) ltac:(discriminate)).
  by injection Hsaved.
Defined.

(* ===================================================================== *)
(** * What a save leaves out *)
(* ===================================================================== *)

Section defaults_and_limit_4.

Context {runtime : Python}.

(** X4: the fields [save_config] writes no key for are exactly
    [disable_cache], [recent_activity_window_hours] and, in the display
    section, [aggregate_by_project], [show_tool_usage] and [theme], besides
    the directory list when it is unset or empty. *)
Theorem X4_save_config_omits config f :
  lookup_field (save_config_dict config) f = None ↔
  f ∈ unsaved ∨
  (f = Field.projects_dirs ∧
   (projects_dirs config = None ∨ projects_dirs config = Some [])).
Proof.
  split.
  - intros Hnone.
    destruct (decide (f ∈ unsaved)) as [|Hsaved]; [by left|]. right.
    destruct (decide (f = Field.projects_dirs)) as [->|Hne].
    + split; [done|]. by apply projects_dirs_omitted.
    + exfalso. revert Hnone. unfold lookup_field, save_config_dict.
      destruct (projects_dirs config) as [[|q l]|];
        destruct f; try done; cbn [Field.section Field.key];
        solve_lookup; try discriminate;
        exfalso; apply Hsaved; unfold unsaved; set_unfold; tauto.
  - intros [Hf|[-> Hdirs]].
    + by apply unsaved_fields.
    + by apply projects_dirs_omitted.
Qed.

End defaults_and_limit_4.

(* ===================================================================== *)
(** * What loading raises, and what it leaves on disk *)
(* ===================================================================== *)

Section load_errors.

Context {runtime : Python}.

Lemma setitem_raises o key v e : setitem o key v = Raise e → e = TypeError.
Proof. destruct o; simpl; congruence. Qed.

Lemma apply_env_overrides_raises w mapping : ∀ o e,
  _apply_env_overrides w o mapping = Raise e → e = TypeError.
Proof.
  induction mapping as [|[env_var config_key] rest IH]; intros o e; simpl.
  - discriminate.
  - destruct (getenv_nonempty w env_var) as [text|]; [|apply IH].
    destruct (_parse_env_value w text config_key) as [v|]; [|apply IH].
    destruct (setitem o config_key v) as [o'|e'] eqn:Hset; simpl.
    + apply IH.
    + intros [= <-]. by eapply setitem_raises.
Qed.

Lemma apply_nested_raises w o sec mapping e :
  _apply_nested_env_overrides w o sec mapping = Raise e →
  if is_dict o then e = TypeError else e = AttributeError.
Proof.
  unfold _apply_nested_env_overrides.
  destruct o; simpl; try (by intros [= <-]).
  destruct (_apply_env_overrides w _ mapping) as [sd'|e'] eqn:Happ; simpl.
  - by destruct (truthy sd').
  - intros [= <-]. by eapply apply_env_overrides_raises.
Qed.

Lemma claude_override_raises w o e :
  _apply_claude_config_dir_override w o = Raise e → e = TypeError.
Proof.
  unfold _apply_claude_config_dir_override.
  destruct (getenv_nonempty w "CLAUDE_CONFIG_DIR"); [apply setitem_raises | discriminate].
Qed.

Lemma bind_raise {A B} (m : result A) (k : A → result B) e :
  m ≫= k = Raise e → m = Raise e ∨ ∃ a, m = Ok a ∧ k a = Raise e.
Proof. destruct m; simpl; eauto. intros [= <-]. by left. Qed.

(** Building the merged mapping fails only with [TypeError], with the
    [ValueError] of the YAML loader, or with [AttributeError], and with the
    latter only on a document that is not a mapping. *)
Lemma merged_config_raises w cf e :
  merged_config w cf = Raise e →
  e = TypeError ∨
  (e = ValueError ∧ _load_config_file w cf = Raise ValueError) ∨
  (e = AttributeError ∧ ∃ o w1, _load_config_file w cf = Ok (o, w1) ∧ is_dict o = false).
Proof.
  unfold merged_config.
  destruct (_load_config_file w cf) as [[o w1]|e0] eqn:Hfile.
  - cbn [try_except mbind result_bind]. intros H.
    apply bind_raise in H as [H|(c1 & H1 & H)];
      [left; by eapply claude_override_raises|].
    apply bind_raise in H as [H|(c2 & H2 & H)];
      [left; by eapply apply_env_overrides_raises|].
    assert (Hdict : is_dict c2 = is_dict o).
    { destruct (is_dict o) eqn:Ho.
      - destruct o; try discriminate. unfold _apply_claude_config_dir_override in H1.
        assert (is_dict c1 = true) as Hc1
          by (destruct (getenv_nonempty w1 "CLAUDE_CONFIG_DIR"); by injection H1 as <-).
        destruct c1; try discriminate.
        destruct (apply_env_overrides_dict w1 _get_top_level_env_mapping d0)
          as (d2 & Hd2 & _).
        rewrite Hd2 in H2. by injection H2 as <-.
      - unfold _apply_claude_config_dir_override in H1.
        assert (c1 = o) as ->.
        { destruct (getenv_nonempty w1 "CLAUDE_CONFIG_DIR").
          - destruct o; discriminate.
          - by injection H1. }
        by apply apply_env_overrides_other in H2 as [-> _]. }
    apply bind_raise in H as [H|(c3 & H3 & H)].
    + apply apply_nested_raises in H. rewrite Hdict in H.
      destruct (is_dict o) eqn:Ho; [by left|]. right. right. eauto.
    + apply bind_raise in H as [H|(c4 & H4 & H)]; [|discriminate].
      apply apply_nested_raises in H.
      assert (is_dict c3 = true) as Hc3.
      { destruct (is_dict c2) eqn:Hc2.
        - destruct c2; try discriminate.
          by apply apply_nested_dict in H3 as (d3 & -> & _).
        - by apply apply_nested_other in H3. }
      rewrite Hc3 in H. by left.
  - pose proof Hfile as Hraise.
    apply load_config_file_raises in Hraise as [-> | ->];
      cbn [try_except is_OSError mbind result_bind]; intros [= <-]; tauto.
Qed.

Lemma mkdir_raises w p e :
  mkdir w p = Raise e →
  (e = PermissionError ∧ fs w !! str_of p = Some Denied) ∨
  (e = FileExistsError ∧ ∃ c, fs w !! str_of p = Some (RegularFile c)).
Proof.
  unfold mkdir. destruct (fs w !! str_of p) as [[| |c]|]; try discriminate;
    intros [= <-]; eauto.
Qed.

(** X5: [load_config] never raises [FileNotFoundError],
    [IsADirectoryError], [UnicodeDecodeError] or [YAMLError]: the loader
    absorbs them.  What it raises is the [ValueError] of a document the
    YAML loader fails to build, a [TypeError] or [AttributeError] on a
    document or a section that is not a mapping, the validation error,
    which names at least one location, or, once the merged mapping has
    been validated, the error of creating the cache directory. *)
Theorem X5_load_config_raises w cf e :
  load_config w cf = Raise e →
  is_read_error e = false ∧
  (e = ValueError ∨ e = TypeError ∨ e = AttributeError ∨
   (∃ errors, e = ValidationError errors ∧ errors ≠ []) ∨
   (∃ d w1 cfg, merged_config w cf = Ok (VDict d, w1) ∧
                Config_validate w1 d = Valid cfg ∧
                mkdir w1 (cache_dir cfg) = Raise e)).
Proof.
  intros H. unfold load_config in H.
  apply bind_raise in H as [H|([o w1] & Hm & H)].
  - apply merged_config_raises in H as [->|[[-> _]|[-> _]]]; split; tauto.
  - unfold Config_new in H. destruct o; try (injection H as <-; split; tauto).
    pose proof (Config_validate_proper w1 d) as Hproper.
    destruct (Config_validate w1 d) as [cfg|errors] eqn:Hv.
    + apply bind_raise in H as [H|(w2 & _ & H)]; [|discriminate].
      unfold model_post_init in H. split.
      * by apply mkdir_raises in H as [[-> _]|[-> _]].
      * right. right. right. right. eauto 10.
    + injection H as <-. split; [done|]. right. right. right. left. eauto.
Qed.

End load_errors.

Lemma X5_load_config_raises_witness :
  load_config Sample.invalid_world None
  = Raise (ValidationError [[Key "polling_interval"]; [Key "display"; Key "theme"]]) ∧
  is_read_error
    (ValidationError [[Key "polling_interval"]; [Key "display"; Key "theme"]])
  = false.
Proof.
  assert (H : load_config Sample.invalid_world None
              = Raise (ValidationError
                         [[Key "polling_interval"]; [Key "display"; Key "theme"]]))
    by reflexivity.
  split; [exact H|].
  exact (proj1 (X5_load_config_raises Sample.invalid_world None _ H)).
Defined.

Section load_errors_2.

Context {runtime : Python}.

(** X6: after [load_config] has returned, the cache directory of the
    configuration exists as a directory; where a regular file is in its
    place the load fails with [FileExistsError]. *)
Theorem X6_load_config_creates_cache_dir w cf :
  (∀ cfg w2, load_config w cf = Ok (cfg, w2) →
             fs w2 !! str_of (cache_dir cfg) = Some Directory) ∧
  (∀ d w1 cfg c,
     merged_config w cf = Ok (VDict d, w1) →
     Config_validate w1 d = Valid cfg →
     fs w1 !! str_of (cache_dir cfg) = Some (RegularFile c) →
     load_config w cf = Raise FileExistsError).
Proof.
  split.
  - intros cfg w2 Hload. apply load_config_inv in Hload as (d & w1 & _ & _ & Hp).
    unfold model_post_init in Hp. revert Hp. unfold mkdir.
    destruct (fs w1 !! str_of (cache_dir cfg)) as [[| |c]|] eqn:Hc; try discriminate.
    + by intros [= <-].
    + intros [= <-]. simpl. by rewrite lookup_insert_eq.
  - intros d w1 cfg c Hm Hv Hc. unfold load_config. rewrite Hm.
    cbn [mbind result_bind Config_new]. rewrite Hv.
    unfold model_post_init, mkdir. by rewrite Hc.
Qed.

End load_errors_2.

Lemma X6_load_config_creates_cache_dir_witness :
  fs (Scenario.loaded ∅ (VDict {[ "polling_interval" := VInt 10 ]}))
    !! str_of (cache_dir (Scenario.polling 10)) = Some Directory ∧
  load_config
    (Sample.world ∅ {[ Scenario.cache := RegularFile (Document VNone) ]}) None
  = Raise FileExistsError.
Proof.
  split.
  - apply (proj1 (X6_load_config_creates_cache_dir
                    (Scenario.installed ∅ (VDict {[ "polling_interval" := VInt 10 ]}))
                    None)).
    reflexivity.
  - set (w := Sample.world ∅ {[ Scenario.cache := RegularFile (Document VNone) ]}).
    apply (proj2 (X6_load_config_creates_cache_dir w None)
             ∅ w (Scenario.polling 5) (Document VNone));
      reflexivity.
Defined.

(* ===================================================================== *)
(** * Loading twice *)
(* ===================================================================== *)

Section load_twice.

Context {runtime : Python}.

Lemma locate_present w cf :
  fs w !! str_of (default (config_file_path w) cf) ≠ None →
  locate_config_file w cf = Ok (default (config_file_path w) cf, w).
Proof.
  unfold locate_config_file, path_exists. intros H.
  by destruct (fs w !! str_of (default (config_file_path w) cf)) as [[| |c]|].
Qed.

Lemma read_config_file_same w w' p :
  same_process w w' → fs w' !! str_of p = fs w !! str_of p →
  read_config_file w' p = read_config_file w p.
Proof.
  intros [g ->] Hp. unfold read_config_file, path_exists, read_yaml.
  rewrite Hp.
  by destruct (fs w !! str_of p) as [[| |[| | | |v]]|].
Qed.

Lemma getenv_nonempty_set_fs w g var :
  getenv_nonempty (set_fs w g) var = getenv_nonempty w var.
Proof. reflexivity. Qed.

Lemma parse_env_value_set_fs w g text key :
  _parse_env_value (set_fs w g) text key = _parse_env_value w text key.
Proof. reflexivity. Qed.

Lemma apply_env_overrides_set_fs w g mapping : ∀ o,
  _apply_env_overrides (set_fs w g) o mapping = _apply_env_overrides w o mapping.
Proof.
  induction mapping as [|[env_var config_key] rest IH]; intros o; [done|].
  cbn [_apply_env_overrides].
  rewrite getenv_nonempty_set_fs.
  destruct (getenv_nonempty w env_var) as [text|]; [|apply IH].
  rewrite parse_env_value_set_fs.
  destruct (_parse_env_value w text config_key) as [v|]; [|apply IH].
  destruct (setitem o config_key v); cbn [mbind result_bind]; [apply IH | done].
Qed.

Lemma apply_nested_set_fs w g o sec mapping :
  _apply_nested_env_overrides (set_fs w g) o sec mapping
  = _apply_nested_env_overrides w o sec mapping.
Proof.
  unfold _apply_nested_env_overrides.
  destruct (get_or_empty o sec); cbn [mbind result_bind]; [|done].
  by rewrite apply_env_overrides_set_fs.
Qed.

Lemma claude_override_set_fs w g o :
  _apply_claude_config_dir_override (set_fs w g) o
  = _apply_claude_config_dir_override w o.
Proof. reflexivity. Qed.

(** The merged mapping depends on the world through the environment, the
    home directory and the configuration file only. *)
Lemma merged_config_same w w' cf o :
  same_process w w' →
  fs w !! str_of (default (config_file_path w) cf) ≠ None →
  fs w' !! str_of (default (config_file_path w) cf)
  = fs w !! str_of (default (config_file_path w) cf) →
  merged_config w cf = Ok (o, w) →
  merged_config w' cf = Ok (o, w').
Proof.
  intros Hw Hp Hsame. unfold merged_config, _load_config_file.
  rewrite (locate_present w cf Hp).
  assert (Hcf : config_file_path w' = config_file_path w)
    by (by destruct Hw as [g ->]).
  assert (Hp' : fs w' !! str_of (default (config_file_path w') cf) ≠ None)
    by (by rewrite Hcf, Hsame).
  rewrite (locate_present w' cf Hp'), Hcf. cbn [mbind result_bind].
  rewrite (read_config_file_same w w' _ Hw Hsame).
  pose proof (read_config_file_raises w (default (config_file_path w) cf)) as Hraise.
  destruct (read_config_file w (default (config_file_path w) cf)) as [file|e].
  2:{ destruct (Hraise e eq_refl) as [-> | ->];
        cbn [mbind result_bind try_except is_OSError]; intros H; discriminate H. }
  cbn [mbind result_bind try_except]. intros H.
  apply bind_ok in H as (c1 & H1 & H). apply bind_ok in H as (c2 & H2 & H).
  apply bind_ok in H as (c3 & H3 & H). apply bind_ok in H as (c4 & H4 & H).
  injection H as <-. destruct Hw as [g ->].
  rewrite claude_override_set_fs, H1. cbn [mbind result_bind].
  rewrite apply_env_overrides_set_fs, H2. cbn [mbind result_bind].
  rewrite apply_nested_set_fs, H3. cbn [mbind result_bind].
  by rewrite apply_nested_set_fs, H4.
Qed.

(** X7: [load_config] on a configuration file that is there is idempotent:
    a second load in the world the first one left returns the same
    configuration and the same world; and a load leaves every regular
    file as it is. *)
Theorem X7_load_config_idempotent w cf cfg w2 :
  fs w !! str_of (default (config_file_path w) cf) ≠ None →
  load_config w cf = Ok (cfg, w2) →
  load_config w2 cf = Ok (cfg, w2) ∧
  ∀ q c, fs w !! q = Some (RegularFile c) → fs w2 !! q = Some (RegularFile c).
Proof.
  intros Hp Hload.
  destruct (load_config_loaded _ _ _ _ Hload) as (file & w1 & Hfile).
  assert (w1 = w) as ->.
  { unfold _load_config_file in Hfile. rewrite (locate_present w cf Hp) in Hfile.
    cbn [mbind result_bind] in Hfile.
    destruct (read_config_file w _); [by injection Hfile | discriminate]. }
  pose proof Hload as Hinv.
  apply load_config_inv in Hinv as (d & w1 & Hm & Hv & Hmk).
  destruct (merged_config_inv _ _ _ _ _ _ Hfile Hm) as (-> & _).
  unfold model_post_init in Hmk.
  pose proof (mkdir_world _ _ _ Hmk) as Hw.
  split; [|intros q c Hq; by eapply mkdir_keeps].
  assert (Hsame : fs w2 !! str_of (default (config_file_path w) cf)
                  = fs w !! str_of (default (config_file_path w) cf)).
  { destruct (decide (str_of (default (config_file_path w) cf) = str_of (cache_dir cfg)))
      as [Heq|Hne]; [|by eapply mkdir_elsewhere].
    rewrite Heq in *. rewrite (mkdir_made _ _ _ Hmk).
    revert Hmk. unfold mkdir.
    by destruct (fs w !! str_of (cache_dir cfg)) as [[| |c]|]. }
  unfold load_config.
  rewrite (merged_config_same w w2 cf (VDict d) Hw Hp Hsame Hm).
  cbn [mbind result_bind Config_new].
  assert (Hv2 : Config_validate w2 d = Valid cfg).
  { destruct Hw as [g ->]. rewrite <- Hv. reflexivity. }
  rewrite Hv2. unfold model_post_init.
  by rewrite (mkdir_existing w2 _ (mkdir_made _ _ _ Hmk)).
Qed.

End load_twice.

Lemma X7_load_config_idempotent_witness :
  load_config (Scenario.loaded ∅ (VDict {[ "polling_interval" := VInt 10 ]})) None
  = Ok (Scenario.polling 10,
        Scenario.loaded ∅ (VDict {[ "polling_interval" := VInt 10 ]})).
Proof.
  apply (X7_load_config_idempotent
           (Scenario.installed ∅ (VDict {[ "polling_interval" := VInt 10 ]}))
           None (Scenario.polling 10)).
  - discriminate.
  - reflexivity.
Defined.

(* ===================================================================== *)
(** * Documents and sections that are not mappings *)
(* ===================================================================== *)

Section load_twice_2.

Context {runtime : Python}.

Lemma expand_paths_other w v :
  is_dict v = false →
  _expand_paths_in_config w v = Ok v ∨ _expand_paths_in_config w v = Raise TypeError.
Proof.
  intros Hv. unfold _expand_paths_in_config.
  destruct v; try discriminate; simpl; try (by right).
  - destruct (Str.contains "projects_dir" s); simpl; [by right|].
    destruct (Str.contains "cache_dir" s); simpl; [by right | by left].
  - destruct (existsb _ l); simpl; [by right|].
    destruct (existsb _ l); simpl; [by right | by left].
Qed.

(** X8: a configuration file whose document is not a mapping is not absorbed
    like a file that cannot be read.  A document without truth value
    (an empty file, [null], [0], [false], an empty text or list) counts as the empty
    mapping; any other makes [load_config] raise [TypeError] or
    [AttributeError]. *)
Theorem X8_load_config_document_not_mapping w cf p w1 v :
  locate_config_file w cf = Ok (p, w1) →
  fs w1 !! str_of p = Some (RegularFile (Document v)) →
  is_dict v = false →
  if truthy v
  then ∃ e, load_config w cf = Raise e ∧ (e = TypeError ∨ e = AttributeError)
  else _load_config_file w cf = Ok (VDict ∅, w1).
Proof.
  intros Hloc Hp Hv.
  assert (Hread : read_config_file w1 p
                  = try_except
                      (try_except
                         (_expand_paths_in_config w1 (if truthy v then v else VDict ∅))
                         handles_read (Ok (VDict ∅)))
                      is_OSError (Ok (VDict ∅))).
  { unfold read_config_file, path_exists, read_yaml. by rewrite Hp. }
  unfold _load_config_file at 1. unfold load_config, merged_config, _load_config_file.
  rewrite Hloc. cbn [mbind result_bind]. rewrite Hread.
  destruct (truthy v) eqn:Ht.
  - destruct (expand_paths_other w1 v Hv) as [-> | ->];
      cbn [try_except handles_read is_OSError mbind result_bind]; [|eauto].
    destruct (_apply_claude_config_dir_override w1 v) as [c1|e1] eqn:H1;
      cbn [mbind result_bind];
      [|apply claude_override_raises in H1 as ->; eauto].
    assert (c1 = v) as ->.
    { unfold _apply_claude_config_dir_override in H1.
      destruct (getenv_nonempty w1 "CLAUDE_CONFIG_DIR").
      - destruct v; discriminate.
      - by injection H1. }
    destruct (_apply_env_overrides w1 v _get_top_level_env_mapping) as [c2|e2] eqn:H2;
      cbn [mbind result_bind];
      [|apply apply_env_overrides_raises in H2 as ->; eauto].
    apply apply_env_overrides_other in H2 as [-> _]; [|done].
    destruct (_apply_nested_env_overrides w1 v "display" _get_display_env_mapping)
      as [c3|e3] eqn:H3; cbn [mbind result_bind].
    + by apply apply_nested_other in H3.
    + apply apply_nested_raises in H3. rewrite Hv in H3. subst e3. eauto.
  - reflexivity.
Qed.

End load_twice_2.

Lemma X8_load_config_document_not_mapping_witness :
  (∃ e, load_config (Scenario.installed ∅ (VList [VStr "polling_interval"])) None
        = Raise e ∧ (e = TypeError ∨ e = AttributeError)) ∧
  _load_config_file (Scenario.installed ∅ VNone) None
  = Ok (VDict ∅, Scenario.installed ∅ VNone).
Proof.
  split.
  - exact (X8_load_config_document_not_mapping
             (Scenario.installed ∅ (VList [VStr "polling_interval"])) None
             Sample.config_file _ (VList [VStr "polling_interval"])
             ltac:(reflexivity) ltac:(reflexivity) ltac:(reflexivity)).
  - exact (X8_load_config_document_not_mapping
             (Scenario.installed ∅ VNone) None
             Sample.config_file _ VNone
             ltac:(reflexivity) ltac:(reflexivity) ltac:(reflexivity)).
Defined.

(* ===================================================================== *)
(** * Overrides and sections that validation rejects *)
(* ===================================================================== *)

Section fatal_values.

Context {runtime : Python}.

Lemma merged_config_loaded w cf o w1 :
  merged_config w cf = Ok (o, w1) →
  ∃ file, _load_config_file w cf = Ok (file, w1).
Proof.
  intros Hm. destruct (_load_config_file w cf) as [[file w1']|e] eqn:Hfile.
  - destruct (merged_config_inv _ _ _ _ _ _ Hfile Hm) as (-> & _). eauto.
  - unfold merged_config in Hm. rewrite Hfile in Hm.
    by apply load_config_file_raises in Hfile as [-> | ->].
Qed.

(** A violation of the schema in the merged mapping is fatal. *)
Lemma violation_is_fatal w cf d w1 l :
  merged_config w cf = Ok (VDict d, w1) → violates d l →
  ∃ errors, load_config w cf = Raise (ValidationError errors) ∧ l ∈ errors.
Proof.
  intros Hm Hl. unfold load_config. rewrite Hm.
  cbn [mbind result_bind Config_new].
  apply elem_errors_Config with (w := w1) in Hl.
  destruct (Config_validate w1 d) as [cfg|errors]; simpl in Hl.
  - by apply elem_of_nil in Hl.
  - eauto.
Qed.

Lemma load_config_merged_raises w cf e :
  merged_config w cf = Raise e → load_config w cf = Raise e.
Proof. unfold load_config. by intros ->. Qed.

Lemma merged_config_dict w cf o w1 :
  merged_config w cf = Ok (o, w1) → ∃ d, o = VDict d.
Proof.
  intros Hm. destruct (merged_config_loaded _ _ _ _ Hm) as (file & Hfile).
  destruct (merged_config_inv _ _ _ _ _ _ Hfile Hm) as (_ & d0 & d & _ & -> & _).
  eauto.
Qed.

(** X9: the theme has a variable but no parser: a text in
    [PAR_CC_USAGE_THEME] that is no theme value is not dropped like an
    invalid time format or display mode, it reaches validation and makes
    [load_config] fail, with a validation error at [display.theme] when
    the file can be built and holds mappings where mappings belong. *)
Theorem X9_invalid_theme_override_is_fatal w cf text :
  getenv w "PAR_CC_USAGE_THEME" = Some text →
  text ≠ ""%string →
  ThemeType_of text = None →
  ∃ e, load_config w cf = Raise e ∧
       (e = ValueError ∨ e = TypeError ∨ e = AttributeError ∨
        ∃ errors, e = ValidationError errors ∧
                  [Key "display"; Key "theme"] ∈ errors).
Proof.
  intros Hget Hne Htheme.
  destruct (merged_config w cf) as [[o w1]|e] eqn:Hm.
  - destruct (merged_config_dict _ _ _ _ Hm) as (d & ->).
    destruct (merged_config_loaded _ _ _ _ Hm) as (file & Hfile).
    destruct (merged_config_inv _ _ _ _ _ _ Hfile Hm)
      as (_ & d0 & d' & _ & [= <-] & Hf).
    destruct (violation_is_fatal w cf d w1 [Key "display"; Key "theme"] Hm)
      as (errors & Hload & Hin).
    { left. exists Field.theme, (VStr text), [].
      split; [|split; [cbn [Field.type_of validate_as val_theme]; by rewrite Htheme|];
               split; reflexivity].
      rewrite Hf. unfold env_override. cbn [env_var_of mbind option_bind].
      change (fst <$> List.find _ (env_table (Field.section Field.theme)))
        with (Some "PAR_CC_USAGE_THEME"%string).
      cbn [mbind option_bind].
      by rewrite (getenv_nonempty_Some _ _ _ Hget Hne). }
    eauto 10.
  - exists e. split; [by apply load_config_merged_raises|].
    apply merged_config_raises in Hm as [->|[[-> _]|[-> _]]]; tauto.
Qed.

End fatal_values.

Lemma X9_invalid_theme_override_is_fatal_witness :
  ∃ e, load_config (Sample.world {[ "PAR_CC_USAGE_THEME" := "neon" ]} ∅) None
       = Raise e ∧
       (e = ValueError ∨ e = TypeError ∨ e = AttributeError ∨
        ∃ errors, e = ValidationError errors ∧
                  [Key "display"; Key "theme"] ∈ errors).
Proof.
  apply (X9_invalid_theme_override_is_fatal
           (Sample.world {[ "PAR_CC_USAGE_THEME" := "neon" ]} ∅) None "neon").
  - reflexivity.
  - discriminate.
  - reflexivity.
Defined.

Section fatal_values_2.

Context {runtime : Python}.

Lemma section_dict_None d sec :
  section_dict d sec = None ↔ ∃ v, d !! sec = Some v ∧ is_dict v = false.
Proof.
  unfold section_dict. destruct (d !! sec) as [v|].
  - destruct v; split; try done;
      first [ intros _; eexists; split; done
            | intros (v' & [= <-] & Hv'); done ].
  - split; [done|]. by intros (v' & ? & _).
Qed.

(** A section of the file that is not a mapping stays what it is through
    the overrides. *)
Lemma merged_config_section w cf d0 w1 d w1' sec :
  _load_config_file w cf = Ok (VDict d0, w1) →
  merged_config w cf = Ok (VDict d, w1') →
  sec = "display"%string ∨ sec = "notifications"%string →
  section_dict d0 sec = None → section_dict d sec = None.
Proof.
  intros Hfile Hm Hsec Hnone. unfold merged_config in Hm. rewrite Hfile in Hm.
  cbn [try_except mbind result_bind] in Hm.
  apply bind_ok in Hm as (c1 & H1 & Hm). apply bind_ok in Hm as (c2 & H2 & Hm).
  apply bind_ok in Hm as (c3 & H3 & Hm). apply bind_ok in Hm as (c4 & H4 & Hm).
  injection Hm as -> ->.
  assert (∃ d1, c1 = VDict d1 ∧ ∀ k, k ≠ "projects_dirs"%string → d1 !! k = d0 !! k)
    as (d1 & -> & Hd1).
  { unfold _apply_claude_config_dir_override in H1.
    destruct (getenv_nonempty w1' "CLAUDE_CONFIG_DIR"); injection H1 as <-.
    - eexists; split; [done|]. intros k Hk. by rewrite lookup_insert_ne.
    - eauto. }
  destruct (apply_env_overrides_dict w1' _get_top_level_env_mapping d1)
    as (d2 & Hd2eq & Hd2).
  rewrite Hd2eq in H2. injection H2 as <-.
  apply apply_nested_dict in H3 as (d3 & -> & Hd3 & Hdisp).
  apply apply_nested_dict in H4 as (d4 & [= <-] & Hd4 & Hnot).
  assert (Hs2 : section_dict d2 sec = None).
  { unfold section_dict in *. rewrite Hd2, overrides_top_other by tauto.
    rewrite Hd1; [done|]. by destruct Hsec as [-> | ->]. }
  destruct Hsec as [-> | ->].
  - rewrite Hs2 in Hdisp. destruct Hdisp as [Hd3none _].
    unfold section_dict in *. by rewrite Hd4.
  - assert (Hs3 : section_dict d3 "notifications" = None)
      by (unfold section_dict in *; by rewrite Hd3).
    rewrite Hs3 in Hnot. by destruct Hnot as [? _].
Qed.

(** X10: a display or notifications section of the file that is not a mapping
    is fatal: [load_config] raises [TypeError] when an override of the
    section applies, and the validation error naming the section
    otherwise. *)
Theorem X10_section_not_mapping_is_fatal w cf d0 w1 sec v :
  _load_config_file w cf = Ok (VDict d0, w1) →
  sec = "display"%string ∨ sec = "notifications"%string →
  d0 !! sec = Some v →
  is_dict v = false →
  ∃ e, load_config w cf = Raise e ∧
       (e = TypeError ∨ ∃ errors, e = ValidationError errors ∧ [Key sec] ∈ errors).
Proof.
  intros Hfile Hsec Hv Hnd.
  destruct (merged_config w cf) as [[o w1']|e] eqn:Hm.
  - destruct (merged_config_dict _ _ _ _ Hm) as (d & ->).
    assert (Hnone : section_dict d sec = None).
    { eapply merged_config_section; try done. apply section_dict_None. eauto. }
    apply section_dict_None in Hnone as (v' & Hv' & Hnd').
    destruct (violation_is_fatal w cf d w1' [Key sec] Hm) as (errors & Hload & Hin).
    { right. exists sec, v'. by repeat split. }
    eauto 10.
  - exists e. split; [by apply load_config_merged_raises|]. left.
    apply merged_config_raises in Hm
      as [->|[[-> Hraise]|(-> & o & w1' & Hfile' & Ho)]]; [done| |].
    + by rewrite Hfile in Hraise.
    + rewrite Hfile in Hfile'. by injection Hfile' as <- _.
Qed.

End fatal_values_2.

Lemma X10_section_not_mapping_is_fatal_witness :
  (∃ e, load_config (Scenario.installed ∅ (VDict {[ "display" := VStr "wide" ]})) None
        = Raise e ∧
        (e = TypeError ∨
         ∃ errors, e = ValidationError errors ∧ [Key "display"] ∈ errors)) ∧
  load_config
    (Scenario.installed {[ "PAR_CC_USAGE_SHOW_PRICING" := "yes" ]}
       (VDict {[ "display" := VStr "wide" ]})) None
  = Raise TypeError.
Proof.
  split; [|reflexivity].
  set (w := Scenario.installed ∅ (VDict {[ "display" := VStr "wide" ]})).
  apply (X10_section_not_mapping_is_fatal w None {[ "display" := VStr "wide" ]} w
           "display" (VStr "wide")).
  - reflexivity.
  - by left.
  - reflexivity.
  - reflexivity.
Defined.

(* ===================================================================== *)
(** * Fields the environment and the expansion do not reach *)
(* ===================================================================== *)

Section fatal_values_3.

Context {runtime : Python}.

Lemma mapM_val_path_VStr (l : list string) :
  mapM val_path (VStr <$> l) = Some (Path <$> l).
Proof.
  replace (VStr <$> l) with ((λ q, VStr (str_of q)) <$> (Path <$> l)).
  - apply mapM_val_path_str.
  - rewrite <- list_fmap_compose. by apply list_fmap_ext.
Qed.

(** X11: the directories listed under [projects_dirs] in the file are taken as
    they are written, unexpanded, when [CLAUDE_CONFIG_DIR] is not set. *)
Theorem X11_file_projects_dirs_as_written w cf p w1 d l cfg w2 :
  getenv_nonempty w "CLAUDE_CONFIG_DIR" = None →
  locate_config_file w cf = Ok (p, w1) →
  fs w1 !! str_of p = Some (RegularFile (Document (VDict d))) →
  d !! "projects_dirs"%string = Some (VList (VStr <$> l)) →
  load_config w cf = Ok (cfg, w2) →
  projects_dirs cfg = Some (Path <$> l).
Proof.
  intros Henv Hloc Hp Hd Hload.
  assert (Hfile : _load_config_file w cf
                  = Ok (VDict (expanded_field w1 "cache_dir"
                                 (expanded_field w1 "projects_dir" d)), w1)).
  { unfold _load_config_file. rewrite Hloc. cbn [mbind result_bind].
    by rewrite (read_config_file_dict _ _ _ Hp). }
  pose proof (resolved_field _ _ _ _ _ _ Field.projects_dirs Hfile Hload) as Hf.
  unfold env_override in Hf. cbn [env_var_of mbind option_bind] in Hf.
  rewrite Henv in Hf. cbn [mbind option_bind] in Hf.
  unfold file_value, lookup_field in Hf. cbn [Field.section Field.key] in Hf.
  rewrite !expanded_field_ne, Hd in Hf by discriminate.
  cbn [Field.type_of validate_as val_optional val_list] in Hf.
  rewrite mapM_val_path_VStr in Hf. by injection Hf.
Qed.

End fatal_values_3.

Lemma X11_file_projects_dirs_as_written_witness :
  ∃ cfg w2,
    load_config
      (Scenario.installed ∅ (VDict {[ "projects_dirs" := VList [VStr "~/a"; VStr "$B/c"] ]}))
      None = Ok (cfg, w2) ∧
    projects_dirs cfg = Some [Path "~/a"; Path "$B/c"].
Proof.
  set (d := {[ "projects_dirs" := VList [VStr "~/a"; VStr "$B/c"] ]} : gmap string obj).
  set (w := Scenario.installed ∅ (VDict d)).
  exists (with_projects_dirs (Scenario.polling 5) (Some [Path "~/a"; Path "$B/c"])),
         (Scenario.loaded ∅ (VDict d)).
  assert (Hload : load_config w None
                  = Ok (with_projects_dirs (Scenario.polling 5)
                          (Some [Path "~/a"; Path "$B/c"]),
                        Scenario.loaded ∅ (VDict d))) by reflexivity.
  split; [exact Hload|].
  exact (X11_file_projects_dirs_as_written w None Sample.config_file w d
           ["~/a"; "$B/c"]%string _ _
           ltac:(reflexivity) ltac:(reflexivity) ltac:(reflexivity)
           ltac:(reflexivity) Hload).
Defined.

Section fatal_values_4.

Context {runtime : Python}.

(** X12: [aggregate_by_project] is the one field no variable is mapped to:
    whatever the environment holds, its resolved value is the file's, or
    the default when the file has none. *)
Theorem X12_aggregate_by_project_not_overridable w cf file w1 cfg w2 :
  _load_config_file w cf = Ok (file, w1) →
  load_config w cf = Ok (cfg, w2) →
  (∀ f, env_var_of f = None ↔ f = Field.aggregate_by_project) ∧
  match file_value file Field.aggregate_by_project with
  | Some v => val_bool v = Some (aggregate_by_project (display cfg))
  | None => aggregate_by_project (display cfg) = true
  end.
Proof.
  intros Hfile Hload. split.
  - intros f. split; [|by intros ->]. by destruct f.
  - pose proof (resolved_field _ _ _ _ _ _ Field.aggregate_by_project Hfile Hload) as Hf.
    change (env_override w Field.aggregate_by_project) with (@None obj) in Hf.
    destruct (file_value file Field.aggregate_by_project) as [v|].
    + cbn [Field.type_of validate_as field_value] in Hf.
      destruct (val_bool v); [|discriminate Hf]. by injection Hf as ->.
    + by injection Hf.
Qed.

End fatal_values_4.

Lemma X12_aggregate_by_project_not_overridable_witness :
  load_config
    (Sample.world {[ "PAR_CC_USAGE_AGGREGATE_BY_PROJECT" := "false" ]} ∅) None
  = Ok (Scenario.polling 5,
        Sample.world {[ "PAR_CC_USAGE_AGGREGATE_BY_PROJECT" := "false" ]}
          {[ Scenario.cache := Directory ]}) ∧
  aggregate_by_project (display (Scenario.polling 5)) = true.
Proof.
  assert (Hload :
            load_config
              (Sample.world {[ "PAR_CC_USAGE_AGGREGATE_BY_PROJECT" := "false" ]} ∅) None
            = Ok (Scenario.polling 5,
                  Sample.world {[ "PAR_CC_USAGE_AGGREGATE_BY_PROJECT" := "false" ]}
                    {[ Scenario.cache := Directory ]}))
    by reflexivity.
  assert (Hfile :
            _load_config_file
              (Sample.world {[ "PAR_CC_USAGE_AGGREGATE_BY_PROJECT" := "false" ]} ∅) None
            = Ok (VDict ∅,
                  Sample.world {[ "PAR_CC_USAGE_AGGREGATE_BY_PROJECT" := "false" ]} ∅))
    by reflexivity.
  split; [exact Hload|].
  exact (proj2 (X12_aggregate_by_project_not_overridable _ _ _ _ _ _ Hfile Hload)).
Defined.

(* ===================================================================== *)
(** * Which override texts are dropped *)
(* ===================================================================== *)

Section texts.

Context {runtime : Python}.

Lemma by_value_Some {E} (members : list E) (val : E → string) s m :
  by_value members val s = Some m → val m = s.
Proof.
  unfold by_value. intros H. apply find_some in H as [_ H].
  by apply String.eqb_eq in H.
Qed.

Lemma TimeFormat_of_None s :
  TimeFormat_of s = None ↔ ∀ t, s ≠ TimeFormat_value t.
Proof.
  split.
  - intros H t ->. by rewrite TimeFormat_of_value in H.
  - intros H. destruct (TimeFormat_of s) as [t|] eqn:Ht; [|done].
    apply by_value_Some in Ht. by destruct (H t).
Qed.

Lemma DisplayMode_of_None s :
  DisplayMode_of s = None ↔ ∀ m, s ≠ DisplayMode_value m.
Proof.
  split.
  - intros H m ->. by rewrite DisplayMode_of_value in H.
  - intros H. destruct (DisplayMode_of s) as [m|] eqn:Hm; [|done].
    apply by_value_Some in Hm. by destruct (H m).
Qed.

(** X13: [_parse_env_value] returns [None], so that the override is skipped,
    in three cases only: a text that [int] rejects for an integer key, and
    a text that is not the value of a member for [time_format] and for
    [display_mode].  Every other pair of key and text gives a value. *)
Theorem X13_parse_env_value_None w text key :
  _parse_env_value w text key = None ↔
  (key ∈ int_keys ∧ py_int text = None) ∨
  (key = "time_format"%string ∧ ∀ t, text ≠ TimeFormat_value t) ∨
  (key = "display_mode"%string ∧ ∀ m, text ≠ DisplayMode_value m).
Proof.
  rewrite <- mem_true. unfold _parse_env_value.
  destruct (mem key int_keys) eqn:Hint.
  { rewrite fmap_None. unfold _parse_int_value.
    split; [intros H; by left|].
    intros [[_ H]|[[-> _]|[-> _]]]; [done|discriminate Hint|discriminate Hint]. }
  destruct (mem key path_keys) eqn:Hpath.
  { split; [done|].
    intros [[H _]|[[-> _]|[-> _]]]; [done|discriminate Hpath|discriminate Hpath]. }
  destruct (mem key bool_keys) eqn:Hbool.
  { split; [done|].
    intros [[H _]|[[-> _]|[-> _]]]; [done|discriminate Hbool|discriminate Hbool]. }
  destruct (String.eqb_spec key "time_format") as [->|Htf].
  { rewrite fmap_None. unfold _parse_time_format_value. rewrite TimeFormat_of_None.
    split; [intros H; right; by left|].
    intros [[H _]|[[_ H]|[H _]]]; [done|done|discriminate H]. }
  destruct (String.eqb_spec key "display_mode") as [->|Hdm].
  { rewrite fmap_None. unfold _parse_display_mode_value. rewrite DisplayMode_of_None.
    split; [intros H; right; by right|].
    intros [[H _]|[[H _]|[_ H]]]; [done|discriminate H|done]. }
  destruct (String.eqb key "project_name_prefixes");
    (split; [done|]; intros [[H _]|[[H _]|[H _]]]; done).
Qed.

(* ===================================================================== *)
(** * Comma-separated lists *)
(* ===================================================================== *)

Lemma lstrip_unspaced l : unspaced (Str.lstrip l).
Proof.
  induction l as [|c l IH]; simpl; [done|].
  destruct (Str.is_space c) eqn:Hc; [done|]. simpl. done.
Qed.

Lemma lstrip_id l : unspaced l → Str.lstrip l = l.
Proof. destruct l as [|c l]; simpl; [done|]. by intros ->. Qed.

Lemma lstrip_snoc l c :
  Str.is_space c = false → Str.lstrip (l ++ [c]) = Str.lstrip l ++ [c].
Proof.
  intros Hc. induction l as [|a l IH]; simpl; [by rewrite Hc|].
  by destruct (Str.is_space a).
Qed.

Lemma rstrip_unspaced l : unspaced l → unspaced (rev (Str.lstrip (rev l))).
Proof.
  destruct l as [|c l]; simpl; [done|]. intros Hc.
  rewrite lstrip_snoc by done. by rewrite rev_app_distr.
Qed.

Lemma strip_chars_unspaced l :
  unspaced (Str.strip_chars l) ∧ unspaced (rev (Str.strip_chars l)).
Proof.
  unfold Str.strip_chars. split.
  - apply rstrip_unspaced, lstrip_unspaced.
  - rewrite rev_involutive. apply lstrip_unspaced.
Qed.

Lemma strip_chars_id l : unspaced l → unspaced (rev l) → Str.strip_chars l = l.
Proof.
  intros H1 H2. unfold Str.strip_chars.
  by rewrite (lstrip_id l), (lstrip_id (rev l)), rev_involutive.
Qed.

Lemma strip_chars_idem l : Str.strip_chars (Str.strip_chars l) = Str.strip_chars l.
Proof. apply strip_chars_id; apply strip_chars_unspaced. Qed.

Lemma strip_idem s : Str.strip (Str.strip s) = Str.strip s.
Proof.
  unfold Str.strip.
  by rewrite list_ascii_of_string_of_list_ascii, strip_chars_idem.
Qed.

Lemma lstrip_In c l : In c (Str.lstrip l) → In c l.
Proof.
  induction l as [|a l IH]; simpl; [done|].
  destruct (Str.is_space a); simpl; tauto.
Qed.

Lemma strip_chars_In c l : In c (Str.strip_chars l) → In c l.
Proof.
  unfold Str.strip_chars. rewrite <- in_rev. intros H.
  apply lstrip_In in H. rewrite <- in_rev in H. by apply lstrip_In.
Qed.

Lemma split_chars_free sep l :
  ∀ seg, In seg (Str.split_chars sep l) → free_of sep seg.
Proof.
  induction l as [|c l IH]; simpl.
  - intros seg [<-|[]]. by intros c [].
  - destruct (Ascii.eqb c sep) eqn:Hc.
    + intros seg [<-|H]; [by intros ? []|by apply IH].
    + destruct (Str.split_chars sep l) as [|g gs].
      * intros seg [<-|[]]. intros a [<-|[]]. done.
      * intros seg [<-|H].
        -- intros a [<-|Ha]; [done|]. apply (IH g); [by left|done].
        -- apply IH. by right.
Qed.

Lemma split_chars_whole sep l : free_of sep l → Str.split_chars sep l = [l].
Proof.
  induction l as [|c l IH]; intros H; simpl; [done|].
  rewrite (H c) by (by left). rewrite IH; [done|].
  intros a Ha. apply H. by right.
Qed.

Lemma split_chars_app sep l rest :
  free_of sep l →
  Str.split_chars sep (l ++ sep :: rest) = l :: Str.split_chars sep rest.
Proof.
  induction l as [|c l IH]; intros H; simpl.
  - by rewrite Ascii.eqb_refl.
  - rewrite (H c) by (by left). rewrite IH; [done|].
    intros a Ha. apply H. by right.
Qed.

Lemma list_ascii_of_string_app s t :
  list_ascii_of_string (String.append s t)
  = list_ascii_of_string s ++ list_ascii_of_string t.
Proof. induction s as [|c s IH]; simpl; [done|]. by rewrite IH. Qed.

Lemma has_comma_free s :
  has_comma s = false ↔ free_of ","%char (list_ascii_of_string s).
Proof.
  unfold has_comma, free_of.
  induction (list_ascii_of_string s) as [|c l IH]; simpl.
  - split; [by intros _ ? []|done].
  - rewrite orb_false_iff, IH. split.
    + intros [Hc Hl] a [<-|Ha]; [done|by apply Hl].
    + intros H. split; [apply H; by left|]. intros a Ha. apply H. by right.
Qed.

Lemma clean_spec s :
  clean s = true ↔ s ≠ ""%string ∧ py_strip s = s ∧ has_comma s = false.
Proof.
  unfold clean. rewrite !andb_true_iff, String.eqb_eq, negb_true_iff.
  split; intros [[H1 H2] H3] || intros (H1 & H2 & H3).
  - split; [by destruct s|done].
  - split; [split; [by destruct s|done]|done].
Qed.

Lemma split_join_commas items :
  Forall (λ x, clean x = true) items →
  Str.split ","%char (join_commas items)
  = match items with [] => [""%string] | _ => items end.
Proof.
  unfold Str.split, join_commas.
  induction items as [|x items IH]; intros Hclean; [done|].
  apply Forall_cons in Hclean as [Hx Hitems].
  apply clean_spec in Hx as (_ & _ & Hx). apply has_comma_free in Hx.
  destruct items as [|y items].
  - simpl. rewrite split_chars_whole by done. simpl.
    by rewrite string_of_list_ascii_of_string.
  - change (String.concat "," (x :: y :: items))
      with (String.append x (String.append "," (String.concat "," (y :: items)))).
    rewrite list_ascii_of_string_app.
    change (list_ascii_of_string (String.append "," ?t))
      with (","%char :: list_ascii_of_string t).
    rewrite split_chars_app by done.
    cbn [map]. rewrite string_of_list_ascii_of_string.
    f_equal. by apply IH.
Qed.

Lemma py_strip_empty `{!StripLaws} : py_strip "" = ""%string.
Proof.
  pose proof (py_strip_within ""%string) as Hin.
  destruct (py_strip "") as [|c t]; [done|].
  destruct (Hin c). by left.
Qed.

(** X14: the comma-separated lists of the overrides (the prefixes of
    [PAR_CC_USAGE_PROJECT_NAME_PREFIXES], and the directories of
    [CLAUDE_CONFIG_DIR], which are read the same way), for a [strip] that
    is idempotent and returns a part of its argument: every item returned
    is not empty, is left unchanged by [strip] and holds no comma; and a
    list of such items is recovered from its items joined by commas. *)
Theorem X14_parse_prefix_list_value_items `{!StripLaws} :
  (∀ value x, x ∈ _parse_prefix_list_value value → clean x = true) ∧
  (∀ items, Forall (λ x, clean x = true) items →
            _parse_prefix_list_value (join_commas items) = items) ∧
  (∀ text, claude_dirs_paths text = Path <$> _parse_prefix_list_value text).
Proof.
  split; [|split; [|done]].
  - intros value x Hx. unfold _parse_prefix_list_value, comma_list in Hx.
    apply list_elem_of_In, filter_In in Hx as [Hx Hne].
    apply in_map_iff in Hx as (seg & <- & Hseg).
    apply clean_spec. split; [by destruct (py_strip seg)|].
    split; [apply py_strip_idempotent|].
    apply has_comma_free. unfold Str.split in Hseg.
    apply in_map_iff in Hseg as (chars & <- & Hchars).
    apply split_chars_free in Hchars.
    intros c Hc. apply py_strip_within in Hc.
    rewrite list_ascii_of_string_of_list_ascii in Hc. by apply Hchars.
  - intros items Hclean. unfold _parse_prefix_list_value, comma_list.
    rewrite split_join_commas by done.
    destruct items as [|x items]; [cbn [map List.filter]; by rewrite py_strip_empty|].
    induction Hclean as [|y ys Hy Hys IH]; [done|].
    apply clean_spec in Hy as (Hne & Hstrip & _).
    cbn [map List.filter]. rewrite Hstrip.
    destruct y; [done|]. cbn [Str.nonempty]. by rewrite IH.
Qed.

End texts.

(** [strip] on ASCII texts is idempotent and returns a part of its
    argument. *)
#[global] Instance ascii_strip_laws : @StripLaws ascii_python.
Proof.
  split.
  - apply strip_idem.
  - intros s c. cbn [py_strip ascii_python]. unfold Str.strip.
    rewrite list_ascii_of_string_of_list_ascii. apply strip_chars_In.
Qed.

Lemma X14_parse_prefix_list_value_items_witness :
  _parse_prefix_list_value (join_commas ["a b"; "-home-"])
  = ["a b"; "-home-"]%string.
Proof.
  apply (proj1 (proj2 (X14_parse_prefix_list_value_items (runtime := ascii_python)))).
  repeat (constructor; [reflexivity|]). constructor.
Defined.

Example parse_prefix_list_value_examples :
  _parse_prefix_list_value " -Users- , ,-home-,, " = ["-Users-"; "-home-"]%string ∧
  _parse_prefix_list_value " , " = [] ∧
  _parse_prefix_list_value "" = [] ∧
  _parse_prefix_list_value (join_commas ["a b"; "c"]) = ["a b"; "c"]%string.
Proof. repeat split; reflexivity. Qed.

(* ===================================================================== *)
(** * The enumerations *)
(* ===================================================================== *)

Section texts_2.

Context {runtime : Python}.

(** X15: in each of the eight enumeration classes the values of the members
    are pairwise distinct, so that no member is an alias of another
    ([SortBy.TIME] and [SortBy.TIMESTAMP] are two members): every member
    is found under its own value, and a text finds only the member whose
    value it is, letter case included. *)
Theorem X15_enum_value_lookup :
  value_lookup_inverse TimeFormat ∧ value_lookup_inverse ModelType ∧
  value_lookup_inverse WebhookType ∧ value_lookup_inverse ServiceTier ∧
  value_lookup_inverse OutputFormat ∧ value_lookup_inverse SortBy ∧
  value_lookup_inverse DisplayMode ∧ value_lookup_inverse ThemeType.
Proof. repeat split; first [by intros [] | intros s m; apply by_value_Some]. Qed.

End texts_2.

Example enum_lookup_examples :
  of_value "time" = Some TIME ∧ of_value "timestamp" = Some TIMESTAMP ∧
  of_value "sonnet-4" = Some CLAUDE_SONNET_4 ∧
  @of_value ModelType _ "Opus" = None ∧ @of_value OutputFormat _ "yaml" = None.
Proof. repeat split; reflexivity. Qed.

(* ===================================================================== *)
(** * More on the project directories *)
(* ===================================================================== *)

Section more_paths.

Context {runtime : Python}.

(** X16: the single [projects_dir] is the last resort only: as soon as the
    directory list is set and not empty, or one of the two default
    directories exists, [get_claude_paths] does not depend on it. *)
Theorem X16_get_claude_paths_ignores_projects_dir w self q :
  (∃ p l, projects_dirs self = Some (p :: l)) ∨
  (∃ p, p ∈ default_paths w ∧ is_existing_dir w p = true) →
  get_claude_paths w (with_projects_dir self q) = get_claude_paths w self.
Proof.
  intros H. unfold get_claude_paths.
  assert (Hc : candidate_paths w (with_projects_dir self q) = candidate_paths w self);
    [|by rewrite Hc].
  unfold candidate_paths. cbn [with_projects_dir projects_dirs projects_dir].
  destruct H as [(p & l & ->)|(p & Hp & Hdir)]; [done|].
  assert (Hne : ∀ paths, existing_defaults w (default_paths w) [] = Ok paths →
                         paths ≠ []).
  { intros paths Hpaths ->. apply existing_defaults_Ok in Hpaths.
    rewrite app_nil_l in Hpaths.
    assert (Hin : In p (List.filter (is_existing_dir w) (default_paths w)))
      by (apply filter_In; split; [by apply list_elem_of_In|done]).
    by rewrite <- Hpaths in Hin. }
  destruct (projects_dirs self) as [[|p' l]|]; [|done|];
    (destruct (existing_defaults w (default_paths w) []) as [paths|e] eqn:Hd;
     [|done]; specialize (Hne paths eq_refl); cbn [mbind result_bind];
     by destruct paths).
Qed.

End more_paths.

Lemma X16_get_claude_paths_ignores_projects_dir_witness :
  get_claude_paths (Sample.world ∅ {[ "/home/u/.claude/projects" := Directory;
                                      "/custom" := Directory ]})
    (with_projects_dir (Scenario.polling 5) (Path "/custom"))
  = Ok [Path "/home/u/.claude/projects"].
Proof.
  set (w := Sample.world ∅ {[ "/home/u/.claude/projects" := Directory;
                              "/custom" := Directory ]}).
  rewrite (X16_get_claude_paths_ignores_projects_dir w (Scenario.polling 5) (Path "/custom")).
  - reflexivity.
  - right. exists (Path "/home/u/.claude/projects"). split; [|reflexivity].
    unfold default_paths. set_unfold. by right; left.
Defined.

Section more_paths_2.

Context {runtime : Python}.

Lemma exists_and_is_dir_existing w p :
  is_existing_dir w p = true → exists_and_is_dir w p = Ok true.
Proof.
  unfold exists_and_is_dir, path_exists, path_is_dir, is_existing_dir.
  destruct (fs w !! str_of p) as [[| |c]|] eqn:E; simpl; rewrite ?E; done.
Qed.

Lemma valid_paths_loop_existing w paths : ∀ acc seen,
  all_existing_dirs w paths →
  valid_paths_loop w paths acc seen = Ok (loop_result w paths acc seen).
Proof.
  induction paths as [|p rest IH]; intros acc seen Hall.
  - simpl. unfold loop_result. simpl. by rewrite app_nil_r.
  - apply Forall_cons in Hall as [Hp Hrest].
    rewrite loop_result_step. cbn [valid_paths_loop].
    change (str_of (resolve w p)) with (canonical w p).
    case_bool_decide as Hs; [by apply IH|].
    rewrite (exists_and_is_dir_existing _ _ Hp), Hp. cbn [mbind result_bind].
    by apply IH.
Qed.

Lemma filter_all {A} (P : A → bool) l :
  Forall (λ x, P x = true) l → List.filter P l = l.
Proof.
  induction 1 as [|x l Hx _ IH]; simpl; [done|]. by rewrite Hx, IH.
Qed.

Lemma first_occurrences_id key l :
  NoDup (key <$> l) → first_occurrences key l = l.
Proof.
  induction l as [|p l IH]; csimpl; [done|].
  rewrite NoDup_cons. intros [Hp Hl]. rewrite IH by done. f_equal.
  apply filter_all, Forall_forall. intros q Hq.
  destruct (String.eqb_spec (key q) (key p)) as [Heq|]; [|done].
  exfalso. apply Hp. rewrite list_elem_of_fmap. by exists q.
Qed.

(** X17: the directories [get_claude_paths] returns are a fixed point: set as
    the directory list of the configuration, they are returned again, in
    the same order. *)
Theorem X17_get_claude_paths_stable w self p l :
  get_claude_paths w self = Ok (p :: l) →
  get_claude_paths w (with_projects_dirs self (Some (p :: l))) = Ok (p :: l).
Proof.
  intros H.
  assert (Hm : p :: l = monitored w self).
  { unfold get_claude_paths in H. apply bind_ok in H as (paths & Hc & H).
    apply candidate_paths_Ok in Hc as ->.
    apply valid_paths_loop_Ok in H as ->. apply loop_result_start. }
  assert (Hdirs : all_existing_dirs w (p :: l)).
  { rewrite Hm. apply Forall_forall. intros q Hq.
    apply first_occurrences_sub in Hq.
    by apply list_elem_of_In, filter_In in Hq as [_ Hq]. }
  assert (Hnodup : NoDup (canonical w <$> p :: l))
    by (rewrite Hm; apply first_occurrences_NoDup).
  unfold get_claude_paths, candidate_paths.
  cbn [with_projects_dirs projects_dirs mbind result_bind].
  rewrite (valid_paths_loop_existing _ _ _ _ Hdirs), loop_result_start.
  by rewrite (filter_all _ _ Hdirs), first_occurrences_id.
Qed.

End more_paths_2.

Lemma X17_get_claude_paths_stable_witness :
  get_claude_paths Sample.one_dir_world
    (with_projects_dirs Sample.repeated_dirs_config (Some [Path "/data/a"]))
  = Ok [Path "/data/a"].
Proof.
  apply (X17_get_claude_paths_stable Sample.one_dir_world Sample.repeated_dirs_config).
  reflexivity.
Defined.

(* ===================================================================== *)
(** * What an override does, type by type *)
(* ===================================================================== *)

Section override_types.

Context {runtime : Python}.

Lemma ThemeType_of_value t : ThemeType_of (ThemeType_value t) = Some t.
Proof. by destruct t. Qed.

Lemma env_override_text w f var text :
  env_var_of f = Some var → getenv_nonempty w var = Some text →
  env_override w f = coerce w f text.
Proof.
  intros Hv Hg. unfold env_override. rewrite Hv. cbn [mbind option_bind].
  by rewrite Hg.
Qed.

(** X18: the key lists of [_parse_env_value] agree with the types of the
    schema: a variable set to a text that is not empty gives its field,
    in every successful load, the boolean the text parses to, the text
    itself for a string field, the stripped non-empty pieces between its
    commas for the prefixes and for the directory list, its expansion for
    a path, the integer [int] reads it as for an integer field, and the
    member it is the value of for an enumeration field. *)
Theorem X18_override_value_by_type w cf cfg w2 f var text :
  env_var_of f = Some var →
  getenv_nonempty w var = Some text →
  load_config w cf = Ok (cfg, w2) →
  match Field.type_of f with
  | Field.Bool => field_value cfg f = TBool (_parse_bool_value text)
  | Field.Str => field_value cfg f = TStr text
  | Field.OptStr => field_value cfg f = TOptStr (Some text)
  | Field.Strs =>
      field_value cfg f
      = TStrs (List.filter Str.nonempty (py_strip <$> Str.split "," text))
  | Field.PathT => field_value cfg f = TPath (expand_path w text)
  | Field.OptPaths =>
      field_value cfg f
      = TOptPaths (Some (Path <$> List.filter Str.nonempty
                                    (py_strip <$> Str.split "," text)))
  | Field.Int => ∀ n, py_int text = Some n → field_value cfg f = TInt n
  | Field.OptInt =>
      ∀ n, py_int text = Some n → field_value cfg f = TOptInt (Some n)
  | Field.TimeFormatT =>
      ∀ t, text = TimeFormat_value t → field_value cfg f = TTimeFormat t
  | Field.DisplayModeT =>
      ∀ m, text = DisplayMode_value m → field_value cfg f = TDisplayMode m
  | Field.ThemeT => ∀ t, text = ThemeType_value t → field_value cfg f = TTheme t
  end.
Proof.
  intros Hvar Hget Hload.
  destruct (load_config_loaded _ _ _ _ Hload) as (file & w1 & Hfile).
  pose proof (resolved_field _ _ _ _ _ _ f Hfile Hload) as Hres.
  rewrite (env_override_text _ _ _ _ Hvar Hget) in Hres. clear Hget Hfile Hload.
  destruct f; try discriminate Hvar; clear Hvar;
    cbn [Field.type_of];
    unfold coerce, _parse_env_value, _parse_int_value, _parse_prefix_list_value,
      claude_dirs_paths, comma_list in Hres;
    cbn [Field.key mem existsb int_keys path_keys bool_keys String.eqb Ascii.eqb
           Bool.eqb orb] in Hres;
    cbn [Field.type_of validate_as] in Hres;
    first [ intros n Hn; rewrite Hn in Hres | idtac ];
    unfold _parse_time_format_value, _parse_display_mode_value in Hres;
    rewrite ?TimeFormat_of_value, ?DisplayMode_of_value in Hres;
    cbn [val_list val_optional val_theme fmap option_fmap option_map] in Hres;
    rewrite ?mapM_val_str, ?mapM_val_path, ?ThemeType_of_value in Hres;
    cbn in Hres; cbn [field_value];
    first [congruence | injection Hres as <-; reflexivity].
Qed.

End override_types.

Lemma X18_override_value_by_type_witness :
  load_config (Sample.world {[ "PAR_CC_USAGE_POLLING_INTERVAL" := " +2_0 " ]} ∅) None
  = Ok (Scenario.polling 20,
        Sample.world {[ "PAR_CC_USAGE_POLLING_INTERVAL" := " +2_0 " ]}
          {[ Scenario.cache := Directory ]}) ∧
  field_value (Scenario.polling 20) Field.polling_interval = TInt 20.
Proof.
  set (env := {[ "PAR_CC_USAGE_POLLING_INTERVAL" := " +2_0 " ]} : gmap string string).
  assert (Hload : load_config (Sample.world env ∅) None
                  = Ok (Scenario.polling 20,
                        Sample.world env {[ Scenario.cache := Directory ]}))
    by reflexivity.
  split; [exact Hload|].
  exact (X18_override_value_by_type (Sample.world env ∅) None _ _ Field.polling_interval
           "PAR_CC_USAGE_POLLING_INTERVAL" " +2_0 "
           ltac:(reflexivity) ltac:(reflexivity) Hload 20 ltac:(reflexivity)).
Defined.
